(** * easy_server: request dispatch and middleware chaining

    A shallow embedding of the Go package [easyserver] and a verification of
    its specification.  The package exists in three revisions:

    - [server.go]: the first engine ([engineContext], a linked list of
      engine-wide middlewares in front of a [router.Handler]);
    - the first file of [unnamed/part_000] (revision [RevA]): nodes and
      groups, per-route chains held in a slice, empty path sent to
      ["/index"];
    - the second file of [unnamed/part_000] (revision [RevB]): the same
      engine with the fields renamed, the empty path sent to ["/"] and one
      more trace record.

    Go values are modelled as the code has them: strings are byte strings,
    [int] is a 64-bit integer, a [func] value may be nil, a slice is a header
    (array, offset, length, capacity) over a backing array that lives in a
    store, and [append] writes in place whenever the capacity allows it. *)

From Stdlib Require Import ZArith Lia Ascii.
From stdpp Require Import base option list strings sorting.

Local Open Scope Z_scope.
Local Open Scope list_scope.

(** ** Go integers *)

Definition max_int : Z := 2 ^ 63 - 1.

(** Two's-complement wrap-around of the 64-bit [int]. *)
Definition wrap_int (z : Z) : Z := (z + 2 ^ 63) mod 2 ^ 64 - 2 ^ 63.

(** ** Requests *)

Record URL := mkURL { url_Path : string; url_RawQuery : string }.

Record Request := mkRequest { req_Method : string; req_URL : URL }.

(** [router.UrlParam]: a (name, value) pair of a dynamic path segment. *)
Definition UrlParam : Type := string * string.

Definition set_Path (req : Request) (p : string) : Request :=
  {| req_Method := req_Method req;
     req_URL := {| url_Path := p; url_RawQuery := url_RawQuery (req_URL req) |} |}.

(** ** Chain units

    A chain unit is a Go [func(c Context)].  What it does with the context
    it receives is a finite tree of interactions: it writes to the response,
    it calls [c.Next()] and continues with the boolean it gets back, it
    panics, or it returns.  The tree is fixed by what the getters of the
    context return: a unit keeps no state of its own between two calls, and
    it does not recover from panics. *)

Inductive action :=
| SetHeader (k v : string)
| DelHeader (k : string)
| WriteHeader (code : Z)
| Write (body : string).

Inductive prog :=
| Done
| CallNext (k : bool -> prog)
| Act (a : action) (k : prog)
| Panic (v : string).

(** What the getters of [Context] return; fixed for the whole request. *)
Record ctxView := mkView {
  view_Req : Request;
  view_ParamParam : list UrlParam;
  view_MatchPath : string }.

Definition HandlerFunc : Type := ctxView -> prog.

(** A [func] value: [None] is the nil func. *)
Definition Func : Type := option HandlerFunc.

(** ** Slices of funcs and their store *)

Record slice := mkSlice {
  s_arr : nat;      (* the backing array, an index into the store *)
  s_off : nat;      (* first element of the slice inside the array *)
  s_len : nat;
  s_cap : nat }.

Definition nil_slice : slice := mkSlice 0 0 0 0.

Abbreviation heap := (list (list Func)).

Definition array_of (h : heap) (s : slice) : list Func :=
  default [] (h !! s_arr s).

Definition slice_elems (h : heap) (s : slice) : list Func :=
  take (s_len s) (drop (s_off s) (array_of h s)).

(** [s[i]] with Go's bounds check: [None] is the run-time panic
    "index out of range". *)
Definition slice_index (h : heap) (s : slice) (i : Z) : option Func :=
  if decide (0 <= i < Z.of_nat (s_len s))
  then array_of h s !! (s_off s + Z.to_nat i)%nat
  else None.

(** The header invariants of a slice that was made by Go code. *)
Definition slice_wf (h : heap) (s : slice) : Prop :=
  (s_len s <= s_cap s)%nat /\
  (s_off s + s_cap s <= length (array_of h s))%nat /\
  Z.of_nat (s_cap s) <= max_int.

(** What the package takes from outside and this development leaves open:
    the capacity the run time picks when [append] has to grow a slice (a
    function of the old capacity and of the length that is needed; it is
    only used when it is large enough), and the header name
    [logs.LogIdContextKey]. *)
Class Externals := {
  growslice : nat -> nat -> nat;
  LogIdContextKey : string }.

(** [append(s, xs...)]: in place when the capacity suffices, otherwise into
    a fresh array. *)
Definition append `{Externals} (h : heap) (s : slice) (xs : list Func) : heap * slice :=
  let need := (s_len s + length xs)%nat in
  if decide (need <= s_cap s)%nat then
    (<[s_arr s := list_inserts (s_off s + s_len s)%nat xs (array_of h s)]> h,
     mkSlice (s_arr s) (s_off s) need (s_cap s))
  else
    let c := Nat.max need (growslice (s_cap s) need) in
    (h ++ [slice_elems h s ++ xs ++ replicate (c - need) None],
     mkSlice (length h) 0 need c).

(** ** Panics, outcomes and observable events *)

Inductive panic :=
| PanicValue (v : string)     (* [panic(v)] in Go code *)
| NilFuncCall                 (* a nil func value was called *)
| NilDereference              (* a field of a nil pointer was read *)
| IndexOutOfRange             (* a failed bounds check *)
| RouterPanic.                (* the router refused a registration *)

Inductive outcome (A : Type) :=
| Returned (a : A)
| Panicking (p : panic)
| OutOfFuel.
Arguments Returned {A} a.
Arguments Panicking {A} p.
Arguments OutOfFuel {A}.

Inductive traceRecord :=
| TraceReq (req : Request)
| TraceResp
| TraceMatch (matchPath : string) (params : list UrlParam).

Inductive callee :=
| ChainUnit (i : Z)           (* [c.middlewares[i]] of a [reqContext] *)
| Middleware (rest : nat)     (* an engine middleware with [rest] successors *)
| RouteHandler.               (* the [router.Handler] of the first engine *)

Inductive event :=
| LogTrace (r : traceRecord)              (* logs.CtxTrace *)
| LogCritical (p : panic)                 (* logs.CtxCritical with debug.Stack() *)
| HeaderSet (k v : string)                (* resp.Header().Set(k, v) *)
| HttpError (msg : string) (code : Z)     (* http.Error(resp, msg, code) *)
| HttpNotFound                            (* http.NotFound(resp, req) *)
| HttpRedirect (u : URL) (code : Z)       (* http.Redirect(resp, req, u.String(), code) *)
| RouterRegister (method path : string) (chain : slice)   (* e.r.Register *)
| RouterLookup (method path : string)     (* e.r.Lookup / e.r.GetHandler *)
| Invoke (f : callee) (v : ctxView)       (* a unit was called with this context *)
| RespAct (a : action).                   (* a unit acted on the response *)

Definition StatusMethodNotAllowed : Z := 405.
Definition StatusPermanentRedirect : Z := 308.
Definition StatusNotFound : Z := 404.

(** [http.StatusText(http.StatusMethodNotAllowed)] *)
Definition StatusText_MethodNotAllowed : string := "Method Not Allowed".

(** ** A monad for state, trace and panics *)

Definition M (S A : Type) : Type := S -> outcome A * S * list event.

Definition ret {S A} (a : A) : M S A := fun s => (Returned a, s, []).

Definition bind {S A B} (m : M S A) (f : A -> M S B) : M S B :=
  fun s =>
    match m s with
    | (Returned a, s1, t1) =>
        match f a s1 with (o, s2, t2) => (o, s2, t1 ++ t2) end
    | (Panicking p, s1, t1) => (Panicking p, s1, t1)
    | (OutOfFuel, s1, t1) => (OutOfFuel, s1, t1)
    end.

Declare Scope go_scope.
Delimit Scope go_scope with go.
Notation "x <- m ;; k" := (bind m (fun x => k))
  (at level 100, m at next level, right associativity) : go_scope.
Notation "m ;; k" := (bind m (fun _ => k))
  (at level 100, right associativity) : go_scope.
Local Open Scope go_scope.

Definition get {S} : M S S := fun s => (Returned s, s, []).
Definition put {S} (s : S) : M S unit := fun _ => (Returned tt, s, []).
Definition emit {S} (e : event) : M S unit := fun s => (Returned tt, s, [e]).
Definition raise {S A} (p : panic) : M S A := fun s => (Panicking p, s, []).
Definition out_of_fuel {S A} : M S A := fun s => (OutOfFuel, s, []).

(** [defer d] in front of [body]: [d] runs when [body] is left, whether it
    returned or panicked; a panic of [body] goes on afterwards. *)
Definition defer {S A} (d : M S unit) (body : M S A) : M S A :=
  fun s =>
    match body s with
    | (OutOfFuel, s1, t1) => (OutOfFuel, s1, t1)
    | (o, s1, t1) =>
        match d s1 with
        | (Returned _, s2, t2) => (o, s2, t1 ++ t2)
        | (Panicking p, s2, t2) => (Panicking p, s2, t1 ++ t2)
        | (OutOfFuel, s2, t2) => (OutOfFuel, s2, t1 ++ t2)
        end
    end.

(** [defer func() { if err := recover(); err != nil { h(err) } }()]: a panic
    of [body] is stopped, handed to [h], and the function returns. *)
Definition defer_recover {S} (h : panic -> M S unit) (body : M S unit) : M S unit :=
  fun s =>
    match body s with
    | (Returned a, s1, t1) => (Returned a, s1, t1)
    | (Panicking p, s1, t1) =>
        match h p s1 with (o, s2, t2) => (o, s2, t1 ++ t2) end
    | (OutOfFuel, s1, t1) => (OutOfFuel, s1, t1)
    end.

(** A callee that works on an object of its own: the caller's state is left
    alone and the callee's final state is dropped with the object. *)
Definition with_object {S T A} (init : T) (m : M T A) : M S A :=
  fun s => match m init with (o, _, t) => (o, s, t) end.

(** ** The standard library functions the package calls *)

(** [strings.Join(elems, sep)] *)
Fixpoint Join (elems : list string) (sep : string) : string :=
  match elems with
  | [] => ""
  | x :: rest =>
      match rest with
      | [] => x
      | _ :: _ => x +:+ sep +:+ Join rest sep
      end
  end.

(** [sort.Strings]: increasing byte-wise order. *)
Definition sort_Strings (l : list string) : list string :=
  merge_sort String.le l.

(** [p[len(p)-1]]; [None] when [p] is empty (the bounds check fails). *)
Fixpoint last_byte (p : string) : option ascii :=
  match p with
  | EmptyString => None
  | String a rest =>
      match rest with
      | EmptyString => Some a
      | String _ _ => last_byte rest
      end
  end.

(** [p[:len(p)-1]] *)
Fixpoint but_last (p : string) : string :=
  match p with
  | EmptyString => EmptyString
  | String a rest =>
      match rest with
      | EmptyString => EmptyString
      | String _ _ => String a (but_last rest)
      end
  end.

(** The trailing-slash toggle of [ServeHTTP]:
    [if p[len(p)-1] == '/' { p = p[:len(p)-1] } else { p += "/" }];
    [None] when the bounds check of [p[len(p)-1]] fails. *)
Definition toggle_slash (path : string) : option string :=
  match last_byte path with
  | None => None
  | Some b => Some (if Ascii.eqb b "/"%char then but_last path else path +:+ "/")
  end.

(** ** The router, an external collaborator

    [github.com/58kg/router] (later [github.com/gogokit/router]) is not part
    of the package.  The engine uses it through [Register] and [Lookup]
    ([GetHandler] in the first engine); a registration may panic. *)
Class Router (V R : Type) := {
  router_New : R;
  router_Register : R -> string -> string -> V -> option R;
  router_Lookup : R -> string -> string -> option V * list UrlParam * bool }.

(** ** The engine of [unnamed/part_000] *)

Inductive revision := RevA | RevB.

Record Node := mkNode {
  Node_Method : string;
  Node_Path : string;
  Node_Middlewares : slice;
  Node_Handler : Func }.

Record Group := mkGroup {
  Group_RootPath : string;
  Group_Middlewares : slice;
  Group_Children : list Node }.

Record routerValue := mkRouterValue {
  rv_middlewares : slice;
  rv_matchPath : string }.

Record allowedMethodsT := mkAllowed { am_s : list string; am_str : string }.

Record engine (R : Type) := mkEngine {
  e_r : R;
  e_allowedMethods : allowedMethodsT }.
Arguments mkEngine {R} _ _.
Arguments e_r {R} _.
Arguments e_allowedMethods {R} _.

(** The engine together with the store its slices point into. *)
Record server (R : Type) := mkServer { store : heap; eng : engine R }.
Arguments mkServer {R} _ _.
Arguments store {R} _.
Arguments eng {R} _.

Record reqContext := mkCtx {
  c_req : Request;
  c_pathParam : list UrlParam;
  c_middlewares : slice;
  c_curMW : Z;
  c_matchPath : string }.

Definition set_curMW (c : reqContext) (i : Z) : reqContext :=
  mkCtx (c_req c) (c_pathParam c) (c_middlewares c) i (c_matchPath c).

(** [GetReq], [GetParamParam] and [GetMatchPath] of a [reqContext]. *)
Definition view_of (c : reqContext) : ctxView :=
  mkView (c_req c) (c_pathParam c) (c_matchPath c).

(** [for _, v := range s { if v == method { ... } }] *)
Fixpoint contains (s : list string) (method : string) : bool :=
  match s with
  | [] => false
  | v :: rest => if String.eqb v method then true else contains rest method
  end.

(** [for _, v := range node.Middlewares { if v == nil { panic(...) } }] *)
Fixpoint check_units {S} (units : list Func) : M S unit :=
  match units with
  | [] => ret tt
  | None :: _ => raise (PanicValue "middleware or handle of a node is nil")
  | Some _ :: rest => check_units rest
  end.

(** The body of a unit run against a context whose [Next] is [next]. *)
Fixpoint exec {S} (next : M S bool) (p : prog) : M S unit :=
  match p with
  | Done => ret tt
  | CallNext k => b <- next ;; exec next (k b)
  | Act a k => emit (RespAct a) ;; exec next k
  | Panic v => raise (PanicValue v)
  end.

(** A call [f(c)] of a func value. *)
Definition call_unit {S} (next : M S bool) (who : callee) (v : ctxView) (f : Func)
  : M S unit :=
  match f with
  | None => raise NilFuncCall
  | Some g => emit (Invoke who v) ;; exec next (g v)
  end.

Definition new_allowed (s : list string) (method : string) : allowedMethodsT :=
  let s' := sort_Strings (s ++ [method]) in
  mkAllowed s' (Join s' ",").

Section Engine.
Context `{Externals} {R : Type} `{Router routerValue R}.

Definition New : server R := mkServer [] (mkEngine router_New (mkAllowed [] "")).

(** [engine.Register] (part_000, lines 62-82 and 291-311).  The [append] of
    the first line is the only access to the store; the chain the router
    gets is the slice it returns. *)
Definition Register (node : Node) : M (server R) unit :=
  st <- get ;;
  let '(h1, mws) := append (store st) (Node_Middlewares node) [Node_Handler node] in
  put (mkServer h1 (eng st)) ;;
  check_units (slice_elems h1 mws) ;;
  emit (RouterRegister (Node_Method node) (Node_Path node) mws) ;;
  match router_Register (e_r (eng st)) (Node_Method node) (Node_Path node)
          (mkRouterValue mws (Node_Path node)) with
  | None => raise RouterPanic
  | Some r' =>
      let am := e_allowedMethods (eng st) in
      if contains (am_s am) (Node_Method node)
      then put (mkServer h1 (mkEngine r' am))
      else put (mkServer h1 (mkEngine r' (new_allowed (am_s am) (Node_Method node))))
  end.

(** [engine.RegisterGroup] (part_000, lines 84-90 and 313-319): the loop
    over the children.  The loop variable is a copy of the child, so the
    group's children themselves are not changed. *)
Fixpoint RegisterGroup_children (group : Group) (children : list Node)
  : M (server R) unit :=
  match children with
  | [] => ret tt
  | v :: rest =>
      st <- get ;;
      let '(h1, mws) :=
        append (store st) (Group_Middlewares group)
               (slice_elems (store st) (Node_Middlewares v)) in
      put (mkServer h1 (eng st)) ;;
      Register (mkNode (Node_Method v) (Group_RootPath group +:+ Node_Path v)
                       mws (Node_Handler v)) ;;
      RegisterGroup_children group rest
  end.

Definition RegisterGroup (group : Group) : M (server R) unit :=
  RegisterGroup_children group (Group_Children group).

(** [reqContext.Next] (part_000, lines 222-229 and 452-459), with a bound on
    the depth of nested calls: [c.curMW++] and [c.curMW-1] are 64-bit, and
    [c.middlewares[...]] is bounds-checked. *)
Fixpoint Next_fuel (h : heap) (fuel : nat) : M reqContext bool :=
  match fuel with
  | O => out_of_fuel
  | S n =>
      c <- get ;;
      if decide (c_curMW c >= Z.of_nat (s_len (c_middlewares c))) then ret false
      else
        put (set_curMW c (wrap_int (c_curMW c + 1))) ;;
        c1 <- get ;;
        let i := wrap_int (c_curMW c1 - 1) in
        match slice_index h (c_middlewares c1) i with
        | None => raise IndexOutOfRange
        | Some f =>
            call_unit (Next_fuel h n) (ChainUnit i) (view_of c1) f ;;
            ret true
        end
  end.

(** Every nested call moves the cursor, so the units that are left bound
    the depth. *)
Definition Next (h : heap) : M reqContext bool :=
  fun c =>
    Next_fuel h (S (Z.to_nat (Z.of_nat (s_len (c_middlewares c)) - c_curMW c))) c.

(** The path an empty path is rewritten to (lines 160 and 389). *)
Definition root_path (rev : revision) : string :=
  match rev with RevA => "/index" | RevB => "/" end.

Definition trace_match (rev : revision) (h : routerValue) (ps : list UrlParam)
  : M (server R) unit :=
  match rev with
  | RevA => ret tt
  | RevB => emit (LogTrace (TraceMatch (rv_matchPath h) ps))
  end.

(** [engine.ServeHTTP] (part_000, lines 100-194 and 329-424).  [logId] is
    what [logs.GenLogId()] returned for this request. *)
Definition ServeHTTP (rev : revision) (logId : string) (req : Request)
  : M (server R) unit :=
  defer (emit (HeaderSet LogIdContextKey logId) ;; emit (LogTrace TraceResp))
    (emit (LogTrace (TraceReq req)) ;;
     st <- get ;;
     let am := e_allowedMethods (eng st) in
     let path := url_Path (req_URL req) in
     if negb (contains (am_s am) (req_Method req)) then
       emit (HeaderSet "Allow" (am_str am)) ;;
       emit (HttpError StatusText_MethodNotAllowed StatusMethodNotAllowed)
     else if decide (path = "") then
       emit (HttpRedirect (req_URL (set_Path req (root_path rev)))
                          StatusPermanentRedirect)
     else
       emit (RouterLookup (req_Method req) path) ;;
       match router_Lookup (e_r (eng st)) (req_Method req) path with
       | (Some h, urlParams, _) =>
           defer_recover (fun err => emit (LogCritical err))
             (trace_match rev h urlParams ;;
              with_object
                (mkCtx req urlParams (rv_middlewares h) 0 (rv_matchPath h))
                (Next (store st)) ;;
              ret tt)
       | (None, _, false) => emit HttpNotFound
       | (None, _, true) =>
           match toggle_slash path with
           | None => raise IndexOutOfRange
           | Some path' =>
               emit (HttpRedirect (req_URL (set_Path req path'))
                                  StatusPermanentRedirect)
           end
       end).
End Engine.

(** ** The first engine, [server.go] *)

Module Legacy.

(** A [router.Handler] is a [func(resp, req, params)]: it has no context
    and therefore no [Next]. *)
Inductive hprog :=
| HDone
| HAct (a : action) (k : hprog)
| HPanic (v : string).

Definition Handler : Type := Request -> list UrlParam -> hprog.

Record engine (R : Type) := mkEngine {
  e_r : R;
  e_middlewares : list Func;     (* the linked list of [*middleware] *)
  e_allowedMethods : allowedMethodsT }.
Arguments mkEngine {R} _ _ _.
Arguments e_r {R} _.
Arguments e_middlewares {R} _.
Arguments e_allowedMethods {R} _.

(** [curMW] points into the engine's list: the nodes from it on; the nil
    pointer is the empty list.  The field [engine] is never read. *)
Record engineContext := mkCtx {
  c_req : Request;
  c_pathParam : list UrlParam;
  c_handler : Handler;
  c_curMW : list Func }.

Definition set_curMW (c : engineContext) (mw : list Func) : engineContext :=
  mkCtx (c_req c) (c_pathParam c) (c_handler c) mw.

(** [GetReq] and [GetParamParam]; this [Context] has no [GetMatchPath]. *)
Definition view_of (c : engineContext) : ctxView :=
  mkView (c_req c) (c_pathParam c) "".

Fixpoint exec_handler {S} (p : hprog) : M S unit :=
  match p with
  | HDone => ret tt
  | HAct a k => emit (RespAct a) ;; exec_handler k
  | HPanic v => raise (PanicValue v)
  end.

Section Engine.
Context `{Externals} {R : Type} `{Router (option Handler) R}.

Definition New : engine R := mkEngine router_New [] (mkAllowed [] "").

(** [engine.Register] (server.go, lines 43-53). *)
Definition Register (method path : string) (handle : option Handler)
  : M (engine R) unit :=
  e <- get ;;
  match router_Register (e_r e) method path handle with
  | None => raise RouterPanic
  | Some r' =>
      let am := e_allowedMethods e in
      if contains (am_s am) method
      then put (mkEngine r' (e_middlewares e) am)
      else put (mkEngine r' (e_middlewares e) (new_allowed (am_s am) method))
  end.

(** [engine.AppendMiddleware] (lines 127-137): a new node at the end of the
    list. *)
Definition AppendMiddleware (handler : Func) : M (engine R) unit :=
  e <- get ;;
  put (mkEngine (e_r e) (e_middlewares e ++ [handler]) (e_allowedMethods e)).

(** [engineContext.Next] (lines 161-169), with a bound on the depth of
    nested calls.  The cursor moves after the middleware has returned, and
    [c.curMW.next] is read from the cursor as it is then. *)
Fixpoint Next_fuel (fuel : nat) : M engineContext bool :=
  match fuel with
  | O => out_of_fuel
  | S n =>
      c <- get ;;
      match c_curMW c with
      | [] =>
          emit (Invoke RouteHandler (view_of c)) ;;
          exec_handler (c_handler c (c_req c) (c_pathParam c)) ;;
          ret false
      | mw :: rest =>
          call_unit (Next_fuel n) (Middleware (length rest)) (view_of c) mw ;;
          c2 <- get ;;
          match c_curMW c2 with
          | [] => raise NilDereference
          | _ :: next => put (set_curMW c2 next)
          end ;;
          ret true
      end
  end.

(** [engine.ServeHTTP] (lines 59-120). *)
Definition ServeHTTP (fuel : nat) (logId : string) (req : Request)
  : M (engine R) unit :=
  defer (emit (HeaderSet LogIdContextKey logId) ;; emit (LogTrace TraceResp))
    (emit (LogTrace (TraceReq req)) ;;
     e <- get ;;
     let am := e_allowedMethods e in
     let path := url_Path (req_URL req) in
     if negb (contains (am_s am) (req_Method req)) then
       emit (HeaderSet "Allow" (am_str am)) ;;
       emit (HttpError StatusText_MethodNotAllowed StatusMethodNotAllowed)
     else if decide (path = "") then
       emit (HttpRedirect (req_URL (set_Path req "/index"))
                          StatusPermanentRedirect)
     else
       emit (RouterLookup (req_Method req) path) ;;
       match router_Lookup (e_r e) (req_Method req) path with
       | (Some (Some handler), urlParams, _) =>
           defer_recover (fun err => emit (LogCritical err))
             (with_object (mkCtx req urlParams handler (e_middlewares e))
                          (Next_fuel fuel) ;;
              ret tt)
       | (_, _, false) => emit HttpNotFound
       | (_, _, true) =>
           match toggle_slash path with
           | None => raise IndexOutOfRange
           | Some path' =>
               emit (HttpRedirect (req_URL (set_Path req path'))
                                  StatusPermanentRedirect)
           end
       end).
End Engine.
End Legacy.

(** * What the claims speak about *)

(** The outcome, the final state and the trace of a run. *)
Definition outcome_of {S A} (r : outcome A * S * list event) : outcome A := r.1.1.
Definition state_of {S A} (r : outcome A * S * list event) : S := r.1.2.
Definition trace_of {S A} (r : outcome A * S * list event) : list event := r.2.
Arguments outcome_of {S A} !r /.
Arguments state_of {S A} !r /.
Arguments trace_of {S A} !r /.

(** What a run may end with when everything that can go wrong is a unit's
    own doing. *)
Definition unit_panic (p : panic) : Prop :=
  match p with
  | PanicValue _ | NilFuncCall => True
  | _ => False
  end.

(** A run that came to an end, with a panic of [G] if with a panic. *)
Definition ended {A} (G : panic -> Prop) (o : outcome A) : Prop :=
  match o with
  | Returned _ => True
  | Panicking p => G p
  | OutOfFuel => False
  end.

Definition sound {A} (o : outcome A) : Prop := ended unit_panic o.

(** The panics a chain of [units] can end with: one raised by a unit, or
    the call of a nil unit when there is one. *)
Definition chain_panic (units : list Func) (p : panic) : Prop :=
  match p with
  | PanicValue _ => True
  | NilFuncCall => None ∈ units
  | _ => False
  end.

(** What a run keeps: the state stays in [I], the trace holds events of [T]
    only, and the run ends, with a panic of [G] if with a panic. *)
Definition kept {S A} (I : S -> Prop) (T : event -> Prop) (G : panic -> Prop)
    (r : outcome A * S * list event) : Prop :=
  I (state_of r) /\ Forall T (trace_of r) /\ ended G (outcome_of r).

Definition chain_len (c : reqContext) : Z := Z.of_nat (s_len (c_middlewares c)).

(** [c] is the context [c0] with its cursor somewhere in [lo .. len]. *)
Definition between (c0 : reqContext) (lo : Z) (c : reqContext) : Prop :=
  set_curMW c 0 = set_curMW c0 0 /\ lo <= c_curMW c <= chain_len c0.

(** Chain execution only calls units of the chain and lets them act. *)
Definition unit_event (len : Z) (e : event) : Prop :=
  match e with
  | Invoke (ChainUnit i) _ => 0 <= i < len
  | RespAct _ => True
  | _ => False
  end.

Definition call_event (e : event) : Prop :=
  match e with Invoke _ _ | RespAct _ => True | _ => False end.

Definition is_act (e : event) : Prop :=
  match e with RespAct _ => True | _ => False end.

Definition is_critical (e : event) : bool :=
  match e with LogCritical _ => true | _ => false end.

(** Events of a run that neither asks the router nor calls a unit. *)
Definition quiet (e : event) : Prop :=
  match e with
  | RouterLookup _ _ | RouterRegister _ _ _ | Invoke _ _ => False
  | _ => True
  end.

(** Whether the body of a unit reaches a call of [Next]. *)
Fixpoint calls_Next (p : prog) : bool :=
  match p with
  | Done => false
  | CallNext _ => true
  | Act _ k => calls_Next k
  | Panic _ => false
  end.

(** A middleware at the cursor whose body reaches a call of [Next]. *)
Definition reentrant (c : Legacy.engineContext) : bool :=
  match Legacy.c_curMW c with
  | Some g :: _ => calls_Next (g (Legacy.view_of c))
  | _ => false
  end.

(** The bounds of a slice header inside its array. *)
Definition slice_in_store (h : heap) (s : slice) : Prop :=
  (s_len s <= s_cap s)%nat /\ (s_off s + s_cap s <= length (array_of h s))%nat.

(** Every array of [h] is still the same array in [h']. *)
Definition heap_extends (h h' : heap) : Prop :=
  forall i, (i < length h)%nat -> h' !! i = h !! i.

Definition not_nil (f : Func) : bool :=
  match f with Some _ => true | None => false end.

Definition nil_unit_panic : panic :=
  PanicValue "middleware or handle of a node is nil".

Definition am_inv (am : allowedMethodsT) : Prop :=
  StronglySorted String.le (am_s am) /\
  NoDup (am_s am) /\
  am_str am = Join (am_s am) ",".

(** The calls a program makes while it sets the engine up; in between it
    may do to the store what it likes. *)
Inductive setup :=
| CallRegister (node : Node)
| CallRegisterGroup (group : Group)
| UserStore (h : heap).

Inductive legacy_setup :=
| LegacyRegister (method path : string) (handle : option Legacy.Handler)
| LegacyAppendMiddleware (handler : Func).

(** The context [ServeHTTP] builds for a route. *)
Definition dispatch_ctx (req : Request) (v : routerValue) (ps : list UrlParam)
  : reqContext :=
  mkCtx req ps (rv_middlewares v) 0 (rv_matchPath v).

Definition match_events (rev : revision) (v : routerValue) (ps : list UrlParam)
  : list event :=
  match rev with
  | RevA => []
  | RevB => [LogTrace (TraceMatch (rv_matchPath v) ps)]
  end.

(** What the recovering deferred function adds to the trace. *)
Definition recovered {A} (o : outcome A) : list event :=
  match o with
  | Panicking p => [LogCritical p]
  | _ => []
  end.

Definition opening (req : Request) : list event := [LogTrace (TraceReq req)].

Definition closing `{Externals} (logId : string) : list event :=
  [HeaderSet LogIdContextKey logId; LogTrace TraceResp].

Section Vocabulary.
Context `{Externals} {R : Type} `{Router routerValue R}.
Context {R' : Type} `{Router (option Legacy.Handler) R'}.

Definition allowed_of (st : server R) : allowedMethodsT := e_allowedMethods (eng st).

Definition step (st : server R) (c : setup) : server R :=
  match c with
  | CallRegister node => state_of (Register node st)
  | CallRegisterGroup group => state_of (RegisterGroup group st)
  | UserStore h => mkServer h (eng st)
  end.

Definition legacy_step (e : Legacy.engine R') (c : legacy_setup) : Legacy.engine R' :=
  match c with
  | LegacyRegister method path handle => state_of (Legacy.Register method path handle e)
  | LegacyAppendMiddleware handler => state_of (Legacy.AppendMiddleware handler e)
  end.

Definition allows (st : server R) (req : Request) : Prop :=
  req_Method req ∈ am_s (allowed_of st).

Definition lookup_of (st : server R) (req : Request)
  : option routerValue * list UrlParam * bool :=
  router_Lookup (e_r (eng st)) (req_Method req) (url_Path (req_URL req)).

(** The chain the router hands out for the request is a slice of the
    store. *)
Definition chain_wf (st : server R) (req : Request) : Prop :=
  forall v ps b, lookup_of st req = (Some v, ps, b) ->
                 slice_wf (store st) (rv_middlewares v).

Definition legacy_allows (e : Legacy.engine R') (req : Request) : Prop :=
  req_Method req ∈ am_s (Legacy.e_allowedMethods e).

Definition legacy_lookup (e : Legacy.engine R') (req : Request)
  : option (option Legacy.Handler) * list UrlParam * bool :=
  router_Lookup (Legacy.e_r e) (req_Method req) (url_Path (req_URL req)).

(** The context [ServeHTTP] builds when the router has a handler. *)
Definition legacy_ctx (e : Legacy.engine R') (req : Request)
  : option Legacy.engineContext :=
  match legacy_lookup e req with
  | (Some (Some handler), ps, _) =>
      Some (Legacy.mkCtx req ps handler (Legacy.e_middlewares e))
  | _ => None
  end.

(** The requests on which the first engine never answers. *)
Definition legacy_diverges (e : Legacy.engine R') (req : Request) : Prop :=
  legacy_allows e req /\ url_Path (req_URL req) <> "" /\
  exists c, legacy_ctx e req = Some c /\ reentrant c = true.

(** The chain a request for (method, path) would run: the units the route's
    slice reads in the store. *)
Definition route_chain (st : server R) (method path : string) : option (list Func) :=
  match router_Lookup (e_r (eng st)) method path with
  | (Some v, _, _) => Some (slice_elems (store st) (rv_middlewares v))
  | _ => None
  end.

(** The node [RegisterGroup] hands to [Register] for a child. *)
Definition child_node (group : Group) (v : Node) (mws : slice) : Node :=
  mkNode (Node_Method v) (Group_RootPath group +:+ Node_Path v) mws (Node_Handler v).

(** The event [e] is the registration of the child [v] of [group], and in
    the store [h] its chain reads: the group's middleware, the child's own
    middleware, the child's handler (as they were in [h0]). *)
Definition registered_as (h h0 : heap) (group : Group) (v : Node) (e : event) : Prop :=
  exists mws,
    e = RouterRegister (Node_Method v) (Group_RootPath group +:+ Node_Path v) mws /\
    slice_elems h mws =
      slice_elems h0 (Group_Middlewares group) ++
      slice_elems h0 (Node_Middlewares v) ++ [Node_Handler v].

End Vocabulary.

(** ** A table router and sample units, to run the engine on examples *)


(** Modelled from the spec: the router ([github.com/58kg/router]) is not
    among the sources.  A table of routes that answers a lookup as section
    4.1 describes its three-way result: the value of the exact (method,
    path) entry; otherwise the redirect signal when the path with its
    trailing slash toggled has an entry; otherwise nothing.  Paths are
    static, so there are no parameters.  The engine itself is defined and
    verified over any [Router]; the table serves the examples. *)
Definition table (V : Type) : Type := list (string * string * V).

Fixpoint table_find {V} (t : table V) (method path : string) : option V :=
  match t with
  | [] => None
  | (m, p, v) :: rest =>
      if String.eqb m method && String.eqb p path then Some v
      else table_find rest method path
  end.

Definition table_lookup {V} (t : table V) (method path : string)
  : option V * list UrlParam * bool :=
  match table_find t method path with
  | Some v => (Some v, [], false)
  | None =>
      match table_find t method (default "/" (toggle_slash path)) with
      | Some _ => (None, [], true)
      | None => (None, [], false)
      end
  end.

#[global] Instance table_router (V : Type) : Router V (table V) := {|
  router_New := [];
  router_Register t method path v := Some (t ++ [(method, path, v)]);
  router_Lookup := table_lookup |}.

(** A growth policy and a header name for the examples. *)
#[global] Instance sample_externals : Externals := {|
  growslice c _ := (2 * c)%nat;
  LogIdContextKey := "X-Log-Id" |}.

(** A unit that writes its name, calls [Next] and returns. *)
Definition passing (name : string) : HandlerFunc :=
  fun _ => Act (Write name) (CallNext (fun _ => Done)).

(** A unit that writes its name and returns. *)
Definition final (name : string) : HandlerFunc :=
  fun _ => Act (Write name) Done.

(** A unit that panics. *)
Definition faulty (name : string) : HandlerFunc :=
  fun _ => Panic name.

Definition GET (path : string) : Request := mkRequest "GET" (mkURL path "").

(** A group whose middleware slice [[L]] has room left in its array, with
    two children. *)
Definition shared_store : heap :=
  [ [Some (passing "L"); None; None; None];
    [Some (passing "M1")];
    [Some (passing "M2")] ].

Definition api_group : Group :=
  mkGroup "/api" (mkSlice 0 0 1 4)
    [ mkNode "GET" "/users" (mkSlice 1 0 1 1) (Some (final "H1"));
      mkNode "GET" "/posts" (mkSlice 2 0 1 1) (Some (final "H2")) ].

Definition api_server : server (table routerValue) :=
  state_of (RegisterGroup api_group (mkServer shared_store (eng New))).

Definition writes (t : list event) : list string :=
  omap (fun e => match e with RespAct (Write s) => Some s | _ => None end) t.

Definition end_ctx : Legacy.engineContext :=
  Legacy.mkCtx (GET "/x") [] (fun _ _ => Legacy.HAct (Write "H") Legacy.HDone) [].

Definition sample_ctx : reqContext :=
  mkCtx (GET "/users") [] (mkSlice 1 0 1 1) 0 "/users".

(** A middleware slice [[L]] with room for one more unit, used by two
    nodes. *)
Definition common_store : heap := [ [Some (passing "L"); None] ].

Definition common : slice := mkSlice 0 0 1 2.

Definition server_a : server (table routerValue) :=
  state_of (Register (mkNode "GET" "/a" common (Some (final "HA")))
                     (mkServer common_store (eng New))).

Definition nil_node : Node := mkNode "GET" "/b" common None.

Definition legacy_handler (name : string) : Legacy.Handler :=
  fun _ _ => Legacy.HAct (Write name) Legacy.HDone.

Definition legacy_server : Legacy.engine (table (option Legacy.Handler)) :=
  foldl legacy_step Legacy.New
    [ LegacyAppendMiddleware (Some (final "A"));
      LegacyRegister "GET" "/api/users" (Some (legacy_handler "H"));
      LegacyRegister "GET" "/boom" (Some (fun _ _ => Legacy.HPanic "boom")) ].

(** A server with a route whose handler panics and a route that ends in a
    slash. *)
Definition boom_store : heap := [ [Some (passing "L")] ].

Definition boom_server : server (table routerValue) :=
  foldl step (mkServer boom_store (eng New))
    [ CallRegister (mkNode "GET" "/boom" (mkSlice 0 0 1 1) (Some (faulty "boom")));
      CallRegister (mkNode "GET" "/a/" nil_slice (Some (final "HA"))) ].

Definition PUT (path : string) : Request := mkRequest "PUT" (mkURL path "").

(** * The rest of the package *)

(** ** Reading a trace *)

(** The indices of the chain units a trace calls, in the order of the
    calls. *)
Definition invoked (t : list event) : list Z :=
  omap (fun e => match e with Invoke (ChainUnit i) _ => Some i | _ => None end) t.

(** What the getters of the context returned at each call of a trace. *)
Definition views (t : list event) : list ctxView :=
  omap (fun e => match e with Invoke _ v => Some v | _ => None end) t.

(** What the units of a trace did to the response, in order. *)
Definition actions (t : list event) : list action :=
  omap (fun e => match e with RespAct a => Some a | _ => None end) t.

Arguments invoked : simpl never.
Arguments views : simpl never.
Arguments actions : simpl never.

(** The answers [ServeHTTP] writes itself. *)
Definition is_answer (e : event) : bool :=
  match e with
  | HttpError _ _ | HttpNotFound | HttpRedirect _ _ => true
  | _ => false
  end.

(** The trace record that only the second file of part_000 writes (line
    402). *)
Definition is_match_record (e : event) : bool :=
  match e with
  | LogTrace (TraceMatch _ _) => true
  | _ => false
  end.

(** Every call of the trace is a call of [f] with the view [v]. *)
Definition only_calls (f : callee) (v : ctxView) (e : event) : Prop :=
  match e with
  | Invoke g w => g = f /\ w = v
  | _ => True
  end.

(** ** The head of the response

    [net/http] sends the status line and the header fields of a response
    once, when the handler first writes to it: at [WriteHeader] with a
    final status, at the first [Write], and inside [http.Error],
    [http.NotFound] and [http.Redirect], which call [WriteHeader]
    themselves.  From then on [resp.Header().Set] changes the map it is
    given and nothing of what the client receives.  This is the contract
    of [http.ResponseWriter]; [net/http] is not part of the package. *)

(** The event writes the head of the response for certain.  A
    [WriteHeader] with a status below 200 or above 999 is left out: the
    first is informational and the second makes [net/http] panic. *)
Definition writes_head (e : event) : bool :=
  match e with
  | HttpError _ _ | HttpNotFound | HttpRedirect _ _ => true
  | RespAct (Write _) => true
  | RespAct (WriteHeader code) => bool_decide (200 <= code <= 999)
  | _ => false
  end.

(** The event writes nothing to the response: it is no event of the
    response, or it only changes the header map. *)
Definition keeps_head_open (e : event) : bool :=
  match e with
  | HttpError _ _ | HttpNotFound | HttpRedirect _ _ => false
  | RespAct (Write _) | RespAct (WriteHeader _) => false
  | _ => true
  end.

Definition head_written (t : list event) : bool := existsb writes_head t.

(** What is done before the head is written: the part of a trace whose
    changes of the header map are in time to reach the client. *)
Fixpoint in_head (t : list event) : list event :=
  match t with
  | [] => []
  | e :: t' => if writes_head e then [] else e :: in_head t'
  end.

(** [ServeHTTP]'s call [resp.Header().Set(k, v)] comes before the head is
    written: the header is part of the response. *)
Definition header_sent (k v : string) (t : list event) : Prop :=
  HeaderSet k v ∈ in_head t.

(** ** Bodies of units *)

(** What a body does to the response before it first calls [Next], returns
    or panics, and how it ends when it does not call [Next]. *)
Fixpoint own_acts (p : prog) : list action :=
  match p with
  | Act a k => a :: own_acts k
  | _ => []
  end.

Fixpoint own_end (p : prog) : outcome unit :=
  match p with
  | Act _ k => own_end k
  | Panic v => Panicking (PanicValue v)
  | _ => Returned tt
  end.

(** The same for a [router.Handler] of the first engine. *)
Fixpoint handler_acts (p : Legacy.hprog) : list action :=
  match p with
  | Legacy.HAct a k => a :: handler_acts k
  | _ => []
  end.

Fixpoint handler_end (p : Legacy.hprog) : outcome unit :=
  match p with
  | Legacy.HAct _ k => handler_end k
  | Legacy.HPanic v => Panicking (PanicValue v)
  | Legacy.HDone => Returned tt
  end.

(** How [reqContext.Next] ends after the unit it called has ended. *)
Definition after_unit (o : outcome unit) : outcome bool :=
  match o with
  | Returned _ => Returned true
  | Panicking q => Panicking q
  | OutOfFuel => OutOfFuel
  end.

Fixpoint acts (l : list action) (k : prog) : prog :=
  match l with
  | [] => k
  | a :: rest => Act a (acts rest k)
  end.

(** A middleware of the usual shape: it acts on the response, calls [Next]
    once, acts again (it may look at what [Next] returned) and returns. *)
Record wrapper := mkWrapper {
  w_before : ctxView -> list action;
  w_after : ctxView -> bool -> list action }.

Definition wrap (w : wrapper) : HandlerFunc :=
  fun v => acts (w_before w v) (CallNext (fun b => acts (w_after w v b) Done)).

(** The trace of a chain of wrappers [ws] around a last unit [hf] that does
    not call [Next], the first of them at index [i]: every unit is called
    inside the one before it, and the parts after [Next] run, innermost
    first, when [hf] has returned. *)
Fixpoint onion (v : ctxView) (i : Z) (ws : list wrapper) (hf : HandlerFunc)
  : list event :=
  match ws with
  | [] => Invoke (ChainUnit i) v :: (RespAct <$> own_acts (hf v))
  | w :: rest =>
      Invoke (ChainUnit i) v :: (RespAct <$> w_before w v) ++
      onion v (i + 1) rest hf ++
      match own_end (hf v) with
      | Returned _ => RespAct <$> w_after w v true
      | _ => []
      end
  end.

(** ** Runs of a chain *)

(** The index of the nil unit a run ended on, if it ended on one: [Next]
    has moved the cursor past it, but there was nothing to call. *)
Definition nil_call {A} (o : outcome A) (i : Z) : list Z :=
  match o with
  | Panicking NilFuncCall => [i]
  | _ => []
  end.

(** A run that starts in [c], a state of the request of [c0]: it moves the
    cursor forward, the units it calls are those the cursor passes, in
    order, and each of them is given the view of [c0]. *)
Definition in_order (c0 c : reqContext) {A} (r : outcome A * reqContext * list event)
  : Prop :=
  between c0 (c_curMW c) (state_of r) /\
  invoked (trace_of r) ++ nil_call (outcome_of r) (c_curMW (state_of r) - 1) =
    seqZ (c_curMW c) (c_curMW (state_of r) - c_curMW c) /\
  Forall (eq (view_of c0)) (views (trace_of r)).

(** ** Routes, branches and setup *)

Section Routes.
Context `{Externals} {R : Type} `{Router routerValue R}.

(** The request passes the method gate, has a path, and the router answers
    it with the route [v] and the parameters [ps]; the chain of [v] is a
    slice of the store that reads [units]. *)
Definition routed (st : server R) (req : Request) (v : routerValue)
    (ps : list UrlParam) (units : list Func) : Prop :=
  allows st req /\ url_Path (req_URL req) <> "" /\
  (exists b, lookup_of st req = (Some v, ps, b)) /\
  slice_wf (store st) (rv_middlewares v) /\
  slice_elems (store st) (rv_middlewares v) = units.

(** The trace of [ServeHTTP] for a routed request whose chain left the
    trace [t] and ended with [o]. *)
Definition served {A} (rev : revision) (logId : string) (req : Request)
    (v : routerValue) (ps : list UrlParam) (o : outcome A) (t : list event)
  : list event :=
  opening req ++ [RouterLookup (req_Method req) (url_Path (req_URL req))] ++
  match_events rev v ps ++ t ++ recovered o ++ closing logId.

Definition matched (st : server R) (req : Request) : Prop :=
  allows st req /\ url_Path (req_URL req) <> "" /\
  exists v ps b, lookup_of st req = (Some v, ps, b).

(** What [ServeHTTP] does between its first trace record and its deferred
    function, on each of its five ways through the code. *)
Inductive branch_of (rev : revision) (st : server R) (req : Request)
  : list event -> Prop :=
| br_not_allowed :
    ~ allows st req ->
    branch_of rev st req
      [HeaderSet "Allow" (am_str (allowed_of st));
       HttpError StatusText_MethodNotAllowed StatusMethodNotAllowed]
| br_empty_path :
    allows st req -> url_Path (req_URL req) = "" ->
    branch_of rev st req
      [HttpRedirect (req_URL (set_Path req (root_path rev))) StatusPermanentRedirect]
| br_not_found ps :
    allows st req -> url_Path (req_URL req) <> "" ->
    lookup_of st req = (None, ps, false) ->
    branch_of rev st req
      [RouterLookup (req_Method req) (url_Path (req_URL req)); HttpNotFound]
| br_redirect ps path' :
    allows st req -> url_Path (req_URL req) <> "" ->
    lookup_of st req = (None, ps, true) ->
    toggle_slash (url_Path (req_URL req)) = Some path' ->
    branch_of rev st req
      [RouterLookup (req_Method req) (url_Path (req_URL req));
       HttpRedirect (req_URL (set_Path req path')) StatusPermanentRedirect]
| br_chain v ps b o c t :
    allows st req -> url_Path (req_URL req) <> "" ->
    lookup_of st req = (Some v, ps, b) ->
    Next (store st) (dispatch_ctx req v ps) = (o, c, t) ->
    Forall call_event t ->
    branch_of rev st req
      ([RouterLookup (req_Method req) (url_Path (req_URL req))] ++
       match_events rev v ps ++ t ++ recovered o).
End Routes.

(** The cell [j] of the array [i] of the store. *)
Definition cell (h : heap) (i j : nat) : option Func :=
  h !! i ≫= fun a => a !! j.

(** The methods a setup call asks to register. *)
Definition methods_of (c : setup) : list string :=
  match c with
  | CallRegister node => [Node_Method node]
  | CallRegisterGroup group => Node_Method <$> Group_Children group
  | UserStore _ => []
  end.

(** The middlewares a setup of the first engine appends, in order. *)
Definition appended (lcalls : list legacy_setup) : list Func :=
  omap (fun c => match c with
                 | LegacyAppendMiddleware handler => Some handler
                 | LegacyRegister _ _ _ => None
                 end) lcalls.

Definition is_registration (c : legacy_setup) : bool :=
  match c with
  | LegacyRegister _ _ _ => true
  | LegacyAppendMiddleware _ => false
  end.

(** ** More sample servers *)

(** A wrapper that writes its name before and after [Next]. *)
Definition tagging (name : string) : wrapper :=
  mkWrapper (fun _ => [Write (name +:+ "<")]) (fun _ _ => [Write (">" +:+ name)]).

(** Two middleware slices without spare capacity: two wrappers, and a unit
    that does not call [Next] in front of a wrapper. *)
Definition onion_store : heap :=
  [ [Some (wrap (tagging "A")); Some (wrap (tagging "B"))];
    [Some (final "S"); Some (wrap (tagging "B"))] ].

Definition onion_server : server (table routerValue) :=
  foldl step (mkServer onion_store (eng New))
    [ CallRegister (mkNode "GET" "/o" (mkSlice 0 0 2 2) (Some (final "H")));
      CallRegister (mkNode "GET" "/p" (mkSlice 0 0 2 2) (Some (faulty "boom")));
      CallRegister (mkNode "GET" "/s" (mkSlice 1 0 2 2) (Some (final "H"))) ].

(** The routes of [onion_server], as the router holds them. *)
Definition route_o : routerValue := mkRouterValue (mkSlice 2 0 3 4) "/o".
Definition route_p : routerValue := mkRouterValue (mkSlice 3 0 3 4) "/p".
Definition route_s : routerValue := mkRouterValue (mkSlice 4 0 3 4) "/s".

(** The first engine without a middleware. *)
Definition legacy_plain : Legacy.engine (table (option Legacy.Handler)) :=
  foldl legacy_step Legacy.New
    [ LegacyRegister "GET" "/api/users" (Some (legacy_handler "H")) ].

(** The first engine with a middleware that calls [Next]. *)
Definition legacy_looping : Legacy.engine (table (option Legacy.Handler)) :=
  foldl legacy_step Legacy.New
    [ LegacyAppendMiddleware (Some (passing "A"));
      LegacyRegister "GET" "/api/users" (Some (legacy_handler "H")) ].

(** A child without a handler, between the two children of [api_group]. *)
Definition bad_child : Node := mkNode "GET" "/bad" nil_slice None.

(** The group of [api_group] with a middleware slice that is full: length
    and capacity 1. *)
Definition tight_group : Group :=
  mkGroup "/api" (mkSlice 0 0 1 1) (Group_Children api_group).

(** A second table router, one that refuses registrations: an empty method,
    a path that does not start with a slash, and a (method, path) that has a
    route already.  It answers lookups like the table. *)
Record strict (V : Type) := Strict { strict_routes : table V }.
Arguments Strict {V} _.
Arguments strict_routes {V} _.

Definition strict_Register {V} (t : strict V) (method path : string) (v : V)
  : option (strict V) :=
  if decide (method = "") then None
  else if negb (String.prefix "/" path) then None
  else match table_find (strict_routes t) method path with
       | Some _ => None
       | None => Some (Strict (strict_routes t ++ [(method, path, v)]))
       end.

#[global] Instance strict_router (V : Type) : Router V (strict V) := {|
  router_New := Strict [];
  router_Register := strict_Register;
  router_Lookup t := table_lookup (strict_routes t) |}.

(** A new engine over the strict router, with the store of [api_group]. *)
Definition strict_server : server (strict routerValue) :=
  mkServer shared_store (eng New).

(** Two setups that register the same methods in different orders. *)
Definition get_then_post : list setup :=
  [ CallRegister (mkNode "GET" "/a" nil_slice (Some (final "A")));
    CallRegister (mkNode "POST" "/b" nil_slice (Some (final "B"))) ].

Definition post_then_get : list setup :=
  [ CallRegister (mkNode "POST" "/b" nil_slice (Some (final "B")));
    CallRegister (mkNode "GET" "/a" nil_slice (Some (final "A")));
    CallRegister (mkNode "GET" "/c" nil_slice (Some (final "C"))) ].

(** * Verification *)

(** ** Integers, strings and the monad *)

Lemma wrap_int_small (z : Z) : - 2 ^ 63 <= z < 2 ^ 63 -> wrap_int z = z.
Proof.
  intros Hz. unfold wrap_int.
  rewrite Z.mod_small by lia. lia.
Qed.

Lemma contains_elem_of (s : list string) (method : string) :
  contains s method = true <-> method ∈ s.
Proof.
  induction s as [|v rest IH]; simpl.
  - split; [discriminate | by intros ?%elem_of_nil].
  - destruct (String.eqb_spec v method) as [->|Hne].
    + split; [intros _; left | done].
    + rewrite IH. split; [by right | ].
      intros [?|?]%elem_of_cons; [congruence | done].
Qed.

Lemma contains_false (s : list string) (method : string) :
  contains s method = false <-> method ∉ s.
Proof.
  rewrite <- contains_elem_of. destruct (contains s method); split; congruence.
Qed.

Section ExecFacts.
Context {S : Type} (I : S -> Prop) (T : event -> Prop) (G : panic -> Prop).
Hypothesis T_act : forall a, T (RespAct a).
Hypothesis G_value : forall v, G (PanicValue v).

(** A unit body keeps what every call of [Next] keeps, and it only sees
    [Next] on states of the invariant. *)
Lemma exec_kept (next next' : M S bool) :
  (forall s, I s -> next' s = next s /\ kept I T G (next s)) ->
  forall p s, I s -> exec next' p s = exec next p s /\ kept I T G (exec next p s).
Proof.
  intros Hnext p. induction p as [|k IH|a k IH|v]; intros s Hs; simpl.
  - split; [done|]. by repeat split.
  - unfold bind. destruct (Hnext s Hs) as [-> (HI & HT & Ho)].
    destruct (next s) as [[o s1] t1]; simpl in *.
    destruct o as [b|q|]; [|by repeat split|done].
    destruct (IH b s1 HI) as [-> (HI2 & HT2 & Ho2)].
    destruct (exec next (k b) s1) as [[o2 s2] t2]; simpl in *.
    split; [done|]. repeat split; [done| |done].
    by apply Forall_app.
  - unfold bind, emit. destruct (IH s Hs) as [-> (HI2 & HT2 & Ho2)].
    destruct (exec next k s) as [[o2 s2] t2]; simpl in *.
    split; [done|]. repeat split; [done| |done].
    constructor; [apply T_act | done].
  - split; [done|]. repeat split; [done | constructor | apply G_value].
Qed.
End ExecFacts.

Lemma ended_weaken {A} (G G' : panic -> Prop) (o : outcome A) :
  (forall p, G p -> G' p) -> ended G o -> ended G' o.
Proof. intros HG. destruct o; simpl; auto. Qed.

Lemma chain_panic_unit units p : chain_panic units p -> unit_panic p.
Proof. by destruct p. Qed.

Lemma slice_index_elem h s i f :
  slice_index h s i = Some f -> f ∈ slice_elems h s.
Proof.
  unfold slice_index, slice_elems. destruct (decide _) as [Hi|]; [|done].
  intros Hf. apply list_elem_of_lookup. exists (Z.to_nat i).
  rewrite lookup_take_lt by lia. by rewrite lookup_drop.
Qed.

(** ** The cursor of a request context *)

Lemma between_weaken c0 lo lo' c : lo' <= lo -> between c0 lo c -> between c0 lo' c.
Proof. unfold between. intros ? [? ?]. split; [done | lia]. Qed.

Lemma between_fields c0 lo c :
  between c0 lo c -> c_middlewares c = c_middlewares c0 /\ chain_len c = chain_len c0.
Proof.
  intros [Heq _]. unfold chain_len.
  assert (c_middlewares c = c_middlewares c0) as ->; [|done].
  by injection Heq.
Qed.

Lemma slice_index_wf h s i :
  slice_wf h s -> 0 <= i < Z.of_nat (s_len s) -> is_Some (slice_index h s i).
Proof.
  intros (Hlen & Harr & _) Hi. unfold slice_index.
  rewrite decide_True by done. apply lookup_lt_is_Some. lia.
Qed.

Lemma Next_fuel_S h n c :
  Next_fuel h (S n) c =
  if decide (c_curMW c >= chain_len c) then (Returned false, c, [])
  else
    let c1 := set_curMW c (wrap_int (c_curMW c + 1)) in
    let i := wrap_int (c_curMW c1 - 1) in
    match slice_index h (c_middlewares c1) i with
    | None => (Panicking IndexOutOfRange, c1, [])
    | Some f => (call_unit (Next_fuel h n) (ChainUnit i) (view_of c1) f ;; ret true) c1
    end.
Proof.
  simpl. unfold bind at 1. unfold get at 1. unfold chain_len.
  destruct (decide _); [done|].
  unfold bind at 1. unfold put at 1. unfold bind at 1. unfold get at 1.
  simpl. destruct (slice_index _ _ _); [|done].
  by destruct (bind _ _ _) as [[[]] ?].
Qed.

Ltac kept_tac :=
  unfold kept, between, state_of, trace_of, outcome_of in *; simpl in *;
  intuition (try lia; try done; try by constructor).

Lemma Next_fuel_kept h c0 :
  slice_wf h (c_middlewares c0) ->
  forall n c,
    between c0 0 c ->
    chain_len c0 - c_curMW c < Z.of_nat n ->
    kept (between c0 (c_curMW c)) (unit_event (chain_len c0))
         (chain_panic (slice_elems h (c_middlewares c0))) (Next_fuel h n c) /\
    forall m, (n <= m)%nat -> Next_fuel h m c = Next_fuel h n c.
Proof.
  intros Hwf n. induction n as [|n IH]; intros c Hc Hfuel.
  { destruct Hc as [_ ?]. lia. }
  destruct (between_fields _ _ _ Hc) as [Hmw Hlen].
  assert (forall m, Next_fuel h (S m) c =
    if decide (c_curMW c >= chain_len c0) then (Returned false, c, [])
    else
      let c1 := set_curMW c (c_curMW c + 1) in
      match slice_index h (c_middlewares c0) (c_curMW c) with
      | None => (Panicking IndexOutOfRange, c1, [])
      | Some f =>
          (call_unit (Next_fuel h m) (ChainUnit (c_curMW c)) (view_of c1) f ;;
           ret true) c1
      end) as Hstep.
  { intros m. rewrite Next_fuel_S, Hlen. destruct (decide _); [done|].
    destruct Hc as [_ Hc], Hwf as (? & ? & ?). unfold chain_len, max_int in *.
    cbn zeta. rewrite (wrap_int_small (c_curMW c + 1)) by lia.
    simpl. rewrite Hmw.
    replace (c_curMW c + 1 - 1) with (c_curMW c) by lia.
    by rewrite wrap_int_small by lia. }
  rewrite Hstep. destruct (decide (c_curMW c >= chain_len c0)) as [Hend|Hmore].
  { split; [|intros [|m] ?; [lia | done]].
    kept_tac. }
  assert (Hin : 0 <= c_curMW c < chain_len c0) by (destruct Hc as [_ ?]; lia).
  destruct (slice_index_wf h _ _ Hwf Hin) as [f Hf]. rewrite Hf in *. cbn zeta in *.
  set (c1 := set_curMW c (c_curMW c + 1)) in *.
  assert (Hc1 : between c0 (c_curMW c + 1) c1).
  { destruct Hc as [Heq ?]. split; [|simpl; lia]. by rewrite <- Heq. }
  destruct f as [g|]; cycle 1.
  { pose proof (slice_index_elem _ _ _ _ Hf) as Hnil.
    split; [|intros [|m] ?; [lia | by rewrite Hstep]].
    unfold call_unit, bind, raise. kept_tac. }
  assert (forall m, (n <= m)%nat -> forall s, between c0 (c_curMW c + 1) s ->
    Next_fuel h m s = Next_fuel h n s /\
    kept (between c0 (c_curMW c + 1)) (unit_event (chain_len c0))
         (chain_panic (slice_elems h (c_middlewares c0))) (Next_fuel h n s))
    as Hnext.
  { intros m Hm s Hs.
    destruct (IH s) as [(HI & HT & Ho) Heq].
    - eapply between_weaken; [|done]. lia.
    - destruct Hs as [_ ?]. lia.
    - split; [by apply Heq|]. split; [|done].
      eapply between_weaken; [|done]. destruct Hs as [_ ?]. lia. }
  assert (forall m, (n <= m)%nat ->
    kept (between c0 (c_curMW c + 1)) (unit_event (chain_len c0))
         (chain_panic (slice_elems h (c_middlewares c0)))
         (exec (Next_fuel h n) (g (view_of c1)) c1) /\
    exec (Next_fuel h m) (g (view_of c1)) c1 =
    exec (Next_fuel h n) (g (view_of c1)) c1) as Hexec.
  { intros m Hm.
    destruct (exec_kept (between c0 (c_curMW c + 1)) (unit_event (chain_len c0))
                (chain_panic (slice_elems h (c_middlewares c0)))
                (fun _ => I) (fun _ => I) (Next_fuel h n) (Next_fuel h m) (Hnext m Hm)
                (g (view_of c1)) c1 Hc1) as [? ?]. done. }
  split.
  - destruct (Hexec n (le_n n)) as [(HI & HT & Ho) _].
    unfold call_unit, bind, emit, ret.
    destruct (exec (Next_fuel h n) (g (view_of c1)) c1) as [[o s] t]; simpl in *.
    assert (Forall (unit_event (chain_len c0))
              (Invoke (ChainUnit (c_curMW c)) (view_of c1) :: t)) by by constructor.
    destruct o as [[]|p|]; simpl in *; [|kept_tac|done].
    rewrite app_nil_r. kept_tac.
  - intros [|m] ?; [lia|]. rewrite Hstep.
    unfold call_unit, bind, emit.
    destruct (Hexec m) as [_ ->]; [lia|]. done.
Qed.

Lemma between_refl c : 0 <= c_curMW c <= chain_len c -> between c 0 c.
Proof. intros ?. split; [done | lia]. Qed.

Lemma Next_fuel_enough h c m :
  slice_wf h (c_middlewares c) ->
  0 <= c_curMW c <= chain_len c ->
  (S (Z.to_nat (chain_len c - c_curMW c)) <= m)%nat ->
  Next_fuel h m c = Next h c.
Proof.
  intros Hwf Hc Hm. unfold Next.
  destruct (Next_fuel_kept h c Hwf (S (Z.to_nat (chain_len c - c_curMW c))) c)
    as [_ Heq]; [by apply between_refl | lia |].
  by apply Heq.
Qed.

Lemma Next_kept h c :
  slice_wf h (c_middlewares c) ->
  0 <= c_curMW c <= chain_len c ->
  kept (between c (c_curMW c)) (unit_event (chain_len c))
       (chain_panic (slice_elems h (c_middlewares c))) (Next h c).
Proof.
  intros Hwf Hc. unfold Next.
  destruct (Next_fuel_kept h c Hwf (S (Z.to_nat (chain_len c - c_curMW c))) c)
    as [? _]; [by apply between_refl | lia | done].
Qed.

(** The equation of [Next]: the nested calls are calls of [Next] itself. *)
Lemma Next_unfold h c :
  slice_wf h (c_middlewares c) ->
  0 <= c_curMW c <= chain_len c ->
  Next h c =
  if decide (c_curMW c >= chain_len c) then (Returned false, c, [])
  else
    let c1 := set_curMW c (c_curMW c + 1) in
    match slice_index h (c_middlewares c) (c_curMW c) with
    | None => (Panicking IndexOutOfRange, c1, [])
    | Some f =>
        (call_unit (Next h) (ChainUnit (c_curMW c)) (view_of c1) f ;; ret true) c1
    end.
Proof.
  intros Hwf Hc. unfold Next at 1. rewrite Next_fuel_S.
  destruct (decide _) as [|Hmore]; [done|]. cbn zeta.
  pose proof Hwf as (? & ? & ?). unfold chain_len, max_int in *.
  rewrite (wrap_int_small (c_curMW c + 1)) by lia. simpl.
  replace (c_curMW c + 1 - 1) with (c_curMW c) by lia.
  rewrite wrap_int_small by lia.
  destruct (slice_index h (c_middlewares c) (c_curMW c)) as [[g|]|]; [|done..].
  set (c1 := set_curMW c (c_curMW c + 1)).
  set (n := Z.to_nat (Z.of_nat (s_len (c_middlewares c)) - c_curMW c)).
  assert (Hc1 : between c (c_curMW c + 1) c1).
  { split; [done | simpl; unfold chain_len; lia]. }
  unfold call_unit, bind, emit.
  destruct (exec_kept (between c (c_curMW c + 1)) (unit_event (chain_len c))
              (chain_panic (slice_elems h (c_middlewares c)))
              (fun _ => I) (fun _ => I) (Next h) (Next_fuel h n))
    with (p := g (view_of c1)) (s := c1) as [-> _]; [|done..].
  intros s Hs. destruct (between_fields _ _ _ Hs) as [Hmw Hlen].
  assert (Hwf' : slice_wf h (c_middlewares s)) by by rewrite Hmw.
  assert (Hs' : 0 <= c_curMW s <= chain_len s).
  { destruct Hs as [_ ?]. unfold chain_len in *. lia. }
  split.
  - apply Next_fuel_enough; [done..|].
    destruct Hs as [_ ?]. unfold chain_len in *. subst n. lia.
  - destruct (Next_kept h s Hwf' Hs') as (HI & HT & Ho).
    rewrite Hlen in HT. rewrite Hmw in Ho. split; [|done].
    destruct Hs as [Hs1 Hs2], HI as [HI1 HI2]. rewrite Hlen in HI2.
    split; [congruence | lia].
Qed.

(** ** The first engine's [Next] *)

Lemma exec_handler_spec {S} (p : Legacy.hprog) (s : S) :
  state_of (Legacy.exec_handler p s) = s /\
  Forall is_act (trace_of (Legacy.exec_handler p s)) /\
  sound (outcome_of (Legacy.exec_handler p s)).
Proof.
  induction p as [|a k IH|v]; simpl; [done| |done].
  unfold bind, emit. destruct IH as (Hs & Ht & Ho).
  destruct (Legacy.exec_handler k s) as [[o s'] t]; simpl in *.
  repeat split; [done| |done]. by constructor.
Qed.

Lemma exec_stuck {S} (next : M S bool) (p : prog) (s : S) :
  calls_Next p = true ->
  (exists t, next s = (OutOfFuel, s, t)) ->
  exists t, exec next p s = (OutOfFuel, s, t).
Proof.
  intros Hp [t0 Hnext]. induction p as [|k IH|a k IH|v]; simpl in *; try done.
  - unfold bind. rewrite Hnext. eauto.
  - unfold bind, emit. destruct (IH Hp) as [t ->]. eauto.
Qed.

Lemma exec_no_Next {S} (next : M S bool) (p : prog) (s : S) :
  calls_Next p = false ->
  state_of (exec next p s) = s /\
  Forall call_event (trace_of (exec next p s)) /\
  sound (outcome_of (exec next p s)).
Proof.
  intros Hp. induction p as [|k IH|a k IH|v]; simpl in *; try done.
  unfold bind, emit. destruct (IH Hp) as (Hs & Ht & Ho).
  destruct (exec next k s) as [[o s'] t]; simpl in *.
  repeat split; [done| |done]. by constructor.
Qed.

Lemma Legacy_Next_fuel_S (n : nat) (c : Legacy.engineContext) :
  Legacy.Next_fuel (S n) c =
  match Legacy.c_curMW c with
  | [] =>
      (emit (Invoke RouteHandler (Legacy.view_of c)) ;;
       Legacy.exec_handler (Legacy.c_handler c (Legacy.c_req c) (Legacy.c_pathParam c)) ;;
       ret false) c
  | mw :: rest =>
      (call_unit (Legacy.Next_fuel n) (Middleware (length rest)) (Legacy.view_of c) mw ;;
       c2 <- get ;;
       match Legacy.c_curMW c2 with
       | [] => raise NilDereference
       | _ :: next => put (Legacy.set_curMW c2 next)
       end ;;
       ret true) c
  end.
Proof.
  cbn [Legacy.Next_fuel]. unfold bind at 1. unfold get at 1.
  destruct (Legacy.c_curMW c);
    by match goal with |- _ = ?x => destruct x as [[? ?] ?] end.
Qed.

(** A middleware that calls [Next] meets itself again: the cursor moves only
    after the middleware has returned, so the nested call starts the same
    middleware, and no depth is enough. *)
Lemma Legacy_Next_reentrant (n : nat) (c : Legacy.engineContext) g rest :
  Legacy.c_curMW c = Some g :: rest ->
  calls_Next (g (Legacy.view_of c)) = true ->
  exists t, Legacy.Next_fuel n c = (OutOfFuel, c, t).
Proof.
  intros Hc Hg. induction n as [|n IH]; [by eexists|].
  rewrite Legacy_Next_fuel_S, Hc.
  destruct (exec_stuck (Legacy.Next_fuel n) (g (Legacy.view_of c)) c Hg IH) as [t Ht].
  unfold call_unit, bind, emit. rewrite Ht. eauto.
Qed.

(** ** C1: what [Next] does *)

(** C1, as stated, fails on [engineContext.Next] of [server.go]: with the
    cursor at the end of the middleware list (the nil pointer) the call is
    no no-op, it runs the route's handler; and it is no advance either, as
    it leaves the cursor where it is and returns false. *)
Lemma legacy_Next_at_end_runs_handler :
  Legacy.c_curMW end_ctx = [] /\
  Legacy.Next_fuel 1 end_ctx =
    (Returned false, end_ctx,
     [Invoke RouteHandler (Legacy.view_of end_ctx); RespAct (Write "H")]) /\
  trace_of (Legacy.Next_fuel 1 end_ctx) <> [].
Proof. by repeat split. Qed.

(** C1 (amended).  [reqContext.Next], in both revisions of part_000: when
    the cursor has reached the length of the chain, [Next] returns false,
    calls nothing and leaves the context as it is; otherwise it moves the
    cursor one position on, calls the unit at that position with the
    context, and returns true once the unit has returned (nested calls made
    by the unit are calls of the same [Next]).
    [engineContext.Next] of server.go: when the middleware cursor is nil it
    calls the route's handler with the request and the parameters, leaves
    the context as it is and returns false once the handler has returned;
    otherwise it calls the middleware at the cursor with the context first,
    and when that middleware does not itself call [Next], the cursor has
    moved one position on and true is returned once it has returned. *)
Theorem Next_spec (h : heap) (c : reqContext) (fuel : nat) (lc : Legacy.engineContext) :
  slice_wf h (c_middlewares c) ->
  0 <= c_curMW c <= chain_len c ->
  (c_curMW c >= chain_len c -> Next h c = (Returned false, c, [])) /\
  (c_curMW c < chain_len c ->
   exists f, slice_index h (c_middlewares c) (c_curMW c) = Some f /\
     let c1 := set_curMW c (c_curMW c + 1) in
     let call := call_unit (Next h) (ChainUnit (c_curMW c)) (view_of c1) f in
     Next h c = (call ;; ret true) c1 /\
     (forall s t, call c1 = (Returned tt, s, t) -> Next h c = (Returned true, s, t)) /\
     (forall g, f = Some g ->
        exists t, trace_of (Next h c) = Invoke (ChainUnit (c_curMW c)) (view_of c1) :: t)) /\
  (Legacy.c_curMW lc = [] ->
   let run := Legacy.exec_handler
                (Legacy.c_handler lc (Legacy.c_req lc) (Legacy.c_pathParam lc)) lc in
   trace_of (Legacy.Next_fuel (S fuel) lc) =
     Invoke RouteHandler (Legacy.view_of lc) :: trace_of run /\
   state_of (Legacy.Next_fuel (S fuel) lc) = lc /\
   (outcome_of run = Returned tt ->
    outcome_of (Legacy.Next_fuel (S fuel) lc) = Returned false)) /\
  (forall g rest, Legacy.c_curMW lc = Some g :: rest ->
   let body := exec (Legacy.Next_fuel fuel) (g (Legacy.view_of lc)) lc in
   trace_of (Legacy.Next_fuel (S fuel) lc) =
     Invoke (Middleware (length rest)) (Legacy.view_of lc) :: trace_of body /\
   (calls_Next (g (Legacy.view_of lc)) = false ->
    outcome_of body = Returned tt ->
    outcome_of (Legacy.Next_fuel (S fuel) lc) = Returned true /\
    state_of (Legacy.Next_fuel (S fuel) lc) = Legacy.set_curMW lc rest)).
Proof.
  intros Hwf Hc. split; [|split; [|split]].
  - intros Hend. rewrite Next_unfold by done. by rewrite decide_True.
  - intros Hmore.
    destruct (slice_index_wf h (c_middlewares c) (c_curMW c) Hwf) as [f Hf];
      [unfold chain_len in *; lia|].
    exists f. split; [done|]. cbn zeta.
    assert (Next h c =
      (call_unit (Next h) (ChainUnit (c_curMW c))
                 (view_of (set_curMW c (c_curMW c + 1))) f ;; ret true)
        (set_curMW c (c_curMW c + 1))) as Heq.
    { rewrite Next_unfold at 1 by done. rewrite decide_False by lia.
      cbn zeta. by rewrite Hf. }
    split; [done|]. split.
    + intros s t Hcall. rewrite Heq. unfold bind, ret. rewrite Hcall.
      by rewrite app_nil_r.
    + intros g ->. rewrite Heq. unfold call_unit, bind, emit, ret.
      destruct (exec _ _ _) as [[[[]|p|] s] t]; simpl; eauto.
  - intros Hnil. cbn zeta. rewrite Legacy_Next_fuel_S, Hnil.
    pose proof (exec_handler_spec
      (Legacy.c_handler lc (Legacy.c_req lc) (Legacy.c_pathParam lc)) lc) as (Hs & _).
    unfold bind, emit, ret.
    destruct (Legacy.exec_handler _ lc) as [[[[]|p|] s] t]; simpl in *; subst;
      rewrite ?app_nil_r; done.
  - intros g rest Hcur. cbn zeta. rewrite Legacy_Next_fuel_S, Hcur.
    unfold call_unit, bind, emit, get, put, ret, raise.
    split.
    + destruct (exec _ _ lc) as [[[[]|q|] s] t]; simpl; [|done..].
      destruct (Legacy.c_curMW s); simpl; by rewrite ?app_nil_r.
    + intros Hg Hbody.
      destruct (exec_no_Next (Legacy.Next_fuel fuel) (g (Legacy.view_of lc)) lc Hg)
        as (Hs & _).
      destruct (exec _ _ lc) as [[[[]|q|] s] t]; simpl in *; try done.
      subst s. by rewrite Hcur.
Qed.

Lemma Next_spec_witness :
  Next shared_store sample_ctx =
    (Returned true, set_curMW sample_ctx 1,
     [Invoke (ChainUnit 0) (view_of sample_ctx); RespAct (Write "M1")]).
Proof.
  destruct (Next_spec shared_store sample_ctx 0 end_ctx) as (_ & Hcall & _).
  - repeat split; simpl; unfold max_int; lia.
  - unfold chain_len; simpl; lia.
  - destruct Hcall as (f & Hf & _ & Hret & _); [unfold chain_len; simpl; lia|].
    apply Hret. injection Hf as <-. reflexivity.
Defined.

(** ** C3: the allowed methods *)

Lemma sort_Strings_Permutation l : sort_Strings l ≡ₚ l.
Proof. apply merge_sort_Permutation. Qed.

Lemma sort_Strings_sorted l : StronglySorted String.le (sort_Strings l).
Proof. apply (StronglySorted_merge_sort String.le). Qed.

Lemma new_allowed_inv s method :
  NoDup s -> method ∉ s -> am_inv (new_allowed s method).
Proof.
  intros Hnd Hnew. unfold am_inv, new_allowed; simpl.
  split; [apply sort_Strings_sorted|]. split; [|done].
  rewrite sort_Strings_Permutation. apply NoDup_app.
  split; [done|]. split; [|apply NoDup_singleton].
  intros x Hx ->%list_elem_of_singleton. done.
Qed.

Lemma new_allowed_mono s method : s ⊆ am_s (new_allowed s method).
Proof.
  intros x Hx. unfold new_allowed; simpl.
  rewrite sort_Strings_Permutation. apply elem_of_app. by left.
Qed.

Lemma check_units_spec {S} (units : list Func) (s : S) :
  check_units units s =
  (if forallb not_nil units then Returned tt else Panicking nil_unit_panic, s, []).
Proof.
  induction units as [|[g|] rest IH]; simpl; done.
Qed.

Section AllowedMethods.
Context `{Externals} {R : Type} `{Router routerValue R}.
Context {R' : Type} `{Router (option Legacy.Handler) R'}.

(** What one [Register] does to the allowed methods, however it ends. *)
Lemma Register_allowed (node : Node) (st : server R) :
  let am := allowed_of st in
  let am' := allowed_of (state_of (Register node st)) in
  (Node_Method node ∈ am_s am -> am' = am) /\
  (am' = am \/ ((Node_Method node ∉ am_s am) /\ am' = new_allowed (am_s am) (Node_Method node))).
Proof.
  unfold allowed_of, Register, bind, get, put, emit, raise. simpl.
  destruct (append _ _ _) as [h1 mws]. simpl.
  rewrite check_units_spec. destruct (forallb _ _); simpl; [|by auto].
  destruct (router_Register _ _ _ _) as [r'|]; simpl; [|by auto].
  destruct (contains _ _) eqn:Hc; simpl.
  - by auto.
  - apply contains_false in Hc. split; [done | by right].
Qed.

Lemma Register_inv (node : Node) (st : server R) :
  am_inv (allowed_of st) -> am_inv (allowed_of (state_of (Register node st))).
Proof.
  intros Hinv. destruct (Register_allowed node st) as [_ [->|[Hnew ->]]]; [done|].
  destruct Hinv as (_ & Hnd & _). by apply new_allowed_inv.
Qed.

Lemma Register_mono (node : Node) (st : server R) :
  am_s (allowed_of st) ⊆ am_s (allowed_of (state_of (Register node st))).
Proof.
  destruct (Register_allowed node st) as [_ [->|[Hnew ->]]]; [done|].
  apply new_allowed_mono.
Qed.

Lemma RegisterGroup_children_inv (group : Group) (children : list Node) (st : server R) :
  am_inv (allowed_of st) ->
  am_inv (allowed_of (state_of (RegisterGroup_children group children st))).
Proof.
  revert st. induction children as [|v rest IH]; intros st Hinv; [done|].
  cbn [RegisterGroup_children]. unfold bind at 1. unfold get at 1.
  destruct (append _ _ _) as [h1 mws].
  unfold bind at 1. unfold put at 1. unfold bind at 1.
  match goal with |- context [Register ?n ?s] =>
    pose proof (Register_inv n s Hinv) as Hreg;
    destruct (Register n s) as [[o s1] t1] end.
  simpl in Hreg. destruct o; simpl; [|done..].
  specialize (IH s1 Hreg).
  by destruct (RegisterGroup_children group rest s1) as [[o2 s2] t2].
Qed.

Lemma step_inv (st : server R) (c : setup) :
  am_inv (allowed_of st) -> am_inv (allowed_of (step st c)).
Proof.
  destruct c as [node|group|h]; simpl; [apply Register_inv| |done].
  apply RegisterGroup_children_inv.
Qed.

Lemma Legacy_Register_allowed method path handle (e : Legacy.engine R') :
  let am := Legacy.e_allowedMethods e in
  let am' := Legacy.e_allowedMethods (state_of (Legacy.Register method path handle e)) in
  (method ∈ am_s am -> am' = am) /\
  (am' = am \/ ((method ∉ am_s am) /\ am' = new_allowed (am_s am) method)).
Proof.
  unfold Legacy.Register, bind, get, put, raise. simpl.
  destruct (router_Register _ _ _ _) as [r'|]; simpl; [|by auto].
  destruct (contains _ _) eqn:Hc; simpl.
  - by auto.
  - apply contains_false in Hc. split; [done | by right].
Qed.

Lemma legacy_step_inv (e : Legacy.engine R') (c : legacy_setup) :
  am_inv (Legacy.e_allowedMethods e) ->
  am_inv (Legacy.e_allowedMethods (legacy_step e c)).
Proof.
  intros Hinv. destruct c as [method path handle|handler]; simpl; [|done].
  destruct (Legacy_Register_allowed method path handle e) as [_ [->|[Hnew ->]]]; [done|].
  destruct Hinv as (_ & Hnd & _). by apply new_allowed_inv.
Qed.

(** C3.  After every sequence of registrations on a new engine the allowed
    methods are sorted and free of duplicates and the string is their
    comma-join; a further [Register] only adds to the set, and it leaves the
    set and the string as they are when the method is already there.  The
    same holds for [Register] of the first engine. *)
Theorem allowed_methods_invariant
    (h : heap) (calls : list setup) (node : Node)
    (lcalls : list legacy_setup) (method path : string)
    (handle : option Legacy.Handler) :
  let st := foldl step (mkServer h (eng New)) calls in
  let st' := state_of (Register node st) in
  let e := foldl legacy_step Legacy.New lcalls in
  let e' := state_of (Legacy.Register method path handle e) in
  (am_inv (allowed_of st) /\
   am_s (allowed_of st) ⊆ am_s (allowed_of st') /\
   (Node_Method node ∈ am_s (allowed_of st) -> allowed_of st' = allowed_of st)) /\
  (am_inv (Legacy.e_allowedMethods e) /\
   am_s (Legacy.e_allowedMethods e) ⊆ am_s (Legacy.e_allowedMethods e') /\
   (method ∈ am_s (Legacy.e_allowedMethods e) ->
    Legacy.e_allowedMethods e' = Legacy.e_allowedMethods e)).
Proof.
  cbn zeta. split; split.
  - assert (am_inv (allowed_of (mkServer h (eng New)))) as Hnew.
    { repeat split; simpl; constructor. }
    revert Hnew. generalize (mkServer h (eng New)).
    induction calls as [|c calls IH]; intros st Hst; simpl; [done|].
    apply IH. by apply step_inv.
  - split; [apply Register_mono | apply Register_allowed].
  - assert (am_inv (Legacy.e_allowedMethods (Legacy.New (R := R')))) as Hnew.
    { repeat split; simpl; constructor. }
    revert Hnew. generalize (Legacy.New (R := R')).
    induction lcalls as [|c lcalls IH]; intros e He; simpl; [done|].
    apply IH. by apply legacy_step_inv.
  - split; [|apply Legacy_Register_allowed].
    destruct (Legacy_Register_allowed method path handle
                (foldl legacy_step Legacy.New lcalls)) as [_ [->|[Hnew ->]]]; [done|].
    apply new_allowed_mono.
Qed.
End AllowedMethods.

(** ** Dispatch: what [ServeHTTP] does on each branch *)

Lemma last_byte_None path : last_byte path = None <-> path = "".
Proof.
  split; [|by intros ->].
  induction path as [|a [|b rest] IH]; simpl in *; [done..|].
  intros Hl. by specialize (IH Hl).
Qed.

Lemma toggle_slash_is_Some path : path <> "" -> is_Some (toggle_slash path).
Proof.
  intros Hne. unfold toggle_slash.
  destruct (last_byte path) eqn:Hl; [by eexists|].
  by apply last_byte_None in Hl.
Qed.

Section Dispatch.
Context `{Externals} {R : Type} `{Router routerValue R}.

Lemma ServeHTTP_not_allowed rev logId req st :
  ~ allows st req ->
  ServeHTTP rev logId req st =
  (Returned tt, st,
   opening req ++
   [HeaderSet "Allow" (am_str (allowed_of st));
    HttpError StatusText_MethodNotAllowed StatusMethodNotAllowed] ++
   closing logId).
Proof.
  intros Hm%contains_false. unfold allows, allowed_of in *.
  unfold ServeHTTP, defer, bind, get, emit. simpl. by rewrite Hm.
Qed.

Lemma ServeHTTP_empty_path rev logId req st :
  allows st req ->
  url_Path (req_URL req) = "" ->
  ServeHTTP rev logId req st =
  (Returned tt, st,
   opening req ++
   [HttpRedirect (req_URL (set_Path req (root_path rev))) StatusPermanentRedirect] ++
   closing logId).
Proof.
  intros Hm%contains_elem_of Hp. unfold allows, allowed_of in *.
  unfold ServeHTTP, defer, bind, get, emit. simpl. by rewrite Hm, Hp.
Qed.

Lemma ServeHTTP_not_found rev logId req st ps :
  allows st req ->
  url_Path (req_URL req) <> "" ->
  lookup_of st req = (None, ps, false) ->
  ServeHTTP rev logId req st =
  (Returned tt, st,
   opening req ++
   [RouterLookup (req_Method req) (url_Path (req_URL req)); HttpNotFound] ++
   closing logId).
Proof.
  intros Hm%contains_elem_of Hp Hl. unfold allows, allowed_of, lookup_of in *.
  unfold ServeHTTP, defer, bind, get, emit. simpl. rewrite Hm. simpl.
  rewrite decide_False by done. by rewrite Hl.
Qed.

Lemma ServeHTTP_redirect rev logId req st ps :
  allows st req ->
  url_Path (req_URL req) <> "" ->
  lookup_of st req = (None, ps, true) ->
  exists path', toggle_slash (url_Path (req_URL req)) = Some path' /\
  ServeHTTP rev logId req st =
  (Returned tt, st,
   opening req ++
   [RouterLookup (req_Method req) (url_Path (req_URL req));
    HttpRedirect (req_URL (set_Path req path')) StatusPermanentRedirect] ++
   closing logId).
Proof.
  intros Hm%contains_elem_of Hp Hl. unfold allows, allowed_of, lookup_of in *.
  destruct (toggle_slash_is_Some _ Hp) as [path' Ht]. exists path'. split; [done|].
  unfold ServeHTTP, defer, bind, get, emit. simpl. rewrite Hm. simpl.
  rewrite decide_False by done. rewrite Hl. by rewrite Ht.
Qed.

Lemma ServeHTTP_chain rev logId req st v ps b o c t :
  allows st req ->
  url_Path (req_URL req) <> "" ->
  lookup_of st req = (Some v, ps, b) ->
  Next (store st) (dispatch_ctx req v ps) = (o, c, t) ->
  o <> OutOfFuel ->
  ServeHTTP rev logId req st =
  (Returned tt, st,
   opening req ++
   [RouterLookup (req_Method req) (url_Path (req_URL req))] ++
   match_events rev v ps ++ t ++ recovered o ++ closing logId).
Proof.
  intros Hm%contains_elem_of Hp Hl Hn Ho. unfold allows, allowed_of, lookup_of in *.
  unfold ServeHTTP, defer, bind, get, emit. simpl. rewrite Hm. simpl.
  rewrite decide_False by done. rewrite Hl.
  unfold defer_recover, with_object, trace_match, bind, emit, ret.
  unfold dispatch_ctx in Hn.
  destruct rev; simpl; rewrite Hn; destruct o as [x|p|]; simpl; try done;
    by rewrite ?app_nil_r, <- ?app_assoc.
Qed.
End Dispatch.

(** ** Dispatch in the first engine *)

Lemma Legacy_Next_sound (n : nat) (c : Legacy.engineContext) :
  reentrant c = false ->
  Forall call_event (trace_of (Legacy.Next_fuel (S n) c)) /\
  sound (outcome_of (Legacy.Next_fuel (S n) c)).
Proof.
  unfold reentrant. intros Hc. rewrite Legacy_Next_fuel_S.
  destruct (Legacy.c_curMW c) as [|[g|] rest] eqn:Hcur.
  - pose proof (exec_handler_spec
      (Legacy.c_handler c (Legacy.c_req c) (Legacy.c_pathParam c)) c) as (Hs & Ht & Ho).
    unfold bind, emit, ret.
    destruct (Legacy.exec_handler _ c) as [[[[]|p|] s] t]; simpl in *; try done;
      (split; [|done]); constructor; try done;
      rewrite ?app_nil_r; eapply Forall_impl; try done; by intros [].
  - destruct (exec_no_Next (Legacy.Next_fuel n) (g (Legacy.view_of c)) c Hc)
      as (Hs & Ht & Ho).
    unfold call_unit, bind, emit, get, put, ret.
    destruct (exec _ _ c) as [[[[]|p|] s] t]; simpl in *; subst; try done;
      [rewrite Hcur; simpl|]; (split; [|done]); constructor; try done;
      by rewrite ?app_nil_r.
  - unfold call_unit, bind, raise. simpl. by split.
Qed.

Lemma exec_trace {S} (T : event -> Prop) (next : M S bool) :
  (forall a, T (RespAct a)) ->
  (forall s, Forall T (trace_of (next s))) ->
  forall p s, Forall T (trace_of (exec next p s)).
Proof.
  intros Hact Hnext p. induction p as [|k IH|a k IH|v]; intros s; simpl.
  - constructor.
  - unfold bind. specialize (Hnext s).
    destruct (next s) as [[[b|q|] s1] t1]; simpl in *; [|done..].
    specialize (IH b s1). destruct (exec next (k b) s1) as [[o2 s2] t2]; simpl in *.
    by apply Forall_app.
  - unfold bind, emit. specialize (IH s).
    destruct (exec next k s) as [[o2 s2] t2]; simpl in *. by constructor.
  - constructor.
Qed.

Lemma Legacy_Next_trace (n : nat) (c : Legacy.engineContext) :
  Forall call_event (trace_of (Legacy.Next_fuel n c)).
Proof.
  revert c. induction n as [|n IH]; intros c; [constructor|].
  rewrite Legacy_Next_fuel_S. destruct (Legacy.c_curMW c) as [|[g|] rest].
  - pose proof (exec_handler_spec
      (Legacy.c_handler c (Legacy.c_req c) (Legacy.c_pathParam c)) c) as (_ & Ht & _).
    unfold bind, emit, ret.
    destruct (Legacy.exec_handler _ c) as [[[[]|p|] s] t]; simpl in *;
      constructor; try done; rewrite ?app_nil_r;
      eapply Forall_impl; try done; by intros [].
  - pose proof (exec_trace call_event (Legacy.Next_fuel n) (fun _ => I) IH
                  (g (Legacy.view_of c)) c) as Ht.
    unfold call_unit, bind, emit, get, put, ret, raise.
    destruct (exec _ _ c) as [[[[]|p|] s] t]; simpl in *;
      [destruct (Legacy.c_curMW s); simpl|..];
      constructor; try done; by rewrite ?app_nil_r.
  - unfold call_unit, bind, raise. simpl. constructor.
Qed.

Lemma filter_critical_calls (t : list event) :
  Forall call_event t -> filter is_critical t = [].
Proof.
  induction 1 as [|e t He _ IH]; [done|].
  rewrite filter_cons, IH. by destruct e.
Qed.

Section LegacyDispatch.
Context `{Externals} {R : Type} `{Router (option Legacy.Handler) R}.

Lemma Legacy_ServeHTTP_not_allowed fuel logId req (e : Legacy.engine R) :
  ~ legacy_allows e req ->
  Legacy.ServeHTTP fuel logId req e =
  (Returned tt, e,
   opening req ++
   [HeaderSet "Allow" (am_str (Legacy.e_allowedMethods e));
    HttpError StatusText_MethodNotAllowed StatusMethodNotAllowed] ++
   closing logId).
Proof.
  intros Hm%contains_false. unfold legacy_allows in *.
  unfold Legacy.ServeHTTP, defer, bind, get, emit. simpl. by rewrite Hm.
Qed.

Lemma Legacy_ServeHTTP_redirect fuel logId req (e : Legacy.engine R) ps :
  legacy_allows e req ->
  url_Path (req_URL req) <> "" ->
  legacy_lookup e req = (None, ps, true) \/ legacy_lookup e req = (Some None, ps, true) ->
  exists path', toggle_slash (url_Path (req_URL req)) = Some path' /\
  Legacy.ServeHTTP fuel logId req e =
  (Returned tt, e,
   opening req ++
   [RouterLookup (req_Method req) (url_Path (req_URL req));
    HttpRedirect (req_URL (set_Path req path')) StatusPermanentRedirect] ++
   closing logId).
Proof.
  intros Hm%contains_elem_of Hp Hl. unfold legacy_allows, legacy_lookup in *.
  destruct (toggle_slash_is_Some _ Hp) as [path' Ht]. exists path'. split; [done|].
  unfold Legacy.ServeHTTP, defer, bind, get, emit. simpl. rewrite Hm. simpl.
  rewrite decide_False by done. by destruct Hl as [-> | ->]; rewrite Ht.
Qed.

(** Every run of [ServeHTTP] leaves the engine alone and ends in one of
    two ways: it returns, having set the log-id header last, with one
    critical record exactly when the chain panicked; or the bound on the
    depth was not enough. *)
Lemma Legacy_ServeHTTP_cases fuel logId req (e : Legacy.engine R) :
  let r := Legacy.ServeHTTP fuel logId req e in
  state_of r = e /\
  ((outcome_of r = Returned tt /\
    exists pre, trace_of r = pre ++ closing logId /\
      (filter is_critical pre = [] \/
       exists c p s t, legacy_ctx e req = Some c /\
         Legacy.Next_fuel fuel c = (Panicking p, s, t) /\
         filter is_critical pre = [LogCritical p])) \/
   (outcome_of r = OutOfFuel /\ legacy_allows e req /\ url_Path (req_URL req) <> "" /\
    exists c s t, legacy_ctx e req = Some c /\
      Legacy.Next_fuel fuel c = (OutOfFuel, s, t))).
Proof.
  cbn zeta. unfold legacy_allows.
  destruct (decide (req_Method req ∈ am_s (Legacy.e_allowedMethods e))) as [Hm|Hm];
    cycle 1.
  { rewrite Legacy_ServeHTTP_not_allowed by done. split; [done|]. left.
    split; [done|]. eexists. split; [by rewrite app_assoc|]. by left. }
  pose proof Hm as Hm'%contains_elem_of.
  unfold Legacy.ServeHTTP, defer, bind, get, emit. simpl. rewrite Hm'. simpl.
  destruct (decide (url_Path (req_URL req) = "")) as [Hp|Hp].
  { split; [done|]. left. split; [done|].
    eexists [_; _]. split; [done|]. by left. }
  unfold legacy_ctx, legacy_lookup.
  destruct (toggle_slash_is_Some _ Hp) as [path' Ht]. rewrite Ht.
  destruct (router_Lookup _ _ _) as [[[[handler|]|] ps] [|]]; simpl;
    try (split; [done|]; left; split; [done|];
         eexists [_; _; _]; split; [done|]; by left).
  all: unfold defer_recover, with_object, bind, emit, ret;
    match goal with |- context [Legacy.Next_fuel ?n ?c] =>
      pose proof (Legacy_Next_trace n c) as Hcalls;
      destruct (Legacy.Next_fuel n c) as [[[b|p|] s] t] eqn:Hn end;
    simpl in *; (split; [done|]).
  all: try solve [right; repeat split; try done; eauto 10].
  all: left; split; [done|].
  all: match goal with
       | Hn : _ = (Returned _, _, ?t) |- _ =>
           eexists (_ :: _ :: t ++ []); (split; [done|]);
           left; rewrite app_nil_r, !filter_cons; simpl;
           by rewrite filter_critical_calls
       | Hn : _ = (Panicking ?p, ?s, ?t) |- _ =>
           eexists (_ :: _ :: t ++ [LogCritical p]);
           (split; [done|]);
           right; eexists _, p, s, t; repeat split; try done;
           rewrite !filter_cons; simpl;
           by rewrite filter_app, filter_critical_calls
       end.
Qed.
End LegacyDispatch.

Lemma unit_event_call len e : unit_event len e -> call_event e.
Proof. by destruct e. Qed.

Lemma filter_critical_units len (t : list event) :
  Forall (unit_event len) t -> filter is_critical t = [].
Proof.
  intros Ht. apply filter_critical_calls.
  eapply Forall_impl; [done|]. apply unit_event_call.
Qed.

Lemma filter_critical_match rev v ps : filter is_critical (match_events rev v ps) = [].
Proof. by destruct rev. Qed.

(** The chain of a dispatched request runs to an end, and what it leaves in
    the trace are calls of units and their actions. *)
Lemma dispatch_chain_kept h req v ps :
  slice_wf h (rv_middlewares v) ->
  let r := Next h (dispatch_ctx req v ps) in
  Forall (unit_event (Z.of_nat (s_len (rv_middlewares v)))) (trace_of r) /\
  sound (outcome_of r).
Proof.
  intros Hwf. cbn zeta.
  destruct (Next_kept h (dispatch_ctx req v ps)) as (_ & Ht & Ho);
    [done | unfold chain_len; simpl; lia |].
  split; [done|]. eapply ended_weaken; [|done]. apply chain_panic_unit.
Qed.

Section DispatchCases.
Context `{Externals} {R : Type} `{Router routerValue R}.

(** Every run of [ServeHTTP] returns, leaves the server alone and sets the
    log-id header last; there is one critical record exactly when the
    chain panicked. *)
Lemma ServeHTTP_cases rev logId req (st : server R) :
  chain_wf st req ->
  exists pre,
    ServeHTTP rev logId req st = (Returned tt, st, pre ++ closing logId) /\
    (filter is_critical pre = [] \/
     exists v ps b p c t,
       lookup_of st req = (Some v, ps, b) /\
       Next (store st) (dispatch_ctx req v ps) = (Panicking p, c, t) /\
       filter is_critical pre = [LogCritical p]).
Proof.
  intros Hwf. unfold chain_wf in Hwf.
  destruct (decide (req_Method req ∈ am_s (allowed_of st))) as [Hm|Hm]; cycle 1.
  { rewrite ServeHTTP_not_allowed by done.
    exists (opening req ++
            [HeaderSet "Allow" (am_str (allowed_of st));
             HttpError StatusText_MethodNotAllowed StatusMethodNotAllowed]).
    split; [by rewrite <- app_assoc|]. by left. }
  destruct (decide (url_Path (req_URL req) = "")) as [Hp|Hp].
  { rewrite ServeHTTP_empty_path by done.
    exists (opening req ++
            [HttpRedirect (req_URL (set_Path req (root_path rev)))
                          StatusPermanentRedirect]).
    split; [by rewrite <- app_assoc|]. by left. }
  destruct (lookup_of st req) as [[[v|] ps] b] eqn:Hl.
  - destruct (dispatch_chain_kept (store st) req v ps (Hwf _ _ _ eq_refl))
      as [Ht Ho].
    destruct (Next (store st) (dispatch_ctx req v ps)) as [[o c] t] eqn:Hn.
    simpl in Ht, Ho.
    assert (o <> OutOfFuel) as Hfuel by by intros ->.
    rewrite (ServeHTTP_chain rev logId req st v ps b o c t Hm Hp Hl Hn Hfuel).
    exists (opening req ++
            [RouterLookup (req_Method req) (url_Path (req_URL req))] ++
            match_events rev v ps ++ t ++ recovered o).
    split; [by rewrite <- !app_assoc|].
    rewrite !filter_app, filter_critical_match, (filter_critical_units _ t Ht).
    destruct o as [x|p|]; simpl; [by left| |done].
    right. by exists v, ps, b, p, c, t.
  - destruct b.
    + destruct (ServeHTTP_redirect rev logId req st ps Hm Hp Hl) as (path' & _ & ->).
      exists (opening req ++
              [RouterLookup (req_Method req) (url_Path (req_URL req));
               HttpRedirect (req_URL (set_Path req path')) StatusPermanentRedirect]).
      split; [by rewrite <- app_assoc|]. by left.
    + rewrite (ServeHTTP_not_found rev logId req st ps Hm Hp Hl).
      exists (opening req ++
              [RouterLookup (req_Method req) (url_Path (req_URL req)); HttpNotFound]).
      split; [by rewrite <- app_assoc|]. by left.
Qed.

(** A request that passes the method gate with a path asks the router. *)
Lemma ServeHTTP_reaches_lookup rev logId req (st : server R) :
  allows st req ->
  url_Path (req_URL req) <> "" ->
  exists rest,
    trace_of (ServeHTTP rev logId req st) =
    opening req ++ RouterLookup (req_Method req) (url_Path (req_URL req)) :: rest.
Proof.
  intros Hm%contains_elem_of Hp. unfold allows, allowed_of in Hm.
  unfold ServeHTTP, defer, bind, get, emit. simpl. rewrite Hm. simpl.
  rewrite decide_False by done.
  destruct (toggle_slash_is_Some _ Hp) as [path' ->].
  destruct (router_Lookup _ _ _) as [[[v|] ps] [|]]; simpl; eauto.
  all: unfold defer_recover, with_object, trace_match, bind, emit, ret;
    destruct rev; simpl;
    destruct (Next _ _) as [[[x|p|] c] t]; simpl; eauto.
Qed.
End DispatchCases.

(** ** The trailing-slash toggle *)

Lemma last_byte_app_slash p : last_byte (p +:+ "/") = Some "/"%char.
Proof.
  induction p as [|a [|b rest] IH]; [done..|].
  change (last_byte (String b rest +:+ "/") = Some "/"%char). apply IH.
Qed.

Lemma but_last_app_slash p : but_last (p +:+ "/") = p.
Proof.
  induction p as [|a [|b rest] IH]; [done..|].
  change (String a (but_last (String b rest +:+ "/")) = String a (String b rest)).
  by rewrite IH.
Qed.

Lemma but_last_last p b : last_byte p = Some b -> but_last p +:+ String b "" = p.
Proof.
  induction p as [|a [|c rest] IH]; intros Hl; [done|by injection Hl as ->|].
  change (String a (but_last (String c rest) +:+ String b "") = String a (String c rest)).
  rewrite IH; [done|]. exact Hl.
Qed.

Lemma but_last_length p : (String.length (but_last p) <= String.length p)%nat.
Proof.
  induction p as [|a [|c rest] IH]; simpl in *; lia.
Qed.

Lemma app_slash_length p : String.length (p +:+ "/") = S (String.length p).
Proof. induction p as [|a rest IH]; [done|]. simpl. by rewrite <- IH. Qed.

(** Toggling twice gives the path back exactly when the toggled path is not
    empty and the toggle did not strip one of two final slashes. *)
Lemma toggle_slash_twice p q :
  toggle_slash p = Some q ->
  toggle_slash q = Some p <->
  q <> "" /\ ~ (last_byte p = Some "/"%char /\ last_byte q = Some "/"%char).
Proof.
  unfold toggle_slash. destruct (last_byte p) as [b|] eqn:Hp; [|done].
  destruct (Ascii.eqb_spec b "/"%char) as [->|Hb]; intros [= <-].
  - pose proof (but_last_last p _ Hp) as Hpq.
    destruct (last_byte (but_last p)) as [c|] eqn:Hq.
    + destruct (Ascii.eqb_spec c "/"%char) as [->|Hc].
      * split; [|by intros [_ []]].
        intros [= Heq]. pose proof (but_last_length (but_last p)) as Hlen.
        rewrite Heq in Hlen. rewrite <- Hpq in Hlen at 1.
        rewrite app_slash_length in Hlen. lia.
      * split; [|by rewrite Hpq].
        intros _. split; [by intros Hnil; rewrite Hnil in Hq|].
        intros [_ [= ->]]. done.
    + split; [done|]. intros [Hne _]. by apply last_byte_None in Hq.
  - rewrite last_byte_app_slash. simpl. rewrite but_last_app_slash.
    split; [|done]. intros _. split.
    + by destruct p.
    + intros [[= ->] _]. done.
Qed.

Section LegacyChain.
Context `{Externals} {R : Type} `{Router (option Legacy.Handler) R}.

Lemma Legacy_ServeHTTP_chain fuel logId req (e : Legacy.engine R) c o s t :
  legacy_allows e req ->
  url_Path (req_URL req) <> "" ->
  legacy_ctx e req = Some c ->
  Legacy.Next_fuel fuel c = (o, s, t) ->
  Legacy.ServeHTTP fuel logId req e =
  (match o with OutOfFuel => OutOfFuel | _ => Returned tt end, e,
   opening req ++ [RouterLookup (req_Method req) (url_Path (req_URL req))] ++ t ++
   match o with OutOfFuel => [] | _ => recovered o ++ closing logId end).
Proof.
  intros Hm%contains_elem_of Hp Hc Hn. unfold legacy_allows, legacy_ctx, legacy_lookup in *.
  unfold Legacy.ServeHTTP, defer, bind, get, emit. simpl. rewrite Hm. simpl.
  rewrite decide_False by done.
  destruct (router_Lookup _ _ _) as [[[[handler|]|] ps] b]; try done.
  injection Hc as <-.
  unfold defer_recover, with_object, bind, emit, ret. rewrite Hn.
  destruct o as [x|p|]; simpl; by rewrite <- ?app_assoc, ?app_nil_r.
Qed.
End LegacyChain.

(** ** The claims about dispatch *)

Section Claims.
Context `{Externals} {R : Type} `{Router routerValue R}.
Context {R' : Type} `{Router (option Legacy.Handler) R'}.

(** C2.  A request whose method is not among the allowed methods gets the
    [Allow] header set to the precomputed string and a 405, and that is
    all: the router is not asked and no unit is called, whatever the path.
    This holds for both revisions of part_000 and for the first engine. *)
Theorem method_gate rev logId req (st : server R) fuel (e : Legacy.engine R') :
  ~ allows st req ->
  ~ legacy_allows e req ->
  let answer (str : string) :=
    opening req ++
    [HeaderSet "Allow" str;
     HttpError StatusText_MethodNotAllowed StatusMethodNotAllowed] ++
    closing logId in
  ServeHTTP rev logId req st =
    (Returned tt, st, answer (am_str (allowed_of st))) /\
  Legacy.ServeHTTP fuel logId req e =
    (Returned tt, e, answer (am_str (Legacy.e_allowedMethods e))) /\
  (forall str, Forall quiet (answer str)) /\
  StatusMethodNotAllowed = 405.
Proof.
  intros Hm Hm'. cbn zeta. split; [|split; [|split]].
  - by apply ServeHTTP_not_allowed.
  - by apply Legacy_ServeHTTP_not_allowed.
  - intros str. unfold opening, closing. by repeat constructor.
  - done.
Qed.

(** C4.  A panic of a chain unit is recovered in [ServeHTTP]: the call
    returns, the panic is logged at critical level exactly once, and the
    server (routes, allowed methods, store) is what it was, so the next
    request is served as if nothing had happened.  This holds for both
    revisions of part_000 and for the first engine. *)
Theorem panic_containment rev logId req (st : server R) fuel (e : Legacy.engine R') :
  chain_wf st req ->
  let r := ServeHTTP rev logId req st in
  let r' := Legacy.ServeHTTP fuel logId req e in
  (outcome_of r = Returned tt /\
   state_of r = st /\
   (forall v ps b p c t,
      allows st req -> url_Path (req_URL req) <> "" ->
      lookup_of st req = (Some v, ps, b) ->
      Next (store st) (dispatch_ctx req v ps) = (Panicking p, c, t) ->
      filter is_critical (trace_of r) = [LogCritical p]) /\
   (forall logId2 req2,
      ServeHTTP rev logId2 req2 (state_of r) = ServeHTTP rev logId2 req2 st)) /\
  ((forall p, outcome_of r' <> Panicking p) /\
   state_of r' = e /\
   (forall c p s t,
      legacy_allows e req -> url_Path (req_URL req) <> "" ->
      legacy_ctx e req = Some c ->
      Legacy.Next_fuel fuel c = (Panicking p, s, t) ->
      outcome_of r' = Returned tt /\
      filter is_critical (trace_of r') = [LogCritical p]) /\
   (forall logId2 req2,
      Legacy.ServeHTTP fuel logId2 req2 (state_of r') =
      Legacy.ServeHTTP fuel logId2 req2 e)).
Proof.
  intros Hwf. cbn zeta. split.
  - destruct (ServeHTTP_cases rev logId req st Hwf) as (pre & Hr & _).
    rewrite Hr. simpl. split; [done|]. split; [done|]. split; [|done].
    intros v ps b p c t Hm Hp Hl Hn.
    assert (Panicking (A := bool) p <> OutOfFuel) as Hfuel by done.
    rewrite (ServeHTTP_chain rev logId req st v ps b _ c t Hm Hp Hl Hn Hfuel) in Hr.
    injection Hr as <-.
    destruct (dispatch_chain_kept (store st) req v ps (Hwf _ _ _ Hl)) as [Ht _].
    rewrite Hn in Ht. simpl in Ht.
    rewrite !filter_cons. simpl.
    rewrite !filter_app, filter_critical_match, (filter_critical_units _ t Ht).
    rewrite filter_cons. simpl. unfold closing.
    by rewrite !filter_cons, filter_nil.
  - destruct (Legacy_ServeHTTP_cases fuel logId req e) as [Hs Hcases].
    split; [|split; [done|split]].
    + intros p Hp. by destruct Hcases as [[Ho _]|[Ho _]]; rewrite Ho in Hp.
    + intros c p s t Hm Hp Hc Hn.
      rewrite (Legacy_ServeHTTP_chain fuel logId req e c _ s t Hm Hp Hc Hn).
      simpl. split; [done|].
      pose proof (Legacy_Next_trace fuel c) as Ht. rewrite Hn in Ht. simpl in Ht.
      rewrite !filter_cons. simpl.
      rewrite filter_app, (filter_critical_calls t Ht), filter_cons. simpl.
      unfold closing. by rewrite !filter_cons, filter_nil.
    + intros logId2 req2. by rewrite Hs.
Qed.

(** C5 (amended).  When the lookup of an allowed request with a path finds
    no route but a redirect candidate, the answer is a 308 to the path
    with its trailing slash toggled.  The toggle applied to the toggled
    path gives the original path back exactly when the toggled path is
    not empty and the toggle did not strip one of two final slashes (so
    for every path other than "/" that does not end in "//").  This holds
    for both revisions of part_000 and for the first engine. *)
Theorem trailing_slash_redirect rev logId req ps (st : server R) fuel
    (e : Legacy.engine R') :
  allows st req ->
  legacy_allows e req ->
  url_Path (req_URL req) <> "" ->
  lookup_of st req = (None, ps, true) ->
  legacy_lookup e req = (None, ps, true) ->
  exists path',
    toggle_slash (url_Path (req_URL req)) = Some path' /\
    let answer :=
      opening req ++
      [RouterLookup (req_Method req) (url_Path (req_URL req));
       HttpRedirect (req_URL (set_Path req path')) StatusPermanentRedirect] ++
      closing logId in
    ServeHTTP rev logId req st = (Returned tt, st, answer) /\
    Legacy.ServeHTTP fuel logId req e = (Returned tt, e, answer) /\
    url_Path (req_URL (set_Path req path')) = path' /\
    StatusPermanentRedirect = 308 /\
    (toggle_slash path' = Some (url_Path (req_URL req)) <->
     path' <> "" /\
     ~ (last_byte (url_Path (req_URL req)) = Some "/"%char /\
        last_byte path' = Some "/"%char)).
Proof.
  intros Hm Hm' Hp Hl Hl'.
  destruct (ServeHTTP_redirect rev logId req st ps Hm Hp Hl) as (path' & Ht & Hr).
  destruct (Legacy_ServeHTTP_redirect fuel logId req e ps Hm' Hp (or_introl Hl'))
    as (path2 & Ht2 & Hr2).
  assert (path2 = path') as -> by congruence.
  exists path'. split; [done|]. cbn zeta.
  split; [done|]. split; [done|]. split; [done|]. split; [done|].
  by apply toggle_slash_twice.
Qed.

(** C8.  An allowed request with the empty path is answered by a 308 to
    the root path of the revision ("/index" in the first file of part_000,
    "/" in the second) without a lookup.  The root path is not empty, so
    the request that follows the redirect does not take this branch
    again: it goes on to the lookup. *)
Theorem empty_path_redirect rev logId logId2 req (st : server R) :
  allows st req ->
  url_Path (req_URL req) = "" ->
  let req2 := set_Path req (root_path rev) in
  let answer :=
    opening req ++ [HttpRedirect (req_URL req2) StatusPermanentRedirect] ++
    closing logId in
  ServeHTTP rev logId req st = (Returned tt, st, answer) /\
  Forall quiet answer /\
  url_Path (req_URL req2) = root_path rev /\
  root_path rev <> "" /\
  root_path RevA = "/index" /\ root_path RevB = "/" /\
  exists rest,
    trace_of (ServeHTTP rev logId2 req2 st) =
    opening req2 ++ RouterLookup (req_Method req) (root_path rev) :: rest.
Proof.
  intros Hm Hp. cbn zeta.
  split; [by apply ServeHTTP_empty_path|].
  split; [unfold opening, closing; by repeat constructor|].
  split; [done|]. split; [by destruct rev|]. split; [done|]. split; [done|].
  apply (ServeHTTP_reaches_lookup rev logId2 (set_Path req (root_path rev)) st).
  - exact Hm.
  - by destruct rev.
Qed.

End Claims.

(** The cursor stays within the chain.  A context built by dispatch starts
    with the cursor at 0.  From any state with the cursor within
    [0 .. len], a call of [Next], with whatever nested and repeated calls
    the units make, comes to an end with the cursor moved forward and still
    within [0 .. len] and with nothing else of the context changed; every
    unit it calls is [c.middlewares[i]] for an [i] within the chain, so the
    index of [Next] never fails its bounds check; and the only panics are
    those of a unit or of the call of a nil unit, the latter only when the
    chain holds one.  The body of a unit, run from such a state, keeps all
    of this. *)
Theorem cursor_within_chain (h : heap) (c : reqContext) (p : prog)
    (req : Request) (v : routerValue) (ps : list UrlParam) :
  slice_wf h (c_middlewares c) ->
  0 <= c_curMW c <= chain_len c ->
  let good (r : outcome bool * reqContext * list event) :=
    set_curMW (state_of r) 0 = set_curMW c 0 /\
    c_curMW c <= c_curMW (state_of r) <= chain_len c /\
    Forall (unit_event (chain_len c)) (trace_of r) /\
    sound (outcome_of r) /\
    outcome_of r <> Panicking IndexOutOfRange /\
    outcome_of r <> OutOfFuel /\
    (None ∉ slice_elems h (c_middlewares c) ->
     forall q, outcome_of r = Panicking q -> exists val, q = PanicValue val) in
  c_curMW (dispatch_ctx req v ps) = 0 /\
  good (Next h c) /\
  (let r := exec (Next h) p c in
   set_curMW (state_of r) 0 = set_curMW c 0 /\
   c_curMW c <= c_curMW (state_of r) <= chain_len c /\
   Forall (unit_event (chain_len c)) (trace_of r) /\
   sound (outcome_of r)).
Proof.
  intros Hwf Hc. cbn zeta. split; [done|]. split.
  - destruct (Next_kept h c Hwf Hc) as ((Heq & Hcur) & Ht & Ho).
    split; [done|]. split; [lia|]. split; [done|].
    split; [by eapply ended_weaken; [apply chain_panic_unit|]|].
    split; [intros Hp; by rewrite Hp in Ho|].
    split; [intros Hp; by rewrite Hp in Ho|].
    intros Hnil q Hq. rewrite Hq in Ho. simpl in Ho.
    destruct q; try done. by eexists.
  - destruct (exec_kept (between c (c_curMW c)) (unit_event (chain_len c))
                (chain_panic (slice_elems h (c_middlewares c)))
                (fun _ => I) (fun _ => I) (Next h) (Next h)) with (p := p) (s := c)
      as [_ ((Heq & Hcur) & Ht & Ho)].
    + intros s Hs. split; [done|].
      destruct (between_fields _ _ _ Hs) as [Hmw Hlen].
      destruct (Next_kept h s) as ((Heq & Hcur) & Ht & Ho).
      * by rewrite Hmw.
      * destruct Hs as [_ ?]. lia.
      * rewrite Hlen, Hmw in *. split; [|done]. destruct Hs as [Hs1 Hs2].
        split; [congruence | lia].
    + split; [done | lia].
    + split; [done|]. split; [lia|]. split; [done|].
      by eapply ended_weaken; [apply chain_panic_unit|].
Qed.

(** ** The store: what [append] does to slices *)

Lemma slice_wf_in_store h s : slice_wf h s -> slice_in_store h s.
Proof. by intros (? & ? & _). Qed.

Lemma slice_elems_length h s :
  slice_in_store h s -> length (slice_elems h s) = s_len s.
Proof.
  intros [Hlen Harr]. unfold slice_elems.
  rewrite length_take, length_drop. lia.
Qed.

Lemma array_of_insert (h : heap) (s : slice) (a : list Func) :
  length a = length (array_of h s) ->
  default [] (<[s_arr s := a]> h !! s_arr s) = a.
Proof.
  intros Hlen. unfold array_of in Hlen.
  destruct (decide (s_arr s < length h)%nat) as [Hin|Hout].
  - by rewrite list_lookup_insert_eq.
  - rewrite list_insert_ge by lia.
    rewrite lookup_ge_None_2 in * by lia. simpl in *. by destruct a.
Qed.

Lemma inserts_elems (a xs : list Func) (off len : nat) :
  (off + len + length xs <= length a)%nat ->
  take (len + length xs) (drop off (list_inserts (off + len) xs a)) =
  take len (drop off a) ++ xs.
Proof.
  intros Hbound. apply list_eq. intros j.
  destruct (decide (j < len)%nat) as [Hj|Hj].
  - rewrite lookup_take_lt, lookup_drop by lia.
    rewrite list_lookup_inserts_lt by lia.
    rewrite lookup_app_l by (rewrite length_take, length_drop; lia).
    by rewrite lookup_take_lt, lookup_drop by lia.
  - rewrite lookup_app_r by (rewrite length_take, length_drop; lia).
    rewrite length_take, length_drop.
    replace (j - len `min` (length a - off))%nat with (j - len)%nat by lia.
    destruct (decide (j < len + length xs)%nat) as [Hk|Hk].
    + rewrite lookup_take_lt, lookup_drop by lia.
      rewrite list_lookup_inserts by lia. f_equal. lia.
    + rewrite lookup_take_ge by lia. symmetry. apply lookup_ge_None. lia.
Qed.

Section Append.
Context `{Externals}.

(** [append] returns the old elements followed by the new ones. *)
Lemma append_elems h s xs :
  slice_in_store h s ->
  slice_elems (append h s xs).1 (append h s xs).2 = slice_elems h s ++ xs.
Proof.
  intros [Hlen Harr]. unfold append.
  destruct (decide (s_len s + length xs <= s_cap s)%nat) as [Hfit|Hgrow]; simpl.
  - unfold slice_elems at 1, array_of at 1. simpl.
    rewrite array_of_insert by by rewrite length_inserts.
    apply inserts_elems. lia.
  - unfold slice_elems at 1, array_of at 1. simpl.
    rewrite lookup_app_r, Nat.sub_diag by lia. simpl. rewrite drop_0.
    rewrite app_assoc. apply take_app_length'.
    rewrite length_app, slice_elems_length; done.
Qed.

Lemma append_in_store h s xs :
  slice_in_store h s ->
  slice_in_store (append h s xs).1 (append h s xs).2.
Proof.
  intros [Hlen Harr]. unfold append.
  destruct (decide (s_len s + length xs <= s_cap s)%nat) as [Hfit|Hgrow]; simpl.
  - split; simpl; [done|]. unfold array_of at 1. simpl.
    rewrite array_of_insert by by rewrite length_inserts.
    by rewrite length_inserts.
  - split; simpl; [lia|]. unfold array_of at 1. simpl.
    rewrite lookup_app_r, Nat.sub_diag by lia. simpl.
    rewrite !length_app, length_replicate, slice_elems_length by done. lia.
Qed.

(** [append] touches at most the array of the slice, and not even that one
    when it has to grow the slice or has nothing to add. *)
Lemma append_other h s xs i :
  i <> s_arr s -> (i < length h)%nat -> (append h s xs).1 !! i = h !! i.
Proof.
  intros Hne Hi. unfold append.
  destruct (decide (s_len s + length xs <= s_cap s)%nat); simpl.
  - by rewrite list_lookup_insert_ne.
  - by rewrite lookup_app_l.
Qed.

Lemma append_grow_extends h s xs :
  (s_cap s < s_len s + length xs)%nat ->
  heap_extends h (append h s xs).1 /\
  (append h s xs).2 = mkSlice (length h) 0 (s_len s + length xs)
                        (Nat.max (s_len s + length xs)
                                 (growslice (s_cap s) (s_len s + length xs))) /\
  length (append h s xs).1 = S (length h).
Proof.
  intros Hgrow. unfold append. rewrite decide_False by lia. simpl.
  split; [|split; [done|]].
  - intros i Hi. by rewrite lookup_app_l.
  - rewrite length_app. simpl. lia.
Qed.

Lemma append_nothing h s :
  (s_len s <= s_cap s)%nat ->
  (append h s []).1 = h /\ (append h s []).2 = s.
Proof.
  intros Hfit. unfold append. simpl. rewrite Nat.add_0_r.
  rewrite decide_True by done. simpl.
  split; [|by destruct s]. unfold array_of.
  destruct (h !! s_arr s) as [a|] eqn:Ha; simpl.
  - by apply list_insert_id.
  - apply list_insert_ge. by apply lookup_ge_None.
Qed.
End Append.

Lemma heap_extends_length (h h' : heap) :
  heap_extends h h' -> (length h <= length h')%nat.
Proof.
  intros Hext. destruct (decide (length h = 0)%nat) as [|Hne]; [lia|].
  assert (length h - 1 < length h')%nat; [|lia].
  apply lookup_lt_is_Some. rewrite Hext by lia. apply lookup_lt_is_Some. lia.
Qed.

Lemma heap_extends_trans (h1 h2 h3 : heap) :
  heap_extends h1 h2 -> heap_extends h2 h3 -> heap_extends h1 h3.
Proof.
  intros H12 H23 i Hi. pose proof (heap_extends_length _ _ H12).
  rewrite H23 by lia. by apply H12.
Qed.

Lemma heap_extends_slice (h h' : heap) (s : slice) :
  heap_extends h h' -> slice_in_store h s ->
  slice_elems h' s = slice_elems h s /\ slice_in_store h' s.
Proof.
  intros Hext [Hlen Harr]. unfold slice_in_store, slice_elems, array_of in *.
  destruct (h !! s_arr s) as [a|] eqn:Ha.
  - rewrite Hext, Ha by (by eapply lookup_lt_Some). done.
  - simpl in *. assert (s_len s = 0%nat) as -> by lia.
    split; [done|]. split; lia.
Qed.

(** ** Registration, step by step *)

Lemma forallb_not_nil (units : list Func) :
  forallb not_nil units = false <-> None ∈ units.
Proof.
  induction units as [|[g|] rest IH]; simpl.
  - split; [done | by intros ?%elem_of_nil].
  - rewrite IH. split; [by right|]. by intros [?|?]%elem_of_cons.
  - split; [by left | done].
Qed.

Section Registration.
Context `{Externals} {R : Type} `{Router routerValue R}.

(** The whole of [Register]: the handler is appended, the units are
    checked, the router is called, the allowed methods are updated. *)
Lemma Register_run (node : Node) (st : server R) :
  let h1 := (append (store st) (Node_Middlewares node) [Node_Handler node]).1 in
  let mws := (append (store st) (Node_Middlewares node) [Node_Handler node]).2 in
  let call := RouterRegister (Node_Method node) (Node_Path node) mws in
  let am := e_allowedMethods (eng st) in
  Register node st =
  if forallb not_nil (slice_elems h1 mws) then
    match router_Register (e_r (eng st)) (Node_Method node) (Node_Path node)
            (mkRouterValue mws (Node_Path node)) with
    | None => (Panicking RouterPanic, mkServer h1 (eng st), [call])
    | Some r' =>
        (Returned tt,
         mkServer h1 (mkEngine r'
           (if contains (am_s am) (Node_Method node) then am
            else new_allowed (am_s am) (Node_Method node))),
         [call])
    end
  else (Panicking nil_unit_panic, mkServer h1 (eng st), []).
Proof.
  cbn zeta. unfold Register, bind, get, put, emit, raise. simpl.
  destruct (append _ _ _) as [h1 mws]. simpl.
  rewrite check_units_spec.
  destruct (forallb not_nil _); simpl; [|done].
  destruct (router_Register _ _ _ _) as [r'|]; simpl; [|done].
  by destruct (contains _ _).
Qed.

(** A nil unit stops [Register] before the router and the allowed methods
    are touched; what has happened by then is the [append] of the handler. *)
Lemma Register_nil_unit (node : Node) (st : server R) :
  slice_in_store (store st) (Node_Middlewares node) ->
  Node_Handler node = None \/
  None ∈ slice_elems (store st) (Node_Middlewares node) ->
  Register node st =
  (Panicking nil_unit_panic,
   mkServer (append (store st) (Node_Middlewares node) [Node_Handler node]).1 (eng st),
   []).
Proof.
  intros Hin Hnil. rewrite Register_run. cbn zeta.
  rewrite append_elems by done.
  assert (forallb not_nil
            (slice_elems (store st) (Node_Middlewares node) ++ [Node_Handler node])
          = false) as ->; [|done].
  apply forallb_not_nil, elem_of_app.
  destruct Hnil as [->|?]; [right; by left | by left].
Qed.

(** With every unit there, the check raises nothing. *)
Lemma Register_units_ok (node : Node) (st : server R) :
  slice_in_store (store st) (Node_Middlewares node) ->
  Node_Handler node <> None ->
  None ∉ slice_elems (store st) (Node_Middlewares node) ->
  outcome_of (Register node st) <> Panicking nil_unit_panic.
Proof.
  intros Hin Hh Hmw. rewrite Register_run. cbn zeta.
  rewrite append_elems by done.
  destruct (forallb not_nil _) eqn:Hall.
  - by destruct (router_Register _ _ _ _).
  - apply forallb_not_nil, elem_of_app in Hall.
    destruct Hall as [?|Hl%list_elem_of_singleton]; [done | by rewrite <- Hl in Hh].
Qed.
(** When the node's middleware slice has no spare capacity, the [append]
    of an aborted [Register] goes into a fresh array: every array that was
    there is left alone, and every chain of the route table reads as
    before. *)
Lemma Register_abort_no_spare (node : Node) (st : server R) :
  s_cap (Node_Middlewares node) = s_len (Node_Middlewares node) ->
  slice_in_store (store st) (Node_Middlewares node) ->
  Node_Handler node = None \/
  None ∈ slice_elems (store st) (Node_Middlewares node) ->
  let st' := state_of (Register node st) in
  eng st' = eng st /\
  heap_extends (store st) (store st') /\
  forall method path,
    (forall v ps b, router_Lookup (e_r (eng st)) method path = (Some v, ps, b) ->
                    slice_in_store (store st) (rv_middlewares v)) ->
    route_chain st' method path = route_chain st method path.
Proof.
  intros Hcap Hin Hnil. cbn zeta. rewrite Register_nil_unit by done. simpl.
  destruct (append_grow_extends (store st) (Node_Middlewares node) [Node_Handler node])
    as (Hext & _); [simpl; lia|].
  split; [done|]. split; [done|].
  intros method path Hroute. unfold route_chain. simpl.
  destruct (router_Lookup _ _ _) as [[[v|] ps] b]; [|done].
  by destruct (heap_extends_slice _ _ _ Hext (Hroute v ps b eq_refl)) as [-> _].
Qed.
End Registration.

(** ** Groups whose middleware slice has no spare capacity *)

Section GroupChains.
Context `{Externals} {R : Type} `{Router routerValue R}.

Lemma RegisterGroup_children_cons group v rest (st : server R) :
  RegisterGroup_children group (v :: rest) st =
  let a := append (store st) (Group_Middlewares group)
                  (slice_elems (store st) (Node_Middlewares v)) in
  (Register (child_node group v a.2) ;; RegisterGroup_children group rest)
    (mkServer a.1 (eng st)).
Proof.
  cbn [RegisterGroup_children]. unfold bind at 1. unfold get at 1.
  destruct (append _ _ _) as [h1 mws]. cbn zeta. simpl.
  unfold bind at 1. unfold put at 1. fold (child_node group v mws).
  by destruct (bind _ _ _) as [[? ?] ?].
Qed.

(** One child: the two [append]s leave every array that was there alone,
    and the chain they build reads as it should. *)
Lemma child_step group v (h : heap) :
  s_cap (Group_Middlewares group) = s_len (Group_Middlewares group) ->
  slice_in_store h (Group_Middlewares group) ->
  slice_in_store h (Node_Middlewares v) ->
  let a1 := append h (Group_Middlewares group) (slice_elems h (Node_Middlewares v)) in
  let a2 := append a1.1 a1.2 [Node_Handler v] in
  heap_extends h a2.1 /\
  slice_in_store a2.1 a2.2 /\
  slice_elems a2.1 a2.2 =
    slice_elems h (Group_Middlewares group) ++
    slice_elems h (Node_Middlewares v) ++ [Node_Handler v].
Proof.
  intros Hcap Hg Hv. cbn zeta.
  set (C := slice_elems h (Node_Middlewares v)).
  pose proof (append_in_store h (Group_Middlewares group) C Hg) as Hin1.
  pose proof (append_elems h (Group_Middlewares group) C Hg) as Hel1.
  split; [|split].
  - destruct C as [|c C'].
    + destruct (append_nothing h (Group_Middlewares group)) as [-> ->]; [lia|].
      apply append_grow_extends. simpl. lia.
    + destruct (append_grow_extends h (Group_Middlewares group) (c :: C'))
        as (Hext & Hs & Hl); [simpl; lia|].
      intros i Hi. rewrite append_other; [by apply Hext| |lia].
      rewrite Hs. simpl. lia.
  - by apply append_in_store.
  - rewrite append_elems by done. rewrite Hel1. by rewrite <- app_assoc.
Qed.

(** With no spare capacity in the group's middleware slice, a
    [RegisterGroup] that returns has registered every child, in order, under
    the group's prefix followed by the child's path, and in the final store
    every chain reads: the group's middleware, the child's middleware, the
    child's handler. *)
Lemma RegisterGroup_children_chains group (h0 : heap) :
  s_cap (Group_Middlewares group) = s_len (Group_Middlewares group) ->
  slice_in_store h0 (Group_Middlewares group) ->
  forall children (st : server R),
    heap_extends h0 (store st) ->
    Forall (fun v => slice_in_store h0 (Node_Middlewares v)) children ->
    let r := RegisterGroup_children group children st in
    heap_extends (store st) (store (state_of r)) /\
    (outcome_of r = Returned tt ->
     Forall2 (registered_as (store (state_of r)) h0 group) children (trace_of r)).
Proof.
  intros Hcap Hg children.
  induction children as [|v rest IH]; intros st Hext Hch; cbn zeta.
  { split; [done|]. intros _. constructor. }
  apply Forall_cons in Hch as [Hv Hrest].
  destruct (heap_extends_slice h0 (store st) _ Hext Hg) as [Hgel Hgin].
  destruct (heap_extends_slice h0 (store st) _ Hext Hv) as [Hvel Hvin].
  destruct (child_step group v (store st) Hcap Hgin Hvin) as (Hext2 & Hin2 & Hel2).
  rewrite RegisterGroup_children_cons. cbn zeta.
  set (a1 := append (store st) (Group_Middlewares group)
                    (slice_elems (store st) (Node_Middlewares v))) in *.
  unfold bind. rewrite Register_run. cbn zeta. simpl.
  set (a2 := append a1.1 a1.2 [Node_Handler v]) in *.
  destruct (forallb not_nil _); [|done].
  destruct (router_Register _ _ _ _) as [r'|]; [|done].
  match goal with |- context [RegisterGroup_children group rest ?s] =>
    destruct (IH s) as [Hext3 Hall]; [by eapply heap_extends_trans | done |];
    destruct (RegisterGroup_children group rest s) as [[o s3] t3] end.
  simpl in *. split; [by eapply heap_extends_trans|].
  intros Ho. constructor; [|by apply Hall].
  exists a2.2. split; [done|].
  destruct (heap_extends_slice a2.1 (store s3) a2.2 Hext3 Hin2) as [-> _].
  by rewrite Hel2, Hgel, Hvel.
Qed.
End GroupChains.

(** ** C6 and C7: registration and shared backing arrays *)

(** C6 fails on a group whose middleware slice has spare capacity
    ([api_group]: [[L]] with capacity 4, children "/users" with [[M1]], [H1]
    and "/posts" with [[M2]], [H2]).  Both [append]s of the first child
    write into the group's array, and so do those of the second child: in
    the end the route "/api/users" has the chain [[L; M2; H2]] and a request
    for it runs [M2] and [H2]. *)
Theorem RegisterGroup_children_share_array :
  outcome_of (RegisterGroup api_group (mkServer shared_store (eng New))) = Returned tt /\
  route_chain api_server "GET" "/api/users" =
    Some [Some (passing "L"); Some (passing "M2"); Some (final "H2")] /\
  route_chain api_server "GET" "/api/posts" =
    Some [Some (passing "L"); Some (passing "M2"); Some (final "H2")] /\
  writes (trace_of (ServeHTTP RevB "id" (GET "/api/users") api_server)) =
    ["L"; "M2"; "H2"].
Proof. by vm_compute. Qed.

(** C7 fails when the node's middleware slice has spare capacity and shares
    its array with a route registered before ([server_a]: "/a" with [[L]]
    of capacity 2 and handler [HA]).  [Register] of a node with the same
    slice and a nil handler panics and leaves the router and the allowed
    methods alone, but its [append] has by then written the nil handler
    into the shared array: the chain of "/a" has changed from [[L; HA]] to
    [[L; nil]], and a request for "/a" now ends in the call of a nil
    func. *)
Theorem Register_abort_overwrites_shared_chain :
  let r := Register nil_node server_a in
  outcome_of r = Panicking (PanicValue "middleware or handle of a node is nil") /\
  eng (state_of r) = eng server_a /\
  route_chain server_a "GET" "/a" = Some [Some (passing "L"); Some (final "HA")] /\
  route_chain (state_of r) "GET" "/a" = Some [Some (passing "L"); None] /\
  filter is_critical (trace_of (ServeHTTP RevB "id" (GET "/a") (state_of r))) =
    [LogCritical NilFuncCall].
Proof. by vm_compute. Qed.

(** C10.  That [Next] itself never faults fails on the state the aborted
    [Register] of C7 leaves behind, where the chain of "/a" reads
    [[L; nil]].  The context dispatch builds for a request for "/a" has the
    cursor at 0 and a well-formed chain of length 2.  [L] runs and calls
    [Next]: that call, made with the cursor at 1, moves the cursor to 2,
    reads [c.middlewares[1]] within the bounds and calls the nil func it
    finds there.  The panic is raised by [Next], no unit is running, and it
    goes through the outer [Next]; before the aborted [Register] the same
    request ran [L] and [HA] and [Next] returned.  The cursor is within
    [0 .. len] all along. *)
Theorem Next_calls_nil_unit :
  let st := state_of (Register nil_node server_a) in
  let v := mkRouterValue (mkSlice 0 0 2 2) "/a" in
  let c := dispatch_ctx (GET "/a") v [] in
  lookup_of server_a (GET "/a") = (Some v, [], false) /\
  lookup_of st (GET "/a") = (Some v, [], false) /\
  slice_elems (store st) (c_middlewares c) = [Some (passing "L"); None] /\
  slice_wf (store st) (c_middlewares c) /\
  c_curMW c = 0 /\ chain_len c = 2 /\
  Next (store st) (set_curMW c 1) = (Panicking NilFuncCall, set_curMW c 2, []) /\
  Next (store st) c =
    (Panicking NilFuncCall, set_curMW c 2,
     [Invoke (ChainUnit 0) (view_of c); RespAct (Write "L")]) /\
  Next (store server_a) c =
    (Returned true, set_curMW c 2,
     [Invoke (ChainUnit 0) (view_of c); RespAct (Write "L");
      Invoke (ChainUnit 1) (view_of c); RespAct (Write "HA")]).
Proof.
  cbn zeta. repeat split; try reflexivity; vm_compute; (lia || done).
Qed.

(** ** The theorems at work on the sample servers *)

Ltac solve_chain_wf :=
  let Hl := fresh in
  intros ? ? ? Hl; vm_compute in Hl; injection Hl as <- _ _;
  repeat split; vm_compute; (lia || done).

Lemma method_gate_witness :
  ServeHTTP RevB "id" (PUT "/api/users") api_server =
    (Returned tt, api_server,
     [LogTrace (TraceReq (PUT "/api/users"));
      HeaderSet "Allow" "GET"; HttpError "Method Not Allowed" 405;
      HeaderSet "X-Log-Id" "id"; LogTrace TraceResp]).
Proof.
  destruct (method_gate RevB "id" (PUT "/api/users") api_server 1 legacy_server)
    as [Hr _].
  - intros Hm%contains_elem_of. vm_compute in Hm. discriminate.
  - intros Hm%contains_elem_of. vm_compute in Hm. discriminate.
  - exact Hr.
Defined.

Lemma panic_containment_witness :
  outcome_of (ServeHTTP RevB "id" (GET "/boom") boom_server) = Returned tt /\
  filter is_critical (trace_of (ServeHTTP RevB "id" (GET "/boom") boom_server)) =
    [LogCritical (PanicValue "boom")].
Proof.
  destruct (panic_containment RevB "id" (GET "/boom") boom_server 1 legacy_server)
    as [(Ho & _ & Hlog & _) _].
  - solve_chain_wf.
  - split; [exact Ho|].
    eapply Hlog.
    + apply contains_elem_of. reflexivity.
    + discriminate.
    + reflexivity.
    + reflexivity.
Defined.

(** C5, as stated, fails: the lookup of "/a//" on a server with the route
    "/a/" reports a redirect candidate, the answer is a 308 to "/a/", and
    the toggle applied to "/a/" gives "/a", not "/a//". *)
Lemma toggle_twice_strips_two_slashes :
  allows boom_server (GET "/a//") /\
  lookup_of boom_server (GET "/a//") = (None, [], true) /\
  ServeHTTP RevB "id" (GET "/a//") boom_server =
    (Returned tt, boom_server,
     [LogTrace (TraceReq (GET "/a//")); RouterLookup "GET" "/a//";
      HttpRedirect (mkURL "/a/" "") 308;
      HeaderSet "X-Log-Id" "id"; LogTrace TraceResp]) /\
  toggle_slash "/a//" = Some "/a/" /\
  toggle_slash "/a/" = Some "/a" /\
  "/a" <> "/a//".
Proof.
  split; [apply contains_elem_of; reflexivity|]. by repeat split.
Qed.

Lemma trailing_slash_redirect_witness :
  exists path',
    toggle_slash "/api/users/" = Some path' /\
    ServeHTTP RevB "id" (GET "/api/users/") api_server =
      (Returned tt, api_server,
       [LogTrace (TraceReq (GET "/api/users/")); RouterLookup "GET" "/api/users/";
        HttpRedirect (mkURL path' "") 308;
        HeaderSet "X-Log-Id" "id"; LogTrace TraceResp]) /\
    toggle_slash path' = Some "/api/users/".
Proof.
  destruct (trailing_slash_redirect RevB "id" (GET "/api/users/") [] api_server 1
              legacy_server) as (path' & Ht & Hr & _ & _ & _ & Htwice).
  - apply contains_elem_of. reflexivity.
  - apply contains_elem_of. reflexivity.
  - discriminate.
  - reflexivity.
  - reflexivity.
  - exists path'. split; [exact Ht|]. split; [exact Hr|].
    apply Htwice. vm_compute in Ht. injection Ht as <-.
    split; [discriminate|]. intros [_ Hl]. vm_compute in Hl. discriminate.
Defined.

Lemma empty_path_redirect_witness :
  ServeHTTP RevA "id" (GET "") api_server =
    (Returned tt, api_server,
     [LogTrace (TraceReq (GET ""));
      HttpRedirect (mkURL "/index" "") 308;
      HeaderSet "X-Log-Id" "id"; LogTrace TraceResp]).
Proof.
  destruct (empty_path_redirect RevA "id" "id2" (GET "") api_server) as [Hr _].
  - apply contains_elem_of. reflexivity.
  - reflexivity.
  - exact Hr.
Defined.

Lemma cursor_within_chain_witness :
  c_curMW (state_of (Next shared_store sample_ctx)) <= 1 /\
  outcome_of (Next shared_store sample_ctx) <> Panicking IndexOutOfRange.
Proof.
  destruct (cursor_within_chain shared_store sample_ctx Done (GET "/users")
              (mkRouterValue (mkSlice 1 0 1 1) "/users") [])
    as (_ & (_ & Hcur & _ & _ & Hidx & _) & _).
  - repeat split; vm_compute; (lia || done).
  - vm_compute. split; discriminate.
  - split; [apply Hcur | exact Hidx].
Defined.

(** * More properties of the code *)

(** ** The order of the calls in a chain *)

Lemma slice_index_lookup h s i :
  0 <= i < Z.of_nat (s_len s) ->
  slice_index h s i = slice_elems h s !! Z.to_nat i.
Proof.
  intros Hi. unfold slice_index, slice_elems.
  rewrite decide_True by done.
  rewrite lookup_take_lt by lia.
  by rewrite lookup_drop.
Qed.

Lemma exec_Next_free {S} (next : M S bool) (p : prog) (s : S) :
  calls_Next p = false ->
  exec next p s = (own_end p, s, RespAct <$> own_acts p).
Proof.
  induction p as [|k IH|a k IH|v]; intros Hc; simpl in *; try done.
  unfold bind, emit. by rewrite IH.
Qed.

Lemma between_view c0 lo c : between c0 lo c -> view_of c = view_of c0.
Proof.
  intros [E _]. unfold view_of.
  by injection E as -> -> _ ->.
Qed.

Lemma invoked_app t1 t2 : invoked (t1 ++ t2) = invoked t1 ++ invoked t2.
Proof. apply omap_app. Qed.

Lemma views_app t1 t2 : views (t1 ++ t2) = views t1 ++ views t2.
Proof. apply omap_app. Qed.

Lemma actions_app t1 t2 : actions (t1 ++ t2) = actions t1 ++ actions t2.
Proof. apply omap_app. Qed.

Lemma invoked_Invoke i v t : invoked (Invoke (ChainUnit i) v :: t) = i :: invoked t.
Proof. done. Qed.

Lemma views_Invoke f v t : views (Invoke f v :: t) = v :: views t.
Proof. done. Qed.

Section InOrder.
Context (h : heap) (c0 : reqContext).
Hypothesis Hwf : slice_wf h (c_middlewares c0).

Lemma exec_in_order (lo : Z) :
  0 <= lo ->
  (forall s, between c0 lo s -> in_order c0 s (Next h s)) ->
  forall p s, between c0 lo s -> in_order c0 s (exec (Next h) p s).
Proof.
  intros Hlo Hnext p. induction p as [|k IH|a k IH|v]; intros s Hs; simpl.
  - unfold in_order, ret; simpl. split; [|split].
    + destruct Hs as [? ?]. split; [done|lia].
    + by rewrite Z.sub_diag, seqZ_nil.
    + constructor.
  - unfold bind. destruct (Hnext s Hs) as (Hb1 & Hi1 & Hv1).
    destruct (Next h s) as [[[b|q|] s1] t1]; simpl in *; [|done..].
    assert (between c0 lo s1) as Hs1.
    { eapply between_weaken; [|done]. destruct Hs; lia. }
    destruct (IH b s1 Hs1) as (Hb2 & Hi2 & Hv2).
    destruct (exec (Next h) (k b) s1) as [[o2 s2] t2]; simpl in *.
    unfold in_order, trace_of, state_of, outcome_of in *; simpl in *.
    split; [|split].
    + eapply between_weaken; [|done]. destruct Hb1; lia.
    + rewrite app_nil_r in Hi1.
      rewrite invoked_app, <- app_assoc, Hi1, Hi2.
      destruct Hb1 as [_ ?], Hb2 as [_ ?].
      replace (c_curMW s2 - c_curMW s)
        with ((c_curMW s1 - c_curMW s) + (c_curMW s2 - c_curMW s1)) by lia.
      rewrite seqZ_app by lia. do 2 f_equal. lia.
    + rewrite views_app. by apply Forall_app.
  - unfold bind, emit. destruct (IH s Hs) as (Hb2 & Hi2 & Hv2).
    destruct (exec (Next h) k s) as [[o2 s2] t2]; simpl in *. done.
  - unfold in_order, raise; simpl. split; [|split].
    + destruct Hs as [? ?]. split; [done|lia].
    + by rewrite Z.sub_diag, seqZ_nil.
    + constructor.
Qed.

Lemma Next_in_order_aux (n : nat) :
  forall c, between c0 0 c ->
    (Z.to_nat (chain_len c0 - c_curMW c) < n)%nat ->
    in_order c0 c (Next h c).
Proof.
  induction n as [|n IH]; intros c Hc Hn; [lia|].
  destruct (between_fields _ _ _ Hc) as [Hmw Hlen].
  pose proof Hc as [Hc0 Hcur].
  rewrite Next_unfold by (rewrite ?Hmw, ?Hlen; done || lia).
  destruct (decide (c_curMW c >= chain_len c)) as [Hge|Hlt].
  { split; [|split]; simpl.
    - split; [done|lia].
    - by rewrite Z.sub_diag, seqZ_nil.
    - constructor. }
  cbn zeta.
  destruct (slice_index_wf h (c_middlewares c) (c_curMW c)) as [f Hf];
    [by rewrite Hmw | unfold chain_len in *; lia |].
  rewrite Hf.
  set (c1 := set_curMW c (c_curMW c + 1)).
  assert (between c0 (c_curMW c + 1) c1) as Hc1.
  { split; [done|]. simpl. lia. }
  destruct f as [g|]; cycle 1.
  { unfold call_unit, bind, raise, in_order; simpl. split; [|split].
    - eapply between_weaken; [|done]. lia.
    - rewrite seqZ_cons, seqZ_nil by lia. f_equal. lia.
    - constructor. }
  assert (in_order c0 c1 (exec (Next h) (g (view_of c1)) c1)) as (Hb & Hi & Hv).
  { apply (exec_in_order (c_curMW c + 1)); [lia| |done].
    intros s Hs. apply IH.
    - eapply between_weaken; [|done]. lia.
    - destruct Hs as [_ ?]. lia. }
  unfold call_unit, bind, emit, ret.
  destruct (exec (Next h) (g (view_of c1)) c1) as [[[[]|q|] s2] t2]; simpl in *.
  all: unfold in_order, trace_of, state_of, outcome_of in *; simpl in *.
  all: rewrite ?app_nil_r, ?invoked_Invoke, ?views_Invoke.
  all: split; [|split].
  all: try (eapply between_weaken; [|done]; lia).
  all: try (destruct Hb as [_ ?]; rewrite (seqZ_cons (c_curMW c)) by lia;
            f_equal; rewrite ?app_nil_r in *; rewrite Hi; f_equal; lia).
  all: constructor; [by rewrite (between_view _ _ _ Hc1)|done].
Qed.

Lemma Next_in_order c :
  between c0 0 c -> in_order c0 c (Next h c).
Proof.
  intros Hc.
  apply (Next_in_order_aux (S (Z.to_nat (chain_len c0 - c_curMW c)))); [done|lia].
Qed.
End InOrder.

(** ** Wrappers and units without [Next] *)

Lemma actions_fmap (l : list action) : actions (RespAct <$> l) = l.
Proof.
  induction l as [|a l IH]; [done|].
  change (actions (RespAct <$> a :: l)) with (a :: actions (RespAct <$> l)).
  by rewrite IH.
Qed.

Lemma invoked_fmap (l : list action) : invoked (RespAct <$> l) = [].
Proof. by induction l. Qed.

Lemma exec_acts {S} (next : M S bool) (l : list action) (k : prog) (s : S) :
  exec next (acts l k) s =
  (outcome_of (exec next k s), state_of (exec next k s),
   (RespAct <$> l) ++ trace_of (exec next k s)).
Proof.
  induction l as [|a l IH]; simpl.
  - by destruct (exec next k s) as [[? ?] ?].
  - unfold bind, emit. by rewrite IH.
Qed.

(** A unit that does not call [Next] is the last one its call of [Next]
    runs. *)
Lemma Next_Next_free h c (g : HandlerFunc) :
  slice_wf h (c_middlewares c) ->
  0 <= c_curMW c ->
  slice_elems h (c_middlewares c) !! Z.to_nat (c_curMW c) = Some (Some g) ->
  calls_Next (g (view_of c)) = false ->
  Next h c =
  (after_unit (own_end (g (view_of c))), set_curMW c (c_curMW c + 1),
   Invoke (ChainUnit (c_curMW c)) (view_of c) :: (RespAct <$> own_acts (g (view_of c)))).
Proof.
  intros Hwf Hcur Hg Hfree.
  assert (c_curMW c < chain_len c) as Hlt.
  { apply lookup_lt_Some in Hg.
    rewrite slice_elems_length in Hg by by apply slice_wf_in_store.
    unfold chain_len. lia. }
  rewrite Next_unfold by (done || lia).
  rewrite decide_False by lia. cbn zeta.
  rewrite slice_index_lookup by (unfold chain_len in Hlt; lia).
  unfold Func in *. rewrite Hg. unfold call_unit, bind, emit, ret.
  change (view_of (set_curMW c (c_curMW c + 1))) with (view_of c).
  rewrite exec_Next_free by done.
  destruct (own_end (g (view_of c))) as [[]|q|]; simpl; by rewrite ?app_nil_r.
Qed.

Lemma drop_cons_inv {A} (l : list A) n x rest :
  drop n l = x :: rest -> l !! n = Some x /\ drop (S n) l = rest.
Proof.
  intros Hd.
  assert (l !! n = Some x) as Hx.
  { rewrite <- (Nat.add_0_r n), <- lookup_drop. by rewrite Hd. }
  split; [done|]. apply drop_S in Hx. congruence.
Qed.

Lemma Next_onion h ws (hf : HandlerFunc) :
  forall c,
    slice_wf h (c_middlewares c) ->
    0 <= c_curMW c ->
    drop (Z.to_nat (c_curMW c)) (slice_elems h (c_middlewares c)) =
      ((fun w => Some (wrap w)) <$> ws) ++ [Some hf] ->
    calls_Next (hf (view_of c)) = false ->
    Next h c =
    (after_unit (own_end (hf (view_of c))),
     set_curMW c (c_curMW c + Z.of_nat (length ws) + 1),
     onion (view_of c) (c_curMW c) ws hf).
Proof.
  induction ws as [|w ws IH]; intros c Hwf Hcur Hd Hfree; simpl in *.
  - apply drop_cons_inv in Hd as [Hg _].
    rewrite (Next_Next_free h c hf) by done. do 2 f_equal. f_equal. lia.
  - apply drop_cons_inv in Hd as [Hg Hd].
    assert (c_curMW c < chain_len c) as Hlt.
    { apply lookup_lt_Some in Hg.
      rewrite slice_elems_length in Hg by by apply slice_wf_in_store.
      unfold chain_len. lia. }
    rewrite Next_unfold by (done || lia).
    rewrite decide_False by lia. cbn zeta.
    rewrite slice_index_lookup by (unfold chain_len in Hlt; lia).
    unfold Func in *. rewrite Hg. unfold call_unit.
    set (c1 := set_curMW c (c_curMW c + 1)).
    change (view_of c1) with (view_of c).
    specialize (IH c1). simpl in IH.
    rewrite Z2Nat.inj_add in IH by lia.
    rewrite Nat.add_1_r in IH.
    specialize (IH Hwf ltac:(lia) Hd Hfree).
    change (view_of c1) with (view_of c) in IH.
    set (c2 := set_curMW c (c_curMW c + Z.of_nat (S (length ws)) + 1)).
    assert (set_curMW c1 (c_curMW c + 1 + Z.of_nat (length ws) + 1) = c2) as Hc2.
    { unfold c1, c2, set_curMW. cbn [c_req c_pathParam c_middlewares c_matchPath].
      f_equal. lia. }
    rewrite Hc2 in IH.
    assert (exec (Next h) (CallNext (fun b => acts (w_after w (view_of c) b) Done)) c1 =
            (own_end (hf (view_of c)), c2,
             onion (view_of c) (c_curMW c + 1) ws hf ++
             match own_end (hf (view_of c)) with
             | Returned _ => RespAct <$> w_after w (view_of c) true
             | _ => []
             end)) as Hinner.
    { simpl. unfold bind. rewrite IH.
      destruct (own_end (hf (view_of c))) as [[]|q|]; simpl; rewrite ?app_nil_r; try done.
      rewrite exec_acts. simpl. by rewrite app_nil_r. }
    unfold bind, emit, ret, wrap.
    rewrite exec_acts, Hinner. simpl.
    destruct (own_end (hf (view_of c))) as [[]|q|]; simpl; by rewrite ?app_nil_r.
Qed.

Lemma actions_onion v i ws hf :
  actions (onion v i ws hf) =
  concat ((fun w => w_before w v) <$> ws) ++ own_acts (hf v) ++
  match own_end (hf v) with
  | Returned _ => concat (reverse ((fun w => w_after w v true) <$> ws))
  | _ => []
  end.
Proof.
  revert i. induction ws as [|w ws IH]; intros i; simpl.
  - change (actions (Invoke (ChainUnit i) v :: ?t)) with (actions t).
    rewrite actions_fmap. by destruct (own_end (hf v)); rewrite app_nil_r.
  - change (actions (Invoke (ChainUnit i) v :: ?t)) with (actions t).
    rewrite !actions_app, actions_fmap, IH, <- !app_assoc.
    do 2 f_equal. destruct (own_end (hf v)); simpl; rewrite ?app_nil_r; try done.
    by rewrite actions_fmap, reverse_cons, concat_app; simpl; rewrite app_nil_r.
Qed.

Lemma invoked_onion v i ws hf :
  invoked (onion v i ws hf) = seqZ i (Z.of_nat (length ws) + 1).
Proof.
  revert i. induction ws as [|w ws IH]; intros i.
  - cbn [onion]. rewrite invoked_Invoke, invoked_fmap.
    cbn [length]. rewrite seqZ_cons by lia. by rewrite seqZ_nil by lia.
  - cbn [onion]. rewrite invoked_Invoke, !invoked_app, invoked_fmap, IH.
    replace (invoked match own_end (hf v) with
                     | Returned _ => RespAct <$> w_after w v true
                     | _ => []
                     end) with (@nil Z)
      by (destruct (own_end (hf v)); by rewrite ?invoked_fmap).
    rewrite app_nil_r. cbn [length app].
    rewrite (seqZ_cons i) by lia. do 2 f_equal; lia.
Qed.

(** ** Routed requests *)

Lemma seqZ_snoc_inv (l : list Z) x m n :
  l ++ [x] = seqZ m n -> l = seqZ m (n - 1) /\ 0 < n.
Proof.
  intros Hl. destruct (decide (n <= 0)) as [Hn|Hn].
  { rewrite seqZ_nil in Hl by done. by destruct l. }
  split; [|lia].
  replace n with (Z.of_nat (S (Z.to_nat (n - 1)))) in Hl by lia.
  rewrite seqZ_S in Hl. apply app_inj_tail in Hl as [-> _]. f_equal. lia.
Qed.

Lemma recovered_after_unit (o : outcome unit) : recovered (after_unit o) = recovered o.
Proof. by destruct o. Qed.

Section ChainRuns.
Context `{Externals} {R : Type} `{Router routerValue R}.

Lemma routed_serve rev logId req (st : server R) v ps units :
  routed st req v ps units ->
  let r := Next (store st) (dispatch_ctx req v ps) in
  ServeHTTP rev logId req st =
  (Returned tt, st, served rev logId req v ps (outcome_of r) (trace_of r)).
Proof.
  intros (Hm & Hp & [b Hl] & Hwf & _). cbn zeta.
  destruct (dispatch_chain_kept (store st) req v ps Hwf) as [_ Ho].
  destruct (Next (store st) (dispatch_ctx req v ps)) as [[o c] t] eqn:Hn.
  simpl in *. apply (ServeHTTP_chain rev logId req st v ps b o c t); try done.
  by intros ->.
Qed.

Lemma invoked_served {A} rev logId req v ps (o : outcome A) t :
  invoked (served rev logId req v ps o t) = invoked t.
Proof.
  unfold served. rewrite !invoked_app.
  destruct rev, o as [?|?|]; simpl; by rewrite ?app_nil_r.
Qed.

Lemma views_served {A} rev logId req v ps (o : outcome A) t :
  views (served rev logId req v ps o t) = views t.
Proof.
  unfold served. rewrite !views_app.
  destruct rev, o as [?|?|]; simpl; by rewrite ?app_nil_r.
Qed.

Lemma actions_served {A} rev logId req v ps (o : outcome A) t :
  actions (served rev logId req v ps o t) = actions t.
Proof.
  unfold served. rewrite !actions_app.
  destruct rev, o as [?|?|]; simpl; by rewrite ?app_nil_r.
Qed.

Lemma critical_served {A} rev logId req v ps (o : outcome A) t :
  Forall call_event t ->
  filter is_critical (served rev logId req v ps o t) = recovered o.
Proof.
  intros Ht. unfold served.
  rewrite !filter_app, filter_critical_match, (filter_critical_calls t Ht).
  by destruct o.
Qed.

Lemma dispatch_in_order (st : server R) req v ps units c :
  routed st req v ps units ->
  between (dispatch_ctx req v ps) 0 c ->
  in_order (dispatch_ctx req v ps) c (Next (store st) c).
Proof.
  intros (_ & _ & _ & Hwf & _) Hc. by apply Next_in_order.
Qed.

(** X1.  The units of a chain are called in chain order, each at most once.
    Whatever the units do with [Next] (call it once, several times or not
    at all), a call of [Next] from a state of a routed request calls the
    units the cursor passes and no others: those at the indices [cur],
    [cur + 1], ... in this order, up to where it leaves the cursor.  A nil
    unit is the one exception: the cursor passes it, nothing is called and
    the run ends there.  For the whole request the units called are those
    at 0, 1, ..., k - 1 for some [k] up to the length of the chain. *)
Theorem units_called_in_order rev logId req (st : server R) v ps units c :
  routed st req v ps units ->
  between (dispatch_ctx req v ps) 0 c ->
  let r := Next (store st) c in
  (exists k,
     invoked (trace_of r) = seqZ (c_curMW c) k /\ 0 <= k /\
     c_curMW (state_of r) <= Z.of_nat (length units) /\
     (c_curMW c + k = c_curMW (state_of r) \/
      c_curMW c + k + 1 = c_curMW (state_of r) /\
      outcome_of r = Panicking NilFuncCall) /\
     (None ∉ units -> c_curMW c + k = c_curMW (state_of r))) /\
  (exists k,
     invoked (trace_of (ServeHTTP rev logId req st)) = seqZ 0 k /\
     0 <= k <= Z.of_nat (length units)).
Proof.
  intros Hr Hc. cbn zeta.
  assert (forall c', between (dispatch_ctx req v ps) 0 c' ->
    let r := Next (store st) c' in
    exists k,
      invoked (trace_of r) = seqZ (c_curMW c') k /\ 0 <= k /\
      c_curMW (state_of r) <= Z.of_nat (length units) /\
      (c_curMW c' + k = c_curMW (state_of r) \/
       c_curMW c' + k + 1 = c_curMW (state_of r) /\
       outcome_of r = Panicking NilFuncCall) /\
      (None ∉ units -> c_curMW c' + k = c_curMW (state_of r))) as Hgen.
  { intros c' Hc'. cbn zeta.
    destruct (dispatch_in_order st req v ps units c' Hr Hc') as ([_ Hb] & Hi & _).
    destruct Hr as (_ & _ & _ & Hwf & Hu).
    assert (chain_len (dispatch_ctx req v ps) = Z.of_nat (length units)) as Hlen.
    { rewrite <- Hu, slice_elems_length by by apply slice_wf_in_store. done. }
    destruct (between_fields _ _ _ Hc') as [Hmw Hlen'].
    destruct (Next_kept (store st) c') as (_ & _ & Ho).
    { by rewrite Hmw. }
    { destruct Hc' as [_ ?]. lia. }
    rewrite Hmw in Ho. simpl in Ho. rewrite Hu in Ho.
    destruct (Next (store st) c') as [[o s] t]; simpl in *.
    destruct o as [b|q|]; simpl in *; [| |done].
    - rewrite app_nil_r in Hi. eexists. split; [done|].
      split; [lia|]. split; [lia|]. split; [left|]; lia.
    - destruct q; simpl in *; try done.
      + rewrite app_nil_r in Hi. eexists. split; [done|].
        split; [lia|]. split; [lia|]. split; [left|]; lia.
      + apply seqZ_snoc_inv in Hi as [Hi Hk]. eexists. split; [done|].
        split; [lia|]. split; [lia|]. split; [right; split; [lia|done]|done]. }
  split; [by apply Hgen|].
  rewrite (routed_serve rev logId req st v ps units Hr). simpl.
  rewrite invoked_served.
  destruct (Hgen (dispatch_ctx req v ps)) as (k & Hk & ? & ? & Hend & _).
  { apply between_refl. simpl. unfold chain_len. simpl. lia. }
  exists k. split; [done|]. simpl in *. lia.
Qed.

(** X2.  [GetReq], [GetParamParam] and [GetMatchPath] (part_000, lines
    205-219 and 435-449) answer every unit of a routed request alike, at
    whatever depth of nested [Next] calls it runs: with the request as
    [ServeHTTP] received it, the parameters the router returned, and the
    path that was stored with the route. *)
Theorem units_see_the_route rev logId req (st : server R) v ps units :
  routed st req v ps units ->
  Forall (eq (mkView req ps (rv_matchPath v)))
         (views (trace_of (ServeHTTP rev logId req st))).
Proof.
  intros Hr.
  rewrite (routed_serve rev logId req st v ps units Hr). simpl.
  rewrite views_served.
  destruct (dispatch_in_order st req v ps units (dispatch_ctx req v ps) Hr)
    as (_ & _ & Hv); [|done].
  apply between_refl. simpl. unfold chain_len. simpl. lia.
Qed.

(** X3.  A first unit that ends without a call of [Next] ends the chain:
    it is the only unit called, whatever follows it in the chain, and
    [ServeHTTP] goes on to its deferred functions (the critical record if
    the unit panicked, then the log-id header and the response record). *)
Theorem unit_without_Next_ends_chain rev logId req (st : server R) v ps
    (g : HandlerFunc) rest :
  routed st req v ps (Some g :: rest) ->
  let view := mkView req ps (rv_matchPath v) in
  calls_Next (g view) = false ->
  ServeHTTP rev logId req st =
  (Returned tt, st,
   served rev logId req v ps (own_end (g view))
     (Invoke (ChainUnit 0) view :: (RespAct <$> own_acts (g view)))).
Proof.
  intros Hr view Hfree.
  rewrite (routed_serve rev logId req st v ps _ Hr). cbn zeta.
  destruct Hr as (_ & _ & _ & Hwf & Hu).
  rewrite (Next_Next_free (store st) (dispatch_ctx req v ps) g); try done.
  - simpl. unfold served. by rewrite recovered_after_unit.
  - simpl. by rewrite Hu.
Qed.

(** X4.  A chain of wrappers around a handler runs like an onion.  When
    every middleware acts, calls [Next] once and acts again, and the handler
    returns without a call of [Next]: the parts before [Next] run in chain
    order, then the handler, then the parts after [Next] in reverse chain
    order; every wrapper gets true from its [Next]; every unit is called
    once. *)
Theorem middleware_onion rev logId req (st : server R) v ps ws (hf : HandlerFunc) :
  routed st req v ps (((fun w => Some (wrap w)) <$> ws) ++ [Some hf]) ->
  let view := mkView req ps (rv_matchPath v) in
  let t := trace_of (ServeHTTP rev logId req st) in
  calls_Next (hf view) = false ->
  own_end (hf view) = Returned tt ->
  ServeHTTP rev logId req st =
    (Returned tt, st,
     opening req ++ [RouterLookup (req_Method req) (url_Path (req_URL req))] ++
     match_events rev v ps ++ onion view 0 ws hf ++ closing logId) /\
  actions t =
    concat ((fun w => w_before w view) <$> ws) ++ own_acts (hf view) ++
    concat (reverse ((fun w => w_after w view true) <$> ws)) /\
  invoked t = seqZ 0 (Z.of_nat (length ws) + 1).
Proof.
  intros Hr view t Hfree Hend. subst t.
  rewrite (routed_serve rev logId req st v ps _ Hr). cbn zeta.
  pose proof Hr as (_ & _ & _ & Hwf & Hu).
  rewrite (Next_onion (store st) ws hf (dispatch_ctx req v ps)); try done.
  change (view_of (dispatch_ctx req v ps)) with view. simpl.
  split; [|split].
  - unfold served. by rewrite Hend.
  - rewrite actions_served, actions_onion. by rewrite Hend.
  - by rewrite invoked_served, invoked_onion.
Qed.
(** X5.  When the handler of such a chain panics, nothing of what the
    wrappers do after [Next] happens: the response has seen the parts before
    [Next] and what the handler did before it panicked, [ServeHTTP] returns,
    and the panic is logged once. *)
Theorem handler_panic_skips_after_parts rev logId req (st : server R) v ps ws
    (hf : HandlerFunc) q :
  routed st req v ps (((fun w => Some (wrap w)) <$> ws) ++ [Some hf]) ->
  let view := mkView req ps (rv_matchPath v) in
  let r := ServeHTTP rev logId req st in
  calls_Next (hf view) = false ->
  own_end (hf view) = Panicking q ->
  outcome_of r = Returned tt /\
  actions (trace_of r) =
    concat ((fun w => w_before w view) <$> ws) ++ own_acts (hf view) /\
  filter is_critical (trace_of r) = [LogCritical q].
Proof.
  intros Hr view r Hfree Hend. subst r.
  rewrite (routed_serve rev logId req st v ps _ Hr). cbn zeta.
  pose proof Hr as (_ & _ & _ & Hwf & Hu).
  destruct (dispatch_chain_kept (store st) req v ps Hwf) as [Ht _].
  rewrite (Next_onion (store st) ws hf (dispatch_ctx req v ps)) in *; try done.
  change (view_of (dispatch_ctx req v ps)) with view in *. simpl in *.
  split; [done|]. split.
  - rewrite actions_served, actions_onion. rewrite Hend. by rewrite app_nil_r.
  - rewrite critical_served; [by rewrite Hend|].
    eapply Forall_impl; [done|]. apply unit_event_call.
Qed.
End ChainRuns.

(** ** The first engine *)

Lemma exec_handler_run {S} (p : Legacy.hprog) (s : S) :
  Legacy.exec_handler p s = (handler_end p, s, RespAct <$> handler_acts p).
Proof.
  induction p as [|a k IH|v]; simpl; try done.
  unfold bind, emit. by rewrite IH.
Qed.

Lemma exec_stuck_trace {S} (next : M S bool) (p : prog) (s : S) t :
  calls_Next p = true ->
  next s = (OutOfFuel, s, t) ->
  exec next p s = (OutOfFuel, s, (RespAct <$> own_acts p) ++ t).
Proof.
  induction p as [|k IH|a k IH|v]; intros Hc Hn; simpl in *; try done.
  - unfold bind. by rewrite Hn.
  - unfold bind, emit. by rewrite IH.
Qed.

Lemma Forall_only_calls_acts f v (l : list action) :
  Forall (only_calls f v) (RespAct <$> l).
Proof. induction l; by constructor. Qed.

Lemma Legacy_Next_first (n : nat) (c : Legacy.engineContext) mw rest :
  Legacy.c_curMW c = mw :: rest ->
  Forall (only_calls (Middleware (length rest)) (Legacy.view_of c))
         (trace_of (Legacy.Next_fuel n c)).
Proof.
  intros Hcur. induction n as [|n IH]; [constructor|].
  rewrite Legacy_Next_fuel_S, Hcur. destruct mw as [g|]; cycle 1.
  { unfold call_unit, bind, raise. simpl. constructor. }
  destruct (calls_Next (g (Legacy.view_of c))) eqn:Hg.
  - destruct (Legacy_Next_reentrant n c g rest Hcur Hg) as [t Ht].
    rewrite Ht in IH. simpl in IH.
    unfold call_unit, bind, emit.
    rewrite (exec_stuck_trace _ _ _ t Hg Ht). simpl.
    constructor; [done|]. apply Forall_app. split; [|done].
    apply Forall_only_calls_acts.
  - unfold call_unit, bind, emit, get, put, ret.
    rewrite exec_Next_free by done.
    destruct (own_end _) as [[]|q|]; simpl; rewrite ?Hcur; simpl;
      rewrite ?app_nil_r; (constructor; [done|]); apply Forall_only_calls_acts.
Qed.

Section LegacyRuns.
Context `{Externals} {R : Type} `{Router (option Legacy.Handler) R}.

Lemma Legacy_ServeHTTP_Forall (T : event -> Prop) fuel logId req (e : Legacy.engine R) :
  (forall ev, ~ call_event ev -> T ev) ->
  (forall c, legacy_ctx e req = Some c ->
             Forall T (trace_of (Legacy.Next_fuel fuel c))) ->
  Forall T (trace_of (Legacy.ServeHTTP fuel logId req e)).
Proof.
  intros HT Hchain.
  assert (forall l, Forall (fun ev => ~ call_event ev) l -> Forall T l) as HT'.
  { intros l Hl. eapply Forall_impl; [done|]. apply HT. }
  destruct (decide (req_Method req ∈ am_s (Legacy.e_allowedMethods e))) as [Hm|Hm];
    cycle 1.
  { rewrite Legacy_ServeHTTP_not_allowed by done. simpl.
    apply HT'. repeat constructor; by intros []. }
  pose proof Hm as Hm'%contains_elem_of.
  destruct (decide (url_Path (req_URL req) = "")) as [Hp|Hp].
  { unfold Legacy.ServeHTTP, defer, bind, get, emit. simpl.
    unfold legacy_allows in Hm'. rewrite Hm'. simpl. rewrite Hp. simpl.
    apply HT'. repeat constructor; by intros []. }
  destruct (legacy_ctx e req) as [c|] eqn:Hc.
  - destruct (Legacy.Next_fuel fuel c) as [[o s] t] eqn:Hn.
    specialize (Hchain c eq_refl). rewrite Hn in Hchain. simpl in Hchain.
    rewrite (Legacy_ServeHTTP_chain fuel logId req e c o s t) by done. simpl.
    constructor; [by apply HT; intros []|].
    constructor; [by apply HT; intros []|].
    apply Forall_app. split; [done|].
    apply HT'. destruct o as [b|q|]; simpl; repeat constructor; by intros [].
  - unfold legacy_ctx, legacy_lookup in Hc.
    unfold Legacy.ServeHTTP, defer, bind, get, emit. simpl.
    unfold legacy_allows in Hm'. rewrite Hm'. simpl.
    rewrite decide_False by done.
    destruct (toggle_slash_is_Some _ Hp) as [path' Ht]. rewrite Ht.
    destruct (router_Lookup _ _ _) as [[[[handler|]|] ps] [|]]; simpl; try done.
    all: apply HT'; repeat constructor; by intros [].
Qed.

Lemma Legacy_ServeHTTP_no_handler fuel logId req (e : Legacy.engine R) o ps b :
  legacy_allows e req ->
  url_Path (req_URL req) <> "" ->
  legacy_lookup e req = (o, ps, b) ->
  o = None \/ o = Some None ->
  exists path', toggle_slash (url_Path (req_URL req)) = Some path' /\
    Legacy.ServeHTTP fuel logId req e =
    (Returned tt, e,
     opening req ++
     [RouterLookup (req_Method req) (url_Path (req_URL req));
      if b then HttpRedirect (req_URL (set_Path req path')) StatusPermanentRedirect
      else HttpNotFound] ++
     closing logId).
Proof.
  intros Hm%contains_elem_of Hp Hl Ho. unfold legacy_allows, legacy_lookup in *.
  destruct (toggle_slash_is_Some _ Hp) as [path' Ht]. exists path'. split; [done|].
  unfold Legacy.ServeHTTP, defer, bind, get, emit. simpl. rewrite Hm. simpl.
  rewrite decide_False by done. rewrite Hl, Ht.
  by destruct Ho as [-> | ->], b.
Qed.

(** X13.  In the first engine only the first middleware is ever called
    (by middlewares that keep no state between two calls, as units are
    modelled).  [Next] moves [curMW] after the middleware has returned, so
    a nested call of [Next] runs the same middleware again; and a
    middleware that does not call [Next] ends the request.  Either way,
    once the engine has a middleware no request reaches a later middleware
    or the route's handler (server.go, lines 97-104 and 161-169). *)
Theorem legacy_only_first_middleware_runs fuel logId req (e : Legacy.engine R) mw rest :
  Legacy.e_middlewares e = mw :: rest ->
  Forall (fun ev => forall f w, ev = Invoke f w -> f = Middleware (length rest))
         (trace_of (Legacy.ServeHTTP fuel logId req e)).
Proof.
  intros He. apply Legacy_ServeHTTP_Forall.
  - intros ev Hev f w ->. by destruct Hev.
  - intros c Hc. unfold legacy_ctx in Hc.
    destruct (legacy_lookup e req) as [[[[handler|]|] ps] b]; try done.
    injection Hc as <-.
    eapply Forall_impl; [by apply (Legacy_Next_first fuel _ mw rest)|].
    intros ev Hev f w ->. by destruct Hev.
Qed.

(** X14.  In the first engine without a middleware a request whose route
    has a handler calls that handler once, with the request as received and
    the parameters of the lookup; a panic of the handler is recovered and
    logged, and the log-id header and the response record follow. *)
Theorem legacy_handler_called_directly fuel logId req (e : Legacy.engine R)
    handler ps b :
  Legacy.e_middlewares e = [] ->
  legacy_allows e req ->
  url_Path (req_URL req) <> "" ->
  legacy_lookup e req = (Some (Some handler), ps, b) ->
  Legacy.ServeHTTP (S fuel) logId req e =
  (Returned tt, e,
   opening req ++
   [RouterLookup (req_Method req) (url_Path (req_URL req));
    Invoke RouteHandler (mkView req ps "")] ++
   (RespAct <$> handler_acts (handler req ps)) ++
   recovered (handler_end (handler req ps)) ++ closing logId).
Proof.
  intros He Hm Hp Hl.
  set (c := Legacy.mkCtx req ps handler []).
  assert (legacy_ctx e req = Some c) as Hc.
  { unfold legacy_ctx. by rewrite Hl, He. }
  assert (Legacy.Next_fuel (S fuel) c =
          (match handler_end (handler req ps) with
           | Returned _ => Returned false
           | Panicking q => Panicking q
           | OutOfFuel => OutOfFuel
           end, c,
           Invoke RouteHandler (mkView req ps "") ::
           (RespAct <$> handler_acts (handler req ps)))) as Hn.
  { rewrite Legacy_Next_fuel_S. simpl. unfold bind, emit, ret.
    rewrite exec_handler_run.
    destruct (handler_end (handler req ps)) as [[]|q|]; simpl; by rewrite ?app_nil_r. }
  rewrite (Legacy_ServeHTTP_chain (S fuel) logId req e c _ _ _ Hm Hp Hc Hn).
  assert (handler_end (handler req ps) <> OutOfFuel) as Hend.
  { generalize (handler req ps). intros p. by induction p. }
  destruct (handler_end (handler req ps)) as [[]|q|]; simpl; try done.
Qed.

End LegacyRuns.

(** ** The branches of [ServeHTTP] *)

Lemma toggle_slash_changes p q : toggle_slash p = Some q -> q <> p.
Proof.
  unfold toggle_slash. destruct (last_byte p) as [b|] eqn:Hb; [|done].
  intros [= <-] Heq. apply (f_equal String.length) in Heq.
  destruct (Ascii.eqb b "/") eqn:Hs.
  - apply Ascii.eqb_eq in Hs as ->.
    apply but_last_last in Hb. apply (f_equal String.length) in Hb.
    rewrite app_slash_length in Hb. lia.
  - rewrite app_slash_length in Heq. lia.
Qed.

Lemma elem_of_new_allowed m s method :
  m ∈ am_s (new_allowed s method) <-> m ∈ s \/ m = method.
Proof.
  unfold new_allowed. simpl.
  by rewrite sort_Strings_Permutation, elem_of_app, list_elem_of_singleton.
Qed.

Ltac no_elem H :=
  repeat (apply elem_of_cons in H as [H|H]; [done|]); by apply elem_of_nil in H.

Lemma redirect_in_mid req logId `{Externals} (mid : list event) u code :
  HttpRedirect u code ∈ opening req ++ mid ++ closing logId ->
  HttpRedirect u code ∈ mid.
Proof.
  rewrite !elem_of_app. intros [Hin|[Hin|Hin]]; [|done|].
  - unfold opening in Hin. no_elem Hin.
  - unfold closing in Hin. no_elem Hin.
Qed.

Section BranchFacts.
Context `{Externals} {R : Type} `{Router routerValue R}.
Context {R' : Type} `{Router (option Legacy.Handler) R'}.

Lemma ServeHTTP_branch rev logId req (st : server R) :
  chain_wf st req ->
  exists mid,
    branch_of rev st req mid /\
    ServeHTTP rev logId req st = (Returned tt, st, opening req ++ mid ++ closing logId).
Proof.
  intros Hwf. unfold chain_wf in Hwf.
  destruct (decide (req_Method req ∈ am_s (allowed_of st))) as [Hm|Hm]; cycle 1.
  { eexists. split; [by apply br_not_allowed|]. by apply ServeHTTP_not_allowed. }
  destruct (decide (url_Path (req_URL req) = "")) as [Hp|Hp].
  { eexists. split; [by apply br_empty_path|]. by apply ServeHTTP_empty_path. }
  destruct (lookup_of st req) as [[[v|] ps] b] eqn:Hl.
  - destruct (dispatch_chain_kept (store st) req v ps (Hwf _ _ _ eq_refl))
      as [Ht Ho].
    destruct (Next (store st) (dispatch_ctx req v ps)) as [[o c] t] eqn:Hn.
    simpl in Ht, Ho.
    assert (o <> OutOfFuel) as Hfuel by by intros ->.
    eexists. split.
    + eapply (br_chain rev st req v ps b o c t); try done.
      eapply Forall_impl; [done|]. apply unit_event_call.
    + rewrite (ServeHTTP_chain rev logId req st v ps b o c t Hm Hp Hl Hn Hfuel).
      by rewrite <- !app_assoc.
  - destruct b.
    + destruct (ServeHTTP_redirect rev logId req st ps Hm Hp Hl) as (path' & Ht & ->).
      eexists. split; [by eapply br_redirect|done].
    + eexists. split; [by eapply br_not_found|].
      by eapply ServeHTTP_not_found.
Qed.

Lemma filter_answer_calls (t : list event) :
  Forall call_event t -> filter is_answer t = [].
Proof.
  induction 1 as [|e t He _ IH]; [done|].
  rewrite filter_cons, IH. by destruct e.
Qed.

Lemma Register_allows (node : Node) (st : server R) m :
  m ∈ am_s (allowed_of (state_of (Register node st))) <->
  m ∈ am_s (allowed_of st) \/
  (m = Node_Method node /\ outcome_of (Register node st) = Returned tt).
Proof.
  rewrite Register_run. cbn zeta. unfold allowed_of.
  destruct (forallb _ _); cycle 1.
  { simpl. split; [by left|]. by intros [?|[_ ?]]. }
  destruct (router_Register _ _ _ _) as [r'|]; cycle 1.
  { simpl. split; [by left|]. by intros [?|[_ ?]]. }
  simpl. destruct (contains _ _) eqn:Hc.
  - apply contains_elem_of in Hc. split; [by left|]. by intros [?|[-> _]].
  - rewrite elem_of_new_allowed. split; (intros [?|?]; [by left|right]); tauto.
Qed.

Lemma Legacy_Register_allows method path handle (e : Legacy.engine R') m :
  let r := Legacy.Register method path handle e in
  m ∈ am_s (Legacy.e_allowedMethods (state_of r)) <->
  m ∈ am_s (Legacy.e_allowedMethods e) \/ (m = method /\ outcome_of r = Returned tt).
Proof.
  cbn zeta. unfold Legacy.Register, bind, get, put, raise.
  destruct (router_Register _ _ _ _) as [r'|]; cycle 1.
  { simpl. split; [by left|]. by intros [?|[_ ?]]. }
  destruct (contains _ _) eqn:Hc; cbn [state_of outcome_of fst snd Legacy.e_allowedMethods].
  - apply contains_elem_of in Hc. split; [by left|]. by intros [?|[-> _]].
  - rewrite elem_of_new_allowed. split; (intros [?|?]; [by left|right]); tauto.
Qed.

Lemma RegisterGroup_children_allows group children (st : server R) m :
  m ∈ am_s (allowed_of (state_of (RegisterGroup_children group children st))) ->
  m ∈ am_s (allowed_of st) \/ m ∈ Node_Method <$> children.
Proof.
  revert st. induction children as [|v rest IH]; intros st; [by left|].
  rewrite RegisterGroup_children_cons. cbn zeta.
  set (a := append _ _ _). set (st1 := mkServer a.1 (eng st)).
  pose proof (Register_allows (child_node group v a.2) st1 m) as HR.
  unfold bind.
  destruct (Register (child_node group v a.2) st1) as [[[[]|q|] s1] t1]; simpl in *.
  - specialize (IH s1).
    destruct (RegisterGroup_children group rest s1) as [[o2 s2] t2]; simpl in *.
    intros Hm. destruct (IH Hm) as [Hs1|Hrest].
    + apply HR in Hs1 as [?|[-> _]]; [by left|]. right. constructor.
    + right. by constructor.
  - intros Hm. apply HR in Hm as [?|[_ ?]]; [by left|done].
  - intros Hm. apply HR in Hm as [?|[_ ?]]; [by left|done].
Qed.

Lemma step_allows (st : server R) (c : setup) m :
  m ∈ am_s (allowed_of (step st c)) ->
  m ∈ am_s (allowed_of st) \/ m ∈ methods_of c.
Proof.
  destruct c as [node|group|h]; simpl.
  - intros [?|[-> _]]%Register_allows; [by left|]. right. constructor.
  - apply RegisterGroup_children_allows.
  - by left.
Qed.

Lemma setup_allows (st : server R) (calls : list setup) m :
  m ∈ am_s (allowed_of (foldl step st calls)) ->
  m ∈ am_s (allowed_of st) \/ m ∈ calls ≫= methods_of.
Proof.
  revert st. induction calls as [|c calls IH]; intros st; simpl; [by left|].
  intros [Hm|Hm]%IH.
  - apply step_allows in Hm as [?|?]; [by left|]. right.
    apply elem_of_app. by left.
  - right. apply elem_of_app. by right.
Qed.

(** X10.  The allowed methods are exactly the methods of the registrations
    that went through.  One [Register] adds its method when it returns, and
    nothing when it panics (on a nil unit or in the router); so after any
    setup only methods that some registered node names are allowed, and a
    request with any other method gets the 405.  The same holds, step by
    step, for [Register] of the first engine. *)
Theorem allowed_methods_exact (h : heap) (calls : list setup) (st0 : server R)
    (node : Node) (e : Legacy.engine R') (method path : string)
    (handle : option Legacy.Handler) (m : string) rev logId req :
  let st := foldl step (mkServer h (eng New)) calls in
  let r := Register node st0 in
  let r' := Legacy.Register method path handle e in
  (m ∈ am_s (allowed_of (state_of r)) <->
   m ∈ am_s (allowed_of st0) \/ (m = Node_Method node /\ outcome_of r = Returned tt)) /\
  (m ∈ am_s (Legacy.e_allowedMethods (state_of r')) <->
   m ∈ am_s (Legacy.e_allowedMethods e) \/ (m = method /\ outcome_of r' = Returned tt)) /\
  (m ∈ am_s (allowed_of st) -> m ∈ calls ≫= methods_of) /\
  (req_Method req ∉ calls ≫= methods_of ->
   ServeHTTP rev logId req st =
   (Returned tt, st,
    opening req ++
    [HeaderSet "Allow" (am_str (allowed_of st));
     HttpError StatusText_MethodNotAllowed StatusMethodNotAllowed] ++
    closing logId)).
Proof.
  cbn zeta. split; [apply Register_allows|]. split; [apply Legacy_Register_allows|].
  assert (forall m, m ∈ am_s (allowed_of (foldl step (mkServer h (eng New)) calls)) ->
                    m ∈ calls ≫= methods_of) as Hsound.
  { intros m' [Hm|Hm]%setup_allows; [|done]. by apply elem_of_nil in Hm. }
  split; [apply Hsound|].
  intros Hreq. apply ServeHTTP_not_allowed. intros Hm. by apply Hreq, Hsound.
Qed.

(** X7.  A request with an allowed method and a path for which the router
    has neither a route nor a redirect candidate is answered by
    [http.NotFound] after the one lookup, and no unit is called; in both
    revisions of part_000 and in the first engine. *)
Theorem no_route_is_not_found rev logId req ps (st : server R) fuel (e : Legacy.engine R') :
  allows st req ->
  legacy_allows e req ->
  url_Path (req_URL req) <> "" ->
  lookup_of st req = (None, ps, false) ->
  legacy_lookup e req = (None, ps, false) ->
  let answer :=
    opening req ++
    [RouterLookup (req_Method req) (url_Path (req_URL req)); HttpNotFound] ++
    closing logId in
  ServeHTTP rev logId req st = (Returned tt, st, answer) /\
  Legacy.ServeHTTP fuel logId req e = (Returned tt, e, answer) /\
  views answer = [].
Proof.
  intros Hm Hm' Hp Hl Hl'. cbn zeta. split; [|split; [|done]].
  - by eapply ServeHTTP_not_found.
  - destruct (Legacy_ServeHTTP_no_handler fuel logId req e None ps false)
      as (path' & _ & ->); auto.
Qed.

(** X6.  [ServeHTTP] writes an answer of its own ([http.Error],
    [http.NotFound] or [http.Redirect]) exactly when no route matches, and
    then exactly one.  For a request with a route it writes none, also when
    the chain panicked: a recovered panic is logged, not answered. *)
Theorem answered_exactly_once rev logId req (st : server R) :
  chain_wf st req ->
  let t := trace_of (ServeHTTP rev logId req st) in
  (matched st req -> filter is_answer t = []) /\
  (~ matched st req -> exists a, filter is_answer t = [a]).
Proof.
  intros Hwf. cbn zeta.
  destruct (ServeHTTP_branch rev logId req st Hwf) as (mid & Hbr & ->). simpl.
  unfold matched.
  destruct Hbr as [Hm|Hm Hp|ps Hm Hp Hl|ps path' Hm Hp Hl Ht|v ps b o c t Hm Hp Hl Hn Ht].
  - split; [by intros [? _]|]. intros _. by eexists.
  - split; [by intros (_ & ? & _)|]. intros _. by eexists.
  - split; [|intros _; by eexists].
    intros (_ & _ & v & ps' & b & Hl'). congruence.
  - split; [|intros _; by eexists].
    intros (_ & _ & v & ps' & b & Hl'). congruence.
  - split; [|intros []; eauto 10]. intros _.
    rewrite filter_cons, !filter_app, (filter_answer_calls t Ht).
    by destruct rev, o.
Qed.

(** X8.  Every redirect [ServeHTTP] sends is a 308 that keeps the query of
    the request and names a path other than the requested one, and it is
    sent only for requests without a route.  (Units write through the
    response writer; they are not redirects of [ServeHTTP].) *)
Theorem redirects_change_the_path rev logId req (st : server R) u code :
  chain_wf st req ->
  HttpRedirect u code ∈ trace_of (ServeHTTP rev logId req st) ->
  code = 308 /\
  url_RawQuery u = url_RawQuery (req_URL req) /\
  url_Path u <> url_Path (req_URL req) /\
  ~ matched st req.
Proof.
  intros Hwf.
  destruct (ServeHTTP_branch rev logId req st Hwf) as (mid & Hbr & ->).
  intros Hin%redirect_in_mid. unfold matched.
  destruct Hbr as [Hm|Hm Hp|ps Hm Hp Hl|ps path' Hm Hp Hl Ht|v ps b o c t Hm Hp Hl Hn Ht].
  - no_elem Hin.
  - apply list_elem_of_singleton in Hin. injection Hin as -> ->. simpl. rewrite Hp.
    repeat split; [by destruct rev|by intros (_ & ? & _)].
  - no_elem Hin.
  - apply elem_of_cons in Hin as [Hin|Hin]; [done|].
    apply list_elem_of_singleton in Hin. injection Hin as -> ->. simpl.
    repeat split; [by eapply toggle_slash_changes|].
    intros (_ & _ & v & ps' & b & Hl'). congruence.
  - rewrite !elem_of_app in Hin. destruct Hin as [Hin|[Hin|[Hin|Hin]]].
    + no_elem Hin.
    + destruct rev; simpl in Hin; no_elem Hin.
    + rewrite Forall_forall in Ht. by apply Ht in Hin.
    + destruct o; simpl in Hin; no_elem Hin.
Qed.
End BranchFacts.

(** ** The log-id header and the head of the response *)

Lemma in_head_written (a b : list event) :
  head_written a = true -> in_head (a ++ b) = in_head a.
Proof.
  induction a as [|e a IH]; [done|]. simpl.
  destruct (writes_head e); [done|]. simpl. intros Ha. by rewrite IH.
Qed.

Lemma in_head_open (a b : list event) :
  forallb keeps_head_open a = true -> in_head (a ++ b) = a ++ in_head b.
Proof.
  induction a as [|e a IH]; [done|]. simpl.
  intros [He Ha]%andb_true_iff. rewrite IH by done.
  by destruct e as [| | | | | | | | |[]].
Qed.

Lemma in_head_sub (e : event) (t : list event) : e ∈ in_head t -> e ∈ t.
Proof.
  induction t as [|e' t IH]; [done|]. simpl.
  destruct (writes_head e'); [by intros ?%elem_of_nil|].
  intros [->|Hin]%elem_of_cons; [left | right; by apply IH].
Qed.

Lemma head_written_app (a b : list event) :
  head_written (a ++ b) = head_written a || head_written b.
Proof. apply existsb_app. Qed.

Lemma header_late k v (pre post : list event) :
  head_written pre = true -> HeaderSet k v ∉ pre ->
  ~ header_sent k v (pre ++ post).
Proof.
  intros Hw Hpre Hin. unfold header_sent in Hin.
  rewrite in_head_written in Hin by done. by apply in_head_sub in Hin.
Qed.

Lemma header_in_time k v (pre post : list event) :
  forallb keeps_head_open pre = true ->
  header_sent k v (pre ++ HeaderSet k v :: post).
Proof.
  intros Hopen. unfold header_sent. rewrite in_head_open by done.
  apply elem_of_app. right. simpl. left.
Qed.

Lemma calls_set_no_header k v (t : list event) :
  Forall call_event t -> HeaderSet k v ∉ t.
Proof.
  intros Ht Hin. rewrite Forall_forall in Ht. by apply Ht in Hin.
Qed.

Section ResponseHead.
Context `{Externals} {R : Type} `{Router routerValue R}.
Context {R' : Type} `{Router (option Legacy.Handler) R'}.

(** A request that got a chain: the header is lost when a unit wrote, and
    sent when the chain wrote nothing. *)
Lemma chain_header (pre t : list event) {A} (o : outcome A) logId :
  Forall call_event t ->
  HeaderSet LogIdContextKey logId ∉ pre ->
  forallb keeps_head_open pre = true ->
  let all := pre ++ t ++ recovered o ++ closing logId in
  (head_written t = true -> ~ header_sent LogIdContextKey logId all) /\
  (forallb keeps_head_open t = true -> header_sent LogIdContextKey logId all).
Proof.
  intros Ht Hpre Hopen. cbn zeta. split.
  - intros Hwt. rewrite app_assoc. apply header_late.
    + by rewrite head_written_app, Hwt, orb_true_r.
    + intros [?|?%calls_set_no_header]%elem_of_app; done.
  - intros Hot. unfold closing.
    rewrite !app_assoc. apply header_in_time.
    rewrite !forallb_app, Hopen, Hot. by destruct o.
Qed.


Lemma opening_lookup_open rev req v ps :
  forallb keeps_head_open
    (opening req ++ [RouterLookup (req_Method req) (url_Path (req_URL req))] ++
     match_events rev v ps) = true /\
  head_written
    (opening req ++ [RouterLookup (req_Method req) (url_Path (req_URL req))] ++
     match_events rev v ps) = false /\
  forall k w, HeaderSet k w ∉
    opening req ++ [RouterLookup (req_Method req) (url_Path (req_URL req))] ++
    match_events rev v ps.
Proof.
  destruct rev; (split; [done|]); (split; [done|]); intros k w Hin; no_elem Hin.
Qed.

(** C9.  The log-id header is set too late.  [ServeHTTP] sets it in its
    deferred function, which runs after the body: after [http.Error] (405),
    [http.NotFound] (404) and [http.Redirect] (empty path, trailing slash)
    have written the head of the response, and after the chain has run.
    So on the four branches without a chain the header is never part of the
    response, and on the chain branch it is lost as soon as a unit has
    written a status or a body; it is sent only when the chain wrote
    nothing.  In the first engine the same holds, and on the runs that do
    not come to an end (the first middleware calls [Next]) the header is
    not even set. *)
Theorem log_id_header_late rev logId req (st : server R) fuel (e : Legacy.engine R') :
  LogIdContextKey <> "Allow" ->
  let r := ServeHTTP rev logId req st in
  let r' := Legacy.ServeHTTP (S fuel) logId req e in
  let sent := header_sent LogIdContextKey logId in
  (~ matched st req -> ~ sent (trace_of r)) /\
  (forall v ps units, routed st req v ps units ->
     let t := trace_of (Next (store st) (dispatch_ctx req v ps)) in
     (head_written t = true -> ~ sent (trace_of r)) /\
     (forallb keeps_head_open t = true -> sent (trace_of r))) /\
  (~ (legacy_allows e req /\ url_Path (req_URL req) <> "" /\
      is_Some (legacy_ctx e req)) -> ~ sent (trace_of r')) /\
  (forall c, legacy_allows e req -> url_Path (req_URL req) <> "" ->
     legacy_ctx e req = Some c ->
     let n := Legacy.Next_fuel (S fuel) c in
     (head_written (trace_of n) = true -> ~ sent (trace_of r')) /\
     (outcome_of n <> OutOfFuel -> forallb keeps_head_open (trace_of n) = true ->
      sent (trace_of r'))) /\
  (legacy_diverges e req ->
   outcome_of r' = OutOfFuel /\ HeaderSet LogIdContextKey logId ∉ trace_of r').
Proof.
  intros Hkey. cbn zeta. split; [|split; [|split; [|split]]].
  - intros Hnm.
    destruct (decide (req_Method req ∈ am_s (allowed_of st))) as [Hm|Hm]; cycle 1.
    { rewrite ServeHTTP_not_allowed by done.
      apply (header_late _ _ [_; _; _] [_; _]); [done|].
      intros Hin. apply elem_of_cons in Hin as [Hin|Hin]; [done|].
      apply elem_of_cons in Hin as [[= Hk _]|Hin]; [done|]. no_elem Hin. }
    destruct (decide (url_Path (req_URL req) = "")) as [Hp|Hp].
    { rewrite ServeHTTP_empty_path by done.
      apply (header_late _ _ [_; _] [_; _]); [done|]. intros Hin. no_elem Hin. }
    destruct (lookup_of st req) as [[[v|] ps] b] eqn:Hl.
    { destruct Hnm. repeat split; try done. eauto. }
    destruct b.
    + destruct (ServeHTTP_redirect rev logId req st ps Hm Hp Hl) as (path' & _ & ->).
      apply (header_late _ _ [_; _; _] [_; _]); [done|]. intros Hin. no_elem Hin.
    + rewrite (ServeHTTP_not_found rev logId req st ps) by done.
      apply (header_late _ _ [_; _; _] [_; _]); [done|]. intros Hin. no_elem Hin.
  - intros v ps units Hr. cbn zeta.
    rewrite (routed_serve rev logId req st v ps units Hr). cbn zeta.
    destruct Hr as (_ & _ & _ & Hwf & _).
    destruct (dispatch_chain_kept (store st) req v ps Hwf) as [Ht _].
    assert (Forall call_event (trace_of (Next (store st) (dispatch_ctx req v ps))))
      as Hcalls by (eapply Forall_impl; [done|]; apply unit_event_call).
    destruct (opening_lookup_open rev req v ps) as (Hopen & Hw & Hno).
    unfold served. simpl trace_of at 1 3.
    rewrite !(app_assoc (opening req)), !(app_assoc (opening req ++ _)).
    rewrite <- (app_assoc (opening req)).
    by apply chain_header.
  - intros Hnm.
    destruct (decide (req_Method req ∈ am_s (Legacy.e_allowedMethods e))) as [Hm|Hm];
      cycle 1.
    { rewrite Legacy_ServeHTTP_not_allowed by done.
      apply (header_late _ _ [_; _; _] [_; _]); [done|].
      intros Hin. apply elem_of_cons in Hin as [Hin|Hin]; [done|].
      apply elem_of_cons in Hin as [[= Hk _]|Hin]; [done|]. no_elem Hin. }
    destruct (decide (url_Path (req_URL req) = "")) as [Hp|Hp].
    { pose proof Hm as Hm'%contains_elem_of.
      unfold Legacy.ServeHTTP, defer, bind, get, emit. simpl.
      rewrite Hm'. simpl. rewrite Hp. simpl.
      apply (header_late _ _ [_; _] [_; _]); [done|]. intros Hin. no_elem Hin. }
    destruct (legacy_lookup e req) as [[o ps] b] eqn:Hl.
    assert (o = None \/ o = Some None) as Ho.
    { destruct o as [[handler|]|]; [|by right|by left].
      destruct Hnm. repeat split; try done.
      unfold legacy_ctx. by rewrite Hl. }
    destruct (Legacy_ServeHTTP_no_handler (S fuel) logId req e o ps b Hm Hp Hl Ho)
      as (path' & _ & ->).
    apply (header_late _ _ [_; _; _] [_; _]); [by destruct b|].
    intros Hin. destruct b; no_elem Hin.
  - intros c Hm Hp Hc. cbn zeta.
    pose proof (Legacy_Next_trace (S fuel) c) as Hcalls.
    destruct (Legacy.Next_fuel (S fuel) c) as [[o s] t] eqn:Hn.
    rewrite (Legacy_ServeHTTP_chain (S fuel) logId req e c o s t Hm Hp Hc Hn).
    simpl in Hcalls. simpl. split.
    + intros Hw.
      apply (header_late _ _ (_ :: _ :: t)); [done|].
      intros Hin. apply elem_of_cons in Hin as [Hin|Hin]; [done|].
      apply elem_of_cons in Hin as [Hin|Hin]; [done|].
      by apply calls_set_no_header in Hin.
    + intros Ho Hopen.
      assert (match o with
              | OutOfFuel => []
              | _ => recovered o ++ closing logId
              end = recovered o ++ closing logId) as -> by by destruct o.
      apply (chain_header [_; _] t o logId); try done.
      intros Hin. no_elem Hin.
  - intros (Hm & Hp & c & Hc & Hre).
    assert (exists t, Legacy.Next_fuel (S fuel) c = (OutOfFuel, c, t)) as [t Hn].
    { unfold reentrant in Hre.
      destruct (Legacy.c_curMW c) as [|[g|] rest] eqn:Hcur; try done.
      by eapply Legacy_Next_reentrant. }
    pose proof (Legacy_Next_trace (S fuel) c) as Hcalls. rewrite Hn in Hcalls.
    rewrite (Legacy_ServeHTTP_chain (S fuel) logId req e c _ c t Hm Hp Hc Hn).
    simpl in *. split; [done|]. rewrite app_nil_r.
    intros Hin. apply elem_of_cons in Hin as [Hin|Hin]; [done|].
    apply elem_of_cons in Hin as [Hin|Hin]; [done|].
    by apply calls_set_no_header in Hin.
Qed.
End ResponseHead.

(** ** Registration and the store *)

Lemma bind_assoc {S A B C} (m : M S A) (f : A -> M S B) (g : B -> M S C) (s : S) :
  bind (bind m f) g s = bind m (fun x => bind (f x) g) s.
Proof.
  unfold bind. destruct (m s) as [[[a|q|] s1] t1]; try done.
  destruct (f a s1) as [[[b|q|] s2] t2]; try done.
  destruct (g b s2) as [[o3 s3] t3]. by rewrite app_assoc.
Qed.

Section Store.
Context `{Externals}.

Lemma append_keeps_slice h s xs :
  slice_in_store h s -> slice_elems (append h s xs).1 s = slice_elems h s.
Proof.
  intros [Hlen Hcap]. unfold append.
  destruct (decide (s_len s + length xs <= s_cap s)%nat) as [Hfit|Hgrow]; simpl.
  - unfold slice_elems at 1. unfold array_of at 1.
    rewrite array_of_insert by by rewrite length_inserts.
    pose proof (inserts_elems (array_of h s) xs (s_off s) (s_len s)) as Hi.
    rewrite <- (Nat.min_l (s_len s) (s_len s + length xs)) at 1 by lia.
    rewrite <- take_take, Hi by lia.
    rewrite take_app_le by (rewrite length_take, length_drop; lia).
    rewrite take_take. by rewrite Nat.min_id.
  - destruct (append_grow_extends h s xs) as (Hext & _); [lia|].
    unfold append in Hext. rewrite decide_False in Hext by done. simpl in Hext.
    by destruct (heap_extends_slice _ _ s Hext) as [-> _].
Qed.

Lemma append_array_length h s' xs s :
  (length (array_of h s) <= length (array_of (append h s' xs).1 s))%nat.
Proof.
  unfold append.
  destruct (decide (s_len s' + length xs <= s_cap s')%nat) as [Hfit|Hgrow]; simpl.
  - unfold array_of. destruct (decide (s_arr s = s_arr s')) as [->|Hne].
    + destruct (h !! s_arr s') as [a|] eqn:Ha.
      * rewrite list_lookup_insert_eq by by eapply lookup_lt_Some.
        simpl. by rewrite length_inserts.
      * simpl. lia.
    + by rewrite list_lookup_insert_ne.
  - unfold array_of. destruct (h !! s_arr s) as [a|] eqn:Ha.
    + by rewrite (lookup_app_l_Some _ _ _ _ Ha).
    + simpl. lia.
Qed.

Lemma append_keeps_in_store h s' xs s :
  slice_in_store h s -> slice_in_store (append h s' xs).1 s.
Proof.
  intros [? ?]. split; [done|].
  pose proof (append_array_length h s' xs s). lia.
Qed.
End Store.

Section MoreRegistration.
Context `{Externals} {R : Type} `{Router routerValue R}.

Lemma Register_store (node : Node) (st : server R) :
  store (state_of (Register node st)) =
  (append (store st) (Node_Middlewares node) [Node_Handler node]).1.
Proof.
  rewrite Register_run. cbn zeta.
  destruct (forallb _ _); [|done]. by destruct (router_Register _ _ _ _).
Qed.

Lemma Register_keeps_in_store (node : Node) (st : server R) s :
  slice_in_store (store st) s ->
  slice_in_store (store (state_of (Register node st))) s.
Proof. intros Hs. rewrite Register_store. by apply append_keeps_in_store. Qed.

Lemma RegisterGroup_children_keeps_in_store group children (st : server R) s :
  slice_in_store (store st) s ->
  slice_in_store (store (state_of (RegisterGroup_children group children st))) s.
Proof.
  revert st. induction children as [|v rest IH]; intros st Hs; [done|].
  rewrite RegisterGroup_children_cons. cbn zeta.
  set (a := append _ _ _). set (st1 := mkServer a.1 (eng st)).
  assert (slice_in_store (store st1) s) as Hs1 by by apply append_keeps_in_store.
  pose proof (Register_keeps_in_store (child_node group v a.2) st1 s Hs1) as Hs2.
  unfold bind.
  destruct (Register (child_node group v a.2) st1) as [[[[]|q|] s1] t1]; simpl in *;
    try done.
  specialize (IH s1 Hs2).
  by destruct (RegisterGroup_children group rest s1) as [[o2 s2] t2].
Qed.

Lemma RegisterGroup_children_app group l1 l2 (st : server R) :
  RegisterGroup_children group (l1 ++ l2) st =
  (RegisterGroup_children group l1 ;; RegisterGroup_children group l2) st.
Proof.
  revert st. induction l1 as [|v l1 IH]; intros st.
  - simpl. unfold bind, ret.
    by destruct (RegisterGroup_children group l2 st) as [[? ?] ?].
  - rewrite <- app_comm_cons, RegisterGroup_children_cons. cbn zeta.
    set (a := append _ _ _). set (st1 := mkServer a.1 (eng st)).
    assert ((RegisterGroup_children group (v :: l1) ;; RegisterGroup_children group l2) st =
            ((Register (child_node group v a.2) ;; RegisterGroup_children group l1) ;;
             RegisterGroup_children group l2) st1) as ->.
    { unfold bind at 1 2. by rewrite RegisterGroup_children_cons. }
    rewrite bind_assoc. unfold bind at 1 2.
    destruct (Register (child_node group v a.2) st1) as [[[[]|q|] s1] t1]; try done.
    by rewrite IH.
Qed.

Lemma bind_Register_nil {A} (node : Node) (st : server R) (k : M (server R) A) :
  slice_in_store (store st) (Node_Middlewares node) ->
  Node_Handler node = None \/
  None ∈ slice_elems (store st) (Node_Middlewares node) ->
  (Register node ;; k) st =
  (Panicking nil_unit_panic,
   mkServer (append (store st) (Node_Middlewares node) [Node_Handler node]).1 (eng st),
   []).
Proof.
  intros Hin Hnil. unfold bind. by rewrite Register_nil_unit.
Qed.

Lemma RegisterGroup_children_ext group group' children (st : server R) :
  Group_RootPath group = Group_RootPath group' ->
  Group_Middlewares group = Group_Middlewares group' ->
  RegisterGroup_children group children st = RegisterGroup_children group' children st.
Proof.
  intros Hr Hm. revert st. induction children as [|v rest IH]; intros st; [done|].
  rewrite !RegisterGroup_children_cons. cbn zeta. unfold child_node.
  rewrite Hr, Hm. unfold bind.
  destruct (Register _ _) as [[[[]|q|] s1] t1]; try done. by rewrite IH.
Qed.

(** X11.  A route is served as it was registered.  When the units of a
    node are all there and the router takes the route, [Register] returns
    after the one router call; the chain the router holds reads: the node's
    middleware followed by its handler; the node's own middleware slice
    still reads what it read before.  If the router then answers the
    node's method and path with that route, a request for them is routed to
    this chain: its method is allowed and the chain is a slice of the
    store. *)
Theorem registered_route_is_served (node : Node) (st : server R) (hf : HandlerFunc)
    r' ps b req :
  let a := append (store st) (Node_Middlewares node) [Node_Handler node] in
  let units := slice_elems (store st) (Node_Middlewares node) in
  let v := mkRouterValue a.2 (Node_Path node) in
  let st' := state_of (Register node st) in
  slice_in_store (store st) (Node_Middlewares node) ->
  Z.of_nat (s_cap a.2) <= max_int ->
  Node_Handler node = Some hf ->
  None ∉ units ->
  router_Register (e_r (eng st)) (Node_Method node) (Node_Path node) v = Some r' ->
  Register node st =
    (Returned tt, st', [RouterRegister (Node_Method node) (Node_Path node) a.2]) /\
  e_r (eng st') = r' /\
  slice_elems (store st') a.2 = units ++ [Some hf] /\
  slice_elems (store st') (Node_Middlewares node) = units /\
  (req_Method req = Node_Method node ->
   url_Path (req_URL req) = Node_Path node ->
   Node_Path node <> "" ->
   router_Lookup r' (Node_Method node) (Node_Path node) = (Some v, ps, b) ->
   routed st' req v ps (units ++ [Some hf])).
Proof.
  intros a units v st' Hin Hcap Hh Hnil Hreg.
  assert (slice_elems a.1 a.2 = units ++ [Some hf]) as Hel.
  { unfold a. by rewrite append_elems, Hh. }
  assert (forallb not_nil (slice_elems a.1 a.2) = true) as Hok.
  { destruct (forallb _ _) eqn:Hf; [done|]. apply forallb_not_nil in Hf.
    rewrite Hel in Hf. apply elem_of_app in Hf as [?|Hf]; [done|].
    by apply list_elem_of_singleton in Hf. }
  pose proof (Register_run node st) as Hrun. cbn zeta in Hrun.
  fold a in Hrun. rewrite Hok in Hrun. fold v in Hrun. rewrite Hreg in Hrun.
  assert (store st' = a.1) as Hst by (unfold st'; by rewrite Hrun).
  split; [|split; [|split; [|split]]].
  - unfold st'. by rewrite Hrun.
  - unfold st'. by rewrite Hrun.
  - by rewrite Hst.
  - rewrite Hst. by apply append_keeps_slice.
  - intros Hm Hp Hne Hl. unfold routed, allows, lookup_of, allowed_of.
    rewrite Hm, Hp, Hst. split; [|split; [done|split; [|split; [|done]]]].
    + unfold st'. rewrite Hrun. simpl.
      destruct (contains _ _) eqn:Hc; [by apply contains_elem_of|].
      apply elem_of_new_allowed. by right.
    + exists b. unfold st'. rewrite Hrun. simpl. done.
    + destruct (append_in_store (store st) (Node_Middlewares node) [Node_Handler node] Hin)
        as [? ?]. by repeat split.
Qed.

(** X12.  [RegisterGroup] is not all or nothing.  When the children before
    a child without a handler register, the call panics at that child with
    the message of [Register], and it leaves the router and the allowed
    methods as the registration of the children before it alone leaves
    them: these stay registered, the child and those after it are not. *)
Theorem RegisterGroup_stops_at_nil_child root mws before bad after (st : server R) :
  let part := mkGroup root mws before in
  let whole := mkGroup root mws (before ++ bad :: after) in
  slice_in_store (store st) mws ->
  Node_Handler bad = None ->
  outcome_of (RegisterGroup part st) = Returned tt ->
  outcome_of (RegisterGroup whole st) = Panicking nil_unit_panic /\
  eng (state_of (RegisterGroup whole st)) = eng (state_of (RegisterGroup part st)) /\
  trace_of (RegisterGroup whole st) = trace_of (RegisterGroup part st).
Proof.
  intros part whole Hin Hbad Hret. unfold RegisterGroup in *. simpl in *.
  rewrite (RegisterGroup_children_ext whole part) by done.
  rewrite RegisterGroup_children_app.
  pose proof (RegisterGroup_children_keeps_in_store part before st mws Hin) as Hin1.
  unfold bind.
  destruct (RegisterGroup_children part before st) as [[[[]|q|] s1] t1]; try done.
  simpl in Hin1. rewrite RegisterGroup_children_cons. cbn zeta.
  set (a := append _ _ _). set (st1 := mkServer a.1 (eng s1)).
  rewrite (bind_Register_nil (child_node part bad a.2) st1).
  - simpl. by rewrite app_nil_r.
  - simpl. by apply append_in_store.
  - by left.
Qed.
End MoreRegistration.

(** ** Setting up the first engine *)

Section LegacySetup.
Context `{Externals} {R : Type} `{Router (option Legacy.Handler) R}.

Lemma legacy_step_middlewares (e : Legacy.engine R) (c : legacy_setup) :
  Legacy.e_middlewares (legacy_step e c) = Legacy.e_middlewares e ++ appended [c].
Proof.
  destruct c as [method path handle|handler]; simpl; [|done].
  unfold Legacy.Register, bind, get, put, raise. simpl.
  destruct (router_Register _ _ _ _); simpl; [|by rewrite app_nil_r].
  destruct (contains _ _); simpl; by rewrite app_nil_r.
Qed.

Lemma legacy_step_routes (e e' : Legacy.engine R) (c : legacy_setup) :
  Legacy.e_r e = Legacy.e_r e' ->
  Legacy.e_allowedMethods e = Legacy.e_allowedMethods e' ->
  Legacy.e_r (legacy_step e c) =
    Legacy.e_r (if is_registration c then legacy_step e' c else e') /\
  Legacy.e_allowedMethods (legacy_step e c) =
    Legacy.e_allowedMethods (if is_registration c then legacy_step e' c else e').
Proof.
  intros Hr Ha. destruct c as [method path handle|handler]; simpl; [|done].
  unfold Legacy.Register, bind, get, put, raise. simpl. rewrite Hr, Ha.
  destruct (router_Register _ _ _ _); simpl; [|done].
  by destruct (contains _ _).
Qed.

(** X16.  In the first engine registrations and middlewares do not touch
    each other: after any setup the middleware list is what it was followed
    by the appended middlewares in the order of the calls (nil ones
    included, there is no check), and the router and the allowed methods are
    what the registrations alone give. *)
Theorem legacy_setup_composes (lcalls : list legacy_setup) (e0 : Legacy.engine R) :
  let e := foldl legacy_step e0 lcalls in
  let e' := foldl legacy_step e0 (filter (fun c => is_registration c) lcalls) in
  Legacy.e_middlewares e = Legacy.e_middlewares e0 ++ appended lcalls /\
  Legacy.e_middlewares e' = Legacy.e_middlewares e0 /\
  Legacy.e_r e = Legacy.e_r e' /\
  Legacy.e_allowedMethods e = Legacy.e_allowedMethods e'.
Proof.
  cbn zeta.
  assert (forall e1 e2 : Legacy.engine R,
    Legacy.e_r e1 = Legacy.e_r e2 ->
    Legacy.e_allowedMethods e1 = Legacy.e_allowedMethods e2 ->
    Legacy.e_middlewares (foldl legacy_step e1 lcalls) =
      Legacy.e_middlewares e1 ++ appended lcalls /\
    Legacy.e_middlewares
      (foldl legacy_step e2 (filter (fun c => is_registration c) lcalls)) =
      Legacy.e_middlewares e2 /\
    Legacy.e_r (foldl legacy_step e1 lcalls) =
      Legacy.e_r (foldl legacy_step e2 (filter (fun c => is_registration c) lcalls)) /\
    Legacy.e_allowedMethods (foldl legacy_step e1 lcalls) =
      Legacy.e_allowedMethods
        (foldl legacy_step e2 (filter (fun c => is_registration c) lcalls))) as Hgen.
  { induction lcalls as [|c rest IH]; intros e1 e2 Hr Ha.
    - simpl. by rewrite app_nil_r.
    - destruct (legacy_step_routes e1 e2 c Hr Ha) as [Hr' Ha'].
      pose proof (legacy_step_middlewares e1 c) as Hm1.
      pose proof (legacy_step_middlewares e2 c) as Hm2.
      destruct c as [method path handle|handler]; simpl in *.
      + rewrite app_nil_r in Hm1, Hm2.
        destruct (IH (legacy_step e1 (LegacyRegister method path handle))
                     (legacy_step e2 (LegacyRegister method path handle)) Hr' Ha')
          as (IH1 & IH2 & IH3 & IH4). simpl in *.
        by rewrite IH1, IH2, Hm1, Hm2.
      + destruct (IH (legacy_step e1 (LegacyAppendMiddleware handler)) e2 Hr' Ha')
          as (IH1 & IH2 & IH3 & IH4).
        simpl in *. rewrite IH1. by rewrite <- app_assoc. }
  by apply Hgen.
Qed.
End LegacySetup.

(** ** The two files of part_000 *)

Lemma filter_match_calls (t : list event) :
  Forall call_event t -> filter (fun e => is_match_record e = false) t = t.
Proof.
  induction 1 as [|e t He _ IH]; [done|].
  rewrite filter_cons, IH. by destruct e.
Qed.

Section Revisions.
Context `{Externals} {R : Type} `{Router routerValue R}.

(** X9.  The two files of part_000 differ, for a request with a path, by
    one trace record: both end alike, leave the server alone, and the
    earlier one's trace is the later one's without the record of the
    matched path and the parameters (line 402). *)
Theorem revisions_agree logId req (st : server R) :
  chain_wf st req ->
  url_Path (req_URL req) <> "" ->
  let a := ServeHTTP RevA logId req st in
  let b := ServeHTTP RevB logId req st in
  outcome_of a = outcome_of b /\
  state_of a = state_of b /\
  trace_of a = filter (fun e => is_match_record e = false) (trace_of b).
Proof.
  intros Hwf Hp. cbn zeta.
  destruct (decide (req_Method req ∈ am_s (allowed_of st))) as [Hm|Hm]; cycle 1.
  { by rewrite !ServeHTTP_not_allowed. }
  destruct (lookup_of st req) as [[[v|] ps] b] eqn:Hl.
  - destruct (dispatch_chain_kept (store st) req v ps (Hwf _ _ _ Hl))
      as [Ht Ho].
    destruct (Next (store st) (dispatch_ctx req v ps)) as [[o c] t] eqn:Hn.
    simpl in Ht, Ho.
    assert (o <> OutOfFuel) as Hfuel by by intros ->.
    rewrite !(ServeHTTP_chain _ logId req st v ps b o c t Hm Hp Hl Hn Hfuel).
    repeat split. simpl.
    rewrite !filter_cons. simpl. rewrite !filter_app, filter_match_calls.
    + by destruct o.
    + eapply Forall_impl; [done|]. apply unit_event_call.
  - destruct b.
    + destruct (ServeHTTP_redirect RevA logId req st ps Hm Hp Hl) as (p1 & Ht1 & ->).
      destruct (ServeHTTP_redirect RevB logId req st ps Hm Hp Hl) as (p2 & Ht2 & ->).
      assert (p1 = p2) as -> by congruence. done.
    + by rewrite !(ServeHTTP_not_found _ logId req st ps Hm Hp Hl).
Qed.
End Revisions.

(** ** Registration: nil units, full slices, the order of the calls *)

Lemma forallb_not_nil_true (units : list Func) :
  forallb not_nil units = true <-> None ∉ units.
Proof.
  destruct (forallb not_nil units) eqn:Hf.
  - split; [|done]. intros _ Hin. apply forallb_not_nil in Hin. congruence.
  - apply forallb_not_nil in Hf. split; [done|]. by intros [].
Qed.

Lemma am_inv_unique (am1 am2 : allowedMethodsT) :
  am_inv am1 -> am_inv am2 ->
  (forall m, m ∈ am_s am1 <-> m ∈ am_s am2) ->
  am1 = am2.
Proof.
  intros (Hs1 & Hd1 & Hj1) (Hs2 & Hd2 & Hj2) Hsame.
  assert (am_s am1 = am_s am2) as Hs.
  { apply (StronglySorted_unique String.le); [done..|].
    by apply NoDup_Permutation. }
  destruct am1, am2; simpl in *. congruence.
Qed.

Section OneCell.
Context `{Externals}.

(** [append] of one element writes at most one cell of the arrays that are
    there: the one behind the last element of the slice. *)
Lemma append_one_cell h s x i j :
  (i < length h)%nat ->
  i <> s_arr s \/ j <> (s_off s + s_len s)%nat ->
  cell (append h s [x]).1 i j = cell h i j.
Proof.
  intros Hi Hij. unfold cell, append. simpl.
  destruct (decide (s_len s + 1 <= s_cap s)%nat) as [Hfit|Hgrow]; simpl.
  - destruct (decide (i = s_arr s)) as [->|Hne].
    + destruct Hij as [?|Hj]; [done|].
      destruct (h !! s_arr s) as [a|] eqn:Ha.
      * rewrite list_lookup_insert_eq by done. simpl.
        unfold array_of. rewrite Ha. simpl.
        destruct (decide (s_off s + s_len s < length a)%nat).
        -- by rewrite list_lookup_insert_ne.
        -- by rewrite list_insert_ge by lia.
      * by apply lookup_ge_None in Ha; lia.
    + by rewrite list_lookup_insert_ne.
  - by rewrite lookup_app_l.
Qed.
End OneCell.

Section Groups.
Context `{Externals} {R : Type} `{Router routerValue R}.
Context {R' : Type} `{Router (option Legacy.Handler) R'}.

Lemma setup_inv (st : server R) (calls : list setup) :
  am_inv (allowed_of st) -> am_inv (allowed_of (foldl step st calls)).
Proof.
  revert st. induction calls as [|c calls IH]; intros st Hst; [done|].
  simpl. by apply IH, step_inv.
Qed.

Lemma legacy_setup_inv (e : Legacy.engine R') (lcalls : list legacy_setup) :
  am_inv (Legacy.e_allowedMethods e) ->
  am_inv (Legacy.e_allowedMethods (foldl legacy_step e lcalls)).
Proof.
  revert e. induction lcalls as [|c lcalls IH]; intros e He; [done|].
  simpl. by apply IH, legacy_step_inv.
Qed.

Lemma am_inv_New : am_inv (mkAllowed [] "").
Proof. split; [constructor|]. split; [constructor|done]. Qed.

(** X20.  The allowed methods and the [Allow] header do not depend on the
    order of the registrations: [sort.Strings] after every new method makes
    the record a function of the set of methods.  Two setups of a new engine
    that allow the same methods have the same slice and the same string; in
    part_000 and in the first engine. *)
Theorem allow_header_is_canonical (h1 h2 : heap) (calls1 calls2 : list setup)
    (lcalls1 lcalls2 : list legacy_setup) :
  let st1 := foldl step (mkServer h1 (eng New)) calls1 in
  let st2 := foldl step (mkServer h2 (eng New)) calls2 in
  let e1 := foldl legacy_step Legacy.New lcalls1 in
  let e2 := foldl legacy_step Legacy.New lcalls2 in
  (forall m, m ∈ am_s (allowed_of st1) <-> m ∈ am_s (allowed_of st2)) ->
  (forall m, m ∈ am_s (Legacy.e_allowedMethods e1) <->
             m ∈ am_s (Legacy.e_allowedMethods e2)) ->
  allowed_of st1 = allowed_of st2 /\
  Legacy.e_allowedMethods e1 = Legacy.e_allowedMethods e2.
Proof.
  cbn zeta. intros Hsame Hsame'. split.
  - apply am_inv_unique; [apply setup_inv, am_inv_New..|done].
  - apply am_inv_unique; [apply legacy_setup_inv, am_inv_New..|done].
Qed.

(** X19.  The nil check of [Register] comes before everything but the
    [append] of line 292.  A node with a nil handler or a nil middleware
    makes [Register] panic with its message before the router is called:
    the router and the allowed methods are what they were, and the node's
    middleware slice reads what it read.  Of the arrays in the store at most
    one cell has changed, the one behind the last element of that slice;
    none has when the slice has no spare capacity. *)
Theorem nil_unit_stops_Register (node : Node) (st : server R) :
  slice_in_store (store st) (Node_Middlewares node) ->
  Node_Handler node = None \/
  None ∈ slice_elems (store st) (Node_Middlewares node) ->
  let r := Register node st in
  let s := Node_Middlewares node in
  outcome_of r = Panicking (PanicValue "middleware or handle of a node is nil") /\
  trace_of r = [] /\
  eng (state_of r) = eng st /\
  slice_elems (store (state_of r)) s = slice_elems (store st) s /\
  (forall i j, (i < length (store st))%nat ->
     i <> s_arr s \/ j <> (s_off s + s_len s)%nat ->
     cell (store (state_of r)) i j = cell (store st) i j) /\
  (s_cap s = s_len s -> heap_extends (store st) (store (state_of r))).
Proof.
  intros Hin Hnil. cbn zeta. rewrite Register_nil_unit by done. simpl.
  split; [done|]. split; [done|]. split; [done|]. split; [|split].
  - by apply append_keeps_slice.
  - intros i j Hi Hij. by apply append_one_cell.
  - intros Hcap. apply append_grow_extends. simpl. lia.
Qed.

Lemma RegisterGroup_children_returns group (h0 : heap) :
  s_cap (Group_Middlewares group) = s_len (Group_Middlewares group) ->
  slice_in_store h0 (Group_Middlewares group) ->
  None ∉ slice_elems h0 (Group_Middlewares group) ->
  forall children (st : server R),
    heap_extends h0 (store st) ->
    Forall (fun v => slice_in_store h0 (Node_Middlewares v) /\
                     Node_Handler v <> None /\
                     None ∉ slice_elems h0 (Node_Middlewares v)) children ->
    let r := RegisterGroup_children group children st in
    outcome_of r <> Panicking RouterPanic ->
    outcome_of r = Returned tt /\
    forall m, m ∈ am_s (allowed_of st) \/ m ∈ Node_Method <$> children ->
              m ∈ am_s (allowed_of (state_of r)).
Proof.
  intros Hcap Hg Hgnil children.
  induction children as [|v rest IH]; intros st Hext Hch; cbn zeta.
  { intros _. split; [done|]. intros m [?|Hm]; [done|]. by apply elem_of_nil in Hm. }
  apply Forall_cons in Hch as [(Hv & Hh & Hvnil) Hrest].
  destruct (heap_extends_slice h0 (store st) _ Hext Hg) as [Hgel Hgin].
  destruct (heap_extends_slice h0 (store st) _ Hext Hv) as [Hvel Hvin].
  destruct (child_step group v (store st) Hcap Hgin Hvin) as (Hext2 & Hin2 & Hel2).
  rewrite RegisterGroup_children_cons. cbn zeta.
  set (a1 := append (store st) (Group_Middlewares group)
                    (slice_elems (store st) (Node_Middlewares v))) in *.
  unfold bind. rewrite Register_run. cbn zeta. simpl.
  set (a2 := append a1.1 a1.2 [Node_Handler v]) in *.
  assert (forallb not_nil (slice_elems a2.1 a2.2) = true) as ->.
  { apply forallb_not_nil_true. rewrite Hel2, Hgel, Hvel.
    intros [?|[?|Hl%list_elem_of_singleton]%elem_of_app]%elem_of_app; done. }
  destruct (router_Register _ _ _ _) as [r'|]; [|done].
  match goal with |- context [RegisterGroup_children group rest ?s] =>
    specialize (IH s);
    destruct (RegisterGroup_children group rest s) as [[o s3] t3] end.
  simpl in *. intros Hrouter.
  destruct IH as [Ho Hall]; [by eapply heap_extends_trans | done | done |].
  split; [done|].
  intros m Hm. apply Hall.
  destruct Hm as [Hm|[->|Hm]%elem_of_cons]; [left|left|by right].
  - destruct (contains _ _); [done|]. by apply new_allowed_mono.
  - destruct (contains _ _) eqn:Hc; [by apply contains_elem_of|].
    apply elem_of_new_allowed. by right.
Qed.

(** X18.  A group whose middleware slice has no spare capacity is
    registered as written.  When the units of the group and of its children
    are all there and the router refuses none of the routes (the call does
    not end in the router's panic), [RegisterGroup] returns; it has
    registered every child, in order, under the root path followed by the
    child's path, with a chain that reads: the group's middleware, the
    child's middleware, the child's handler; no array that was in the store
    has changed; and every child's method is allowed. *)
Theorem group_without_spare_capacity (group : Group) (st : server R) :
  s_cap (Group_Middlewares group) = s_len (Group_Middlewares group) ->
  slice_in_store (store st) (Group_Middlewares group) ->
  None ∉ slice_elems (store st) (Group_Middlewares group) ->
  Forall (fun v => slice_in_store (store st) (Node_Middlewares v) /\
                   Node_Handler v <> None /\
                   None ∉ slice_elems (store st) (Node_Middlewares v))
         (Group_Children group) ->
  let r := RegisterGroup group st in
  outcome_of r <> Panicking RouterPanic ->
  outcome_of r = Returned tt /\
  heap_extends (store st) (store (state_of r)) /\
  Forall2 (registered_as (store (state_of r)) (store st) group)
          (Group_Children group) (trace_of r) /\
  Forall (fun v => Node_Method v ∈ am_s (allowed_of (state_of r)))
         (Group_Children group).
Proof.
  intros Hcap Hg Hgnil Hch. cbn zeta. unfold RegisterGroup. intros Hrouter.
  destruct (RegisterGroup_children_returns group (store st) Hcap Hg Hgnil
              (Group_Children group) st) as [Ho Hall]; [done|done|done|].
  destruct (RegisterGroup_children_chains group (store st) Hcap Hg
              (Group_Children group) st) as [Hext Hreg]; [done| |].
  { eapply Forall_impl; [done|]. by intros v (? & _). }
  split; [done|]. split; [done|]. split; [by apply Hreg|].
  apply Forall_forall. intros v Hv. apply Hall. right.
  by apply list_elem_of_fmap_2.
Qed.
End Groups.

(** ** The properties at work on the sample servers *)

Ltac solve_routed :=
  split; [apply contains_elem_of; reflexivity|];
  split; [discriminate|];
  split; [eexists; reflexivity|];
  split; [repeat split; vm_compute; (lia || done) | reflexivity].

Lemma units_called_in_order_witness :
  exists k,
    invoked (trace_of (ServeHTTP RevB "id" (GET "/o") onion_server)) = seqZ 0 k /\
    0 <= k <= 3.
Proof.
  destruct (units_called_in_order RevB "id" (GET "/o") onion_server route_o []
              [Some (wrap (tagging "A")); Some (wrap (tagging "B")); Some (final "H")]
              (dispatch_ctx (GET "/o") route_o [])) as [_ Hk].
  - solve_routed.
  - apply between_refl. vm_compute. split; discriminate.
  - exact Hk.
Defined.

Lemma units_see_the_route_witness :
  Forall (eq (mkView (GET "/o") [] "/o"))
         (views (trace_of (ServeHTTP RevB "id" (GET "/o") onion_server))).
Proof.
  apply (units_see_the_route RevB "id" (GET "/o") onion_server route_o []
           [Some (wrap (tagging "A")); Some (wrap (tagging "B")); Some (final "H")]).
  solve_routed.
Defined.

Lemma unit_without_Next_ends_chain_witness :
  ServeHTTP RevB "id" (GET "/s") onion_server =
    (Returned tt, onion_server,
     [LogTrace (TraceReq (GET "/s")); RouterLookup "GET" "/s";
      LogTrace (TraceMatch "/s" []);
      Invoke (ChainUnit 0) (mkView (GET "/s") [] "/s"); RespAct (Write "S");
      HeaderSet "X-Log-Id" "id"; LogTrace TraceResp]).
Proof.
  assert (routed onion_server (GET "/s") route_s []
            [Some (final "S"); Some (wrap (tagging "B")); Some (final "H")]) as Hr
    by solve_routed.
  exact (unit_without_Next_ends_chain RevB "id" (GET "/s") onion_server route_s []
           (final "S") [Some (wrap (tagging "B")); Some (final "H")] Hr eq_refl).
Defined.

Lemma middleware_onion_witness :
  actions (trace_of (ServeHTTP RevB "id" (GET "/o") onion_server)) =
    [Write "A<"; Write "B<"; Write "H"; Write ">B"; Write ">A"].
Proof.
  destruct (middleware_onion RevB "id" (GET "/o") onion_server route_o []
              [tagging "A"; tagging "B"] (final "H")) as (_ & Ha & _).
  - solve_routed.
  - reflexivity.
  - reflexivity.
  - exact Ha.
Defined.

Lemma handler_panic_skips_after_parts_witness :
  actions (trace_of (ServeHTTP RevB "id" (GET "/p") onion_server)) =
    [Write "A<"; Write "B<"] /\
  filter is_critical (trace_of (ServeHTTP RevB "id" (GET "/p") onion_server)) =
    [LogCritical (PanicValue "boom")].
Proof.
  destruct (handler_panic_skips_after_parts RevB "id" (GET "/p") onion_server route_p []
              [tagging "A"; tagging "B"] (faulty "boom") (PanicValue "boom"))
    as (_ & Ha & Hc).
  - solve_routed.
  - reflexivity.
  - reflexivity.
  - split; [exact Ha | exact Hc].
Defined.

Lemma answered_exactly_once_witness :
  filter is_answer (trace_of (ServeHTTP RevB "id" (GET "/boom") boom_server)) = [].
Proof.
  destruct (answered_exactly_once RevB "id" (GET "/boom") boom_server) as [Hm _].
  - solve_chain_wf.
  - apply Hm. split; [apply contains_elem_of; reflexivity|].
    split; [discriminate|]. eexists _, _, _. reflexivity.
Defined.

Lemma no_route_is_not_found_witness :
  ServeHTTP RevB "id" (GET "/nope") api_server =
    (Returned tt, api_server,
     [LogTrace (TraceReq (GET "/nope")); RouterLookup "GET" "/nope"; HttpNotFound;
      HeaderSet "X-Log-Id" "id"; LogTrace TraceResp]).
Proof.
  destruct (no_route_is_not_found RevB "id" (GET "/nope") [] api_server 1 legacy_server)
    as [Hr _].
  - apply contains_elem_of. reflexivity.
  - apply contains_elem_of. reflexivity.
  - discriminate.
  - reflexivity.
  - reflexivity.
  - exact Hr.
Defined.

Lemma redirects_change_the_path_witness :
  url_Path (mkURL "/api/users" "") <> "/api/users/" /\
  ~ matched api_server (GET "/api/users/").
Proof.
  destruct (redirects_change_the_path RevB "id" (GET "/api/users/") api_server
              (mkURL "/api/users" "") 308) as (_ & _ & Hp & Hm).
  - intros v ps b Hl. vm_compute in Hl. discriminate.
  - apply (list_elem_of_lookup_2 _ 2%nat). reflexivity.
  - split; [exact Hp | exact Hm].
Defined.

Lemma revisions_agree_witness :
  trace_of (ServeHTTP RevA "id" (GET "/o") onion_server) =
  filter (fun e => is_match_record e = false)
         (trace_of (ServeHTTP RevB "id" (GET "/o") onion_server)).
Proof.
  destruct (revisions_agree "id" (GET "/o") onion_server) as (_ & _ & Ht).
  - solve_chain_wf.
  - discriminate.
  - exact Ht.
Defined.

Lemma registered_route_is_served_witness :
  routed server_a (GET "/a") (mkRouterValue (mkSlice 0 0 2 2) "/a") []
         [Some (passing "L"); Some (final "HA")].
Proof.
  destruct (registered_route_is_served
              (mkNode "GET" "/a" common (Some (final "HA")))
              (mkServer common_store (eng New)) (final "HA")
              [("GET", "/a", mkRouterValue (mkSlice 0 0 2 2) "/a")] [] false
              (GET "/a")) as (_ & _ & _ & _ & Hr).
  - split; vm_compute; lia.
  - vm_compute. discriminate.
  - reflexivity.
  - change (None ∉ [Some (passing "L")]).
    intros Hin. apply elem_of_cons in Hin as [Hin|Hin]; [discriminate|].
    by apply elem_of_nil in Hin.
  - reflexivity.
  - apply Hr; [reflexivity | reflexivity | discriminate | reflexivity].
Defined.

Lemma RegisterGroup_stops_at_nil_child_witness :
  outcome_of
    (RegisterGroup
       (mkGroup "/api" (mkSlice 0 0 1 1)
          ([mkNode "GET" "/users" (mkSlice 1 0 1 1) (Some (final "H1"))] ++
           bad_child ::
           [mkNode "GET" "/posts" (mkSlice 2 0 1 1) (Some (final "H2"))]))
       (mkServer shared_store (eng New))) =
  Panicking nil_unit_panic.
Proof.
  destruct (RegisterGroup_stops_at_nil_child "/api" (mkSlice 0 0 1 1)
              [mkNode "GET" "/users" (mkSlice 1 0 1 1) (Some (final "H1"))]
              bad_child
              [mkNode "GET" "/posts" (mkSlice 2 0 1 1) (Some (final "H2"))]
              (mkServer shared_store (eng New))) as [Ho _].
  - split; vm_compute; lia.
  - reflexivity.
  - reflexivity.
  - exact Ho.
Defined.

Lemma legacy_only_first_middleware_runs_witness :
  Forall (fun ev => forall f w, ev = Invoke f w -> f = Middleware 0)
         (trace_of (Legacy.ServeHTTP 3 "id" (GET "/api/users") legacy_server)).
Proof.
  apply (legacy_only_first_middleware_runs 3 "id" (GET "/api/users") legacy_server
           (Some (final "A")) []).
  reflexivity.
Defined.

Lemma legacy_handler_called_directly_witness :
  Legacy.ServeHTTP 1 "id" (GET "/api/users") legacy_plain =
    (Returned tt, legacy_plain,
     [LogTrace (TraceReq (GET "/api/users")); RouterLookup "GET" "/api/users";
      Invoke RouteHandler (mkView (GET "/api/users") [] ""); RespAct (Write "H");
      HeaderSet "X-Log-Id" "id"; LogTrace TraceResp]).
Proof.
  assert (legacy_allows legacy_plain (GET "/api/users")) as Hm
    by (apply contains_elem_of; reflexivity).
  assert (url_Path (req_URL (GET "/api/users")) <> "") as Hp by discriminate.
  exact (legacy_handler_called_directly 0 "id" (GET "/api/users") legacy_plain
           (legacy_handler "H") [] false eq_refl Hm Hp eq_refl).
Defined.

Lemma group_without_spare_capacity_witness :
  outcome_of (RegisterGroup tight_group strict_server) = Returned tt /\
  Forall (fun v => Node_Method v ∈
            am_s (allowed_of (state_of (RegisterGroup tight_group strict_server))))
         (Group_Children tight_group) /\
  outcome_of (RegisterGroup tight_group
                (state_of (RegisterGroup tight_group strict_server))) =
    Panicking RouterPanic.
Proof.
  destruct (group_without_spare_capacity tight_group strict_server)
    as (Ho & _ & _ & Hm).
  - reflexivity.
  - split; vm_compute; lia.
  - change (None ∉ [Some (passing "L")]).
    intros Hin. apply elem_of_cons in Hin as [Hin|Hin]; [discriminate|].
    by apply elem_of_nil in Hin.
  - repeat constructor; try (vm_compute; lia); try discriminate.
    + change (None ∉ [Some (passing "M1")]).
      intros Hin. apply elem_of_cons in Hin as [Hin|Hin]; [discriminate|].
      by apply elem_of_nil in Hin.
    + change (None ∉ [Some (passing "M2")]).
      intros Hin. apply elem_of_cons in Hin as [Hin|Hin]; [discriminate|].
      by apply elem_of_nil in Hin.
  - vm_compute. discriminate.
  - split; [exact Ho|]. split; [exact Hm|]. reflexivity.
Defined.

Lemma nil_unit_stops_Register_witness :
  trace_of (Register nil_node server_a) = [] /\
  eng (state_of (Register nil_node server_a)) = eng server_a.
Proof.
  destruct (nil_unit_stops_Register nil_node server_a) as (_ & Ht & He & _).
  - split; vm_compute; lia.
  - left. reflexivity.
  - split; [exact Ht | exact He].
Defined.

Lemma allow_header_is_canonical_witness :
  allowed_of (foldl step (mkServer [] (eng New)) get_then_post) =
  allowed_of (foldl step (mkServer [] (eng New)) post_then_get).
Proof.
  destruct (allow_header_is_canonical [] [] get_then_post post_then_get
              [LegacyRegister "GET" "/a" None] [LegacyRegister "GET" "/b" None])
    as [Ha _].
  - intros m. reflexivity.
  - intros m. reflexivity.
  - exact Ha.
Defined.

Lemma log_id_header_late_witness :
  ~ header_sent "X-Log-Id" "id"
      (trace_of (ServeHTTP RevB "id" (PUT "/api/users") api_server)) /\
  ~ header_sent "X-Log-Id" "id"
      (trace_of (ServeHTTP RevB "id" (GET "/o") onion_server)) /\
  outcome_of (Legacy.ServeHTTP 3 "id" (GET "/api/users") legacy_looping) = OutOfFuel /\
  HeaderSet "X-Log-Id" "id" ∉
    trace_of (Legacy.ServeHTTP 3 "id" (GET "/api/users") legacy_looping).
Proof.
  destruct (log_id_header_late RevB "id" (PUT "/api/users") api_server 2 legacy_looping)
    as (Hlate & _); [discriminate|].
  destruct (log_id_header_late RevB "id" (GET "/o") onion_server 2 legacy_looping)
    as (_ & Hchain & _); [discriminate|].
  destruct (log_id_header_late RevB "id" (GET "/api/users") api_server 2 legacy_looping)
    as (_ & _ & _ & _ & Hdiv); [discriminate|].
  split; [|split].
  - apply Hlate. intros (Hm & _). apply contains_elem_of in Hm. vm_compute in Hm.
    discriminate.
  - apply (Hchain route_o []
             [Some (wrap (tagging "A")); Some (wrap (tagging "B")); Some (final "H")]).
    + solve_routed.
    + reflexivity.
  - apply Hdiv. split; [apply contains_elem_of; reflexivity|].
    split; [discriminate|].
    eexists. split; reflexivity.
Defined.
